(** * Mousetrap: the key-combination engine of [src/mousetrap.jsx]

    A shallow embedding of the class [Mousetrap]: the combination parser
    ([#keysFromString], [#getKeyInfo], [#pickBestAction]), the binding registry
    ([_bindSingle], [#bindSequence], [#getMatches], [trigger], [reset]), the
    sequence state ([#resetSequences], the wrappers built by [#bindSequence]) and
    the dispatcher ([#handleKeyEvent], [handleKey], [_fireCallback],
    [stopCallback]), the key tables ([staticConstructor], [addKeycodes],
    [#getReverseMap], [#characterFromEvent]) and [#belongsTo].

    Conventions of the embedding.
    - A JavaScript string is a [string] whose characters are UTF-16 code units
      below 256 (every key and value of the tables is in that range).
    - [undefined] is [None]; a value is truthy as JavaScript says: a string when
      it is not empty, an array always.
    - Objects used as dictionaries are [gmap]s.  Lookups are own-property
      lookups: the members every object literal inherits from
      [Object.prototype] ([constructor], [toString], ...) are not in the maps.
    - An uncaught [TypeError] ends the running handler: operations that can
      raise return a [completion] next to the state reached when it was raised.
    - User callbacks are opaque: a callback is known by an identifier and by
      whether it returns exactly [false]; calling it is recorded in a log. *)

From Stdlib Require Import NArith String Ascii List Bool Lia Permutation.
From Stdlib Require Import DecimalString.
From stdpp Require Import base strings gmap list sorting.

Open Scope string_scope.
Open Scope list_scope.

(** ** Strings *)

Module JsString.

(** [\s] of a regular expression, on code units below 256. *)
Definition is_space (c : ascii) : bool :=
  let n := N_of_ascii c in
  ((9 <=? n) && (n <=? 13) || (n =? 32) || (n =? 160))%N.

(** [s.replace(/\s+/g, ' ')]; [in_run] says the previous character was
    white space and has already produced its single space. *)
Fixpoint collapse (in_run : bool) (s : string) : string :=
  match s with
  | EmptyString => EmptyString
  | String c r =>
      if is_space c
      then (if in_run then collapse true r else String " " (collapse true r))
      else String c (collapse false r)
  end.

Definition replace_spaces (s : string) : string := collapse false s.

(** [s.split(sep)] for a one-character separator. *)
Fixpoint split (sep : ascii) (s : string) : list string :=
  match s with
  | EmptyString => [EmptyString]
  | String c r =>
      if Ascii.eqb c sep then EmptyString :: split sep r
      else match split sep r with
           | h :: t => String c h :: t
           | [] => [String c EmptyString]
           end
  end.

(** [s.replace(/\+{2}/g, '+plus')]: non-overlapping pairs, left to right. *)
Fixpoint replace_plus_plus (s : string) : string :=
  match s with
  | EmptyString => EmptyString
  | String c r =>
      if Ascii.eqb c "+" then
        match r with
        | String d r' =>
            if Ascii.eqb d "+" then "+plus" +:+ replace_plus_plus r'
            else String c (replace_plus_plus r)
        | EmptyString => String c EmptyString
        end
      else String c (replace_plus_plus r)
  end.

(** [l.join(sep)]. *)
Fixpoint join (sep : string) (l : list string) : string :=
  match l with
  | [] => EmptyString
  | [x] => x
  | x :: r => x +:+ sep +:+ join sep r
  end.

(** [hay.indexOf(needle) > -1]. *)
Fixpoint contains (needle hay : string) : bool :=
  String.prefix needle hay ||
  match hay with
  | EmptyString => false
  | String _ r => contains needle r
  end.

(** [Array.prototype.sort()] without a comparator, on strings: ascending
    order of code units.  The order is total and equal strings cannot be
    told apart, so the result does not depend on the algorithm. *)
Fixpoint insert_sorted (x : string) (l : list string) : list string :=
  match l with
  | [] => [x]
  | y :: r => if String.leb x y then x :: l else y :: insert_sorted x r
  end.

Definition sort (l : list string) : list string := foldr insert_sorted [] l.

(** [String.prototype.toLowerCase] on one code unit below 256. *)
Definition lower_char (c : ascii) : ascii :=
  let n := N_of_ascii c in
  if ((65 <=? n) && (n <=? 90) ||
      (192 <=? n) && (n <=? 222) && negb (n =? 215))%N
  then ascii_of_N (n + 32) else c.

Fixpoint toLowerCase (s : string) : string :=
  match s with
  | EmptyString => EmptyString
  | String c r => String (lower_char c) (toLowerCase r)
  end.

(** [String.fromCharCode(n)]: one code unit, [n] modulo 65536; [undefined]
    converts to code 0.  A string of the model holds code units below 256
    only: for a unit of 256 or more the character given here is not the one
    of the code, and every statement that depends on the character taken
    from the code of an event is made for the events that [in_range]
    admits. *)
Definition fromCharCode (n : option N) : string :=
  String (ascii_of_N (default 0%N n mod 65536)) EmptyString.

(** [n.toString()] and ['f' + n] for a non-negative integer. *)
Definition of_nat (n : nat) : string := NilZero.string_of_uint (Nat.to_uint n).

Definition truthy (s : string) : bool := negb (String.eqb s EmptyString).




Fixpoint mem (c : ascii) (s : string) : bool :=
  match s with
  | EmptyString => false
  | String d r => Ascii.eqb d c || mem c r
  end.

Definition truthy_opt (o : option string) : bool :=
  match o with Some s => truthy s | None => false end.

(** [String(v)] of a string or [undefined], as [+] concatenates it. *)
Definition of_opt (o : option string) : string := default "undefined" o.

End JsString.

(** ** The static tables *)

Definition _MAP0 : gmap N string :=
  list_to_map
    [ (8, "backspace"); (9, "tab"); (13, "enter"); (16, "shift"); (17, "ctrl");
      (18, "alt"); (20, "capslock"); (27, "esc"); (32, "space"); (33, "pageup");
      (34, "pagedown"); (35, "end"); (36, "home"); (37, "left"); (38, "up");
      (39, "right"); (40, "down"); (45, "ins"); (46, "del"); (91, "meta");
      (93, "meta"); (224, "meta") ]%N.

Definition _KEYCODE_MAP : gmap N string :=
  list_to_map
    [ (106, "*"); (107, "+"); (109, "-"); (110, "."); (111, "/"); (186, ";");
      (187, "="); (188, ","); (189, "-"); (190, "."); (191, "/"); (192, "`");
      (219, "["); (220, "\"); (221, "]"); (222, "'") ]%N.

Definition shift_entries : list (string * string) :=
  [ ("~", "`"); ("!", "1"); ("@", "2"); ("#", "3"); ("$", "4"); ("%", "5");
    ("^", "6"); ("&", "7"); ("*", "8"); ("(", "9"); (")", "0"); ("_", "-");
    ("+", "="); (":", ";"); (String (ascii_of_nat 34) "", "'"); ("<", ",");
    (">", "."); ("?", "/"); ("|", "\") ].

Definition _SHIFT_MAP : gmap string string := list_to_map shift_entries.

(** ['mod'] is ['meta'] on Apple platforms ([navigator.platform]) and ['ctrl']
    elsewhere; [mac] is the outcome of that test. *)
Definition alias_entries (mac : bool) : list (string * string) :=
  [ ("option", "alt"); ("command", "meta"); ("return", "enter");
    ("escape", "esc"); ("plus", "+"); ("mod", if mac then "meta" else "ctrl") ].

Definition _SPECIAL_ALIASES (mac : bool) : gmap string string :=
  list_to_map (alias_entries mac).

(** The static fields that change at run time, and the platform test.
    [_REVERSE_MAP] starts as the empty object (which is truthy) and is set to
    [null] ([None]) by [addKeycodes]. *)
Record statics := Statics {
  _MAP : gmap N string;
  _REVERSE_MAP : option (gmap string N);
  platformIsMac : bool
}.

(** [staticConstructor]: f1..f19 on 112..130, the numeric keypad on 96..105. *)
Definition staticConstructor (s : statics) : statics :=
  let m1 := foldl (fun m i => <[N.of_nat (111 + i) := "f" +:+ JsString.of_nat i]> m)
                  (_MAP s) (seq 1 19) in
  let m2 := foldl (fun m i => <[N.of_nat (i + 96) := JsString.of_nat i]> m)
                  m1 (seq 0 10) in
  Statics m2 (_REVERSE_MAP s) (platformIsMac s).

(** The class as loaded: the literals, then [Mousetrap.staticConstructor()]. *)
Definition statics0 (mac : bool) : statics :=
  staticConstructor (Statics _MAP0 (Some ∅) mac).

(** [addKeycodes(object)]: [object] as its own properties in order. *)
Definition addKeycodes (object : list (N * string)) (s : statics) : statics :=
  Statics (foldl (fun m kv => <[kv.1 := kv.2]> m) (_MAP s) object)
          None (platformIsMac s).

(** [for (key in _MAP)] visits integer keys in ascending order. *)
Definition key_le (a b : N * string) : Prop := (a.1 <= b.1)%N.

#[global] Instance key_le_dec : RelDecision key_le :=
  fun a b => decide (a.1 <= b.1)%N.

Definition keys_ascending (m : gmap N string) : list (N * string) :=
  merge_sort key_le (map_to_list m).

(** [#getReverseMap]: computed when the cache is [null], and cached. *)
Definition getReverseMap (s : statics) : gmap string N * statics :=
  match _REVERSE_MAP s with
  | Some r => (r, s)
  | None =>
      let r := foldl (fun r kv =>
                        if ((95 <? kv.1) && (kv.1 <? 112))%N then r
                        else <[kv.2 := kv.1]> r)
                     ∅ (keys_ascending (_MAP s)) in
      (r, Statics (_MAP s) (Some r) (platformIsMac s))
  end.

(** ** The combination parser *)

(** [#isModifier]. *)
Definition isModifier (key : string) : bool :=
  String.eqb key "shift" || String.eqb key "ctrl" ||
  String.eqb key "alt" || String.eqb key "meta".

(** [#pickBestAction]. *)
Definition pickBestAction (s : statics) (key : string) (modifiers : list string)
    (action : option string) : string * statics :=
  let '(action1, s1) :=
    match action with
    | Some a =>
        if JsString.truthy a then (a, s)
        else let '(r, s') := getReverseMap s in
             (if r !! key is Some _ then "keydown" else "keypress", s')
    | None =>
        let '(r, s') := getReverseMap s in
        (if r !! key is Some _ then "keydown" else "keypress", s')
    end in
  (if String.eqb action1 "keypress" && negb (bool_decide (modifiers = []))
   then "keydown" else action1, s1).

(** [#keysFromString]. *)
Definition keysFromString (combination : string) : list string :=
  if String.eqb combination "+" then ["+"]
  else JsString.split "+" (JsString.replace_plus_plus combination).

(** The object [#getKeyInfo] returns. *)
Module KeyInfo.
Record t := Make {
  key : string;
  modifiers : list string;
  action : string
}.
End KeyInfo.

(** Whether [#getKeyInfo] consults the shift table:
    [action && action != 'keypress']. *)
Definition shift_applies (action : option string) : bool :=
  JsString.truthy_opt action && negb (bool_decide (action = Some "keypress")).

(** [if (_SPECIAL_ALIASES[key]) key = _SPECIAL_ALIASES[key]]. *)
Definition resolve_alias (mac : bool) (token : string) : string :=
  match _SPECIAL_ALIASES mac !! token with
  | Some a => if JsString.truthy a then a else token
  | None => token
  end.

(** The value of [_SHIFT_MAP[key]] when the condition
    [action && action != 'keypress' && _SHIFT_MAP[key]] holds. *)
Definition shift_hit (action : option string) (key : string) : option string :=
  if shift_applies action then
    match _SHIFT_MAP !! key with
    | Some b => if JsString.truthy b then Some b else None
    | None => None
    end
  else None.

(** One turn of the loop of [#getKeyInfo] over the tokens: [acc] is the
    current value of [key] (unused on entry) and of [modifiers]. *)
Definition getKeyInfo_step (mac : bool) (action : option string)
    (acc : string * list string) (token : string) : string * list string :=
  let k1 := resolve_alias mac token in
  let '(k2, m2) :=
    match shift_hit action k1 with
    | Some b => (b, acc.2 ++ ["shift"])
    | None => (k1, acc.2)
    end in
  (k2, if isModifier k2 then m2 ++ [k2] else m2).

(** What one token gives: the value of [key] after its turn, and the
    entries it pushes on [modifiers]. *)
Definition token_key (mac : bool) (action : option string) (token : string)
    : string :=
  (getKeyInfo_step mac action ("", []) token).1.

Definition token_modifiers (mac : bool) (action : option string)
    (token : string) : list string :=
  (getKeyInfo_step mac action ("", []) token).2.

(** With this action, [#getKeyInfo] does not replace the token through the
    shift table: the table is not consulted (no action, or [keypress]), or
    the token, once its alias is resolved, is no key of the table. *)
Definition unshifted (mac : bool) (action : option string) (token : string)
    : Prop :=
  shift_hit action (resolve_alias mac token) = None.

(** The names every object literal inherits from [Object.prototype].  With
    such a name as token, [_SPECIAL_ALIASES[key]] is the inherited member, not
    a string, and the key that comes out is no string either: these tokens
    are outside the model. *)
Definition inherited_names : list string :=
  [ "constructor"; "hasOwnProperty"; "isPrototypeOf"; "propertyIsEnumerable";
    "toLocaleString"; "toString"; "valueOf"; "__proto__"; "__defineGetter__";
    "__defineSetter__"; "__lookupGetter__"; "__lookupSetter__" ].

(** [#getKeyInfo]. *)
Definition getKeyInfo (s : statics) (combination : string)
    (action : option string) : KeyInfo.t * statics :=
  let '(k, ms) := foldl (getKeyInfo_step (platformIsMac s) action) ("", [])
                        (keysFromString combination) in
  let '(a, s') := pickBestAction s k ms action in
  (KeyInfo.Make k ms a, s').

(** ** The engine: data *)

(** A sequence level: a number, or [NaN] ([++] of a missing entry,
    [Math.max] with [undefined]). *)
Inductive jsnum := Num (n : nat) | NaN.

(** The functions the registry holds: a caller's function, the empty function
    [unbind] binds, and the two wrappers [#bindSequence] builds
    ([_increaseSequence(nextAction)] closed over [combo], and
    [_callbackAndReset] closed over [callback], [combo] and [action]). *)
Inductive callback :=
| UserFn (id : nat) (returns_false : bool)
| EmptyFn
| IncreaseSequence (combo : string) (nextAction : string)
| CallbackAndReset (callback : callback) (combo : string) (action : option string).

(** An entry of [_callbacks[key]]. *)
Module Binding.
Record t := Make {
  callback : callback;
  modifiers : list string;
  action : string;
  seq : option string;
  level : option nat;
  combo : string
}.

(** [modifiers.sort()] in place. *)
Definition sorted (b : t) : t :=
  Make (callback b) (JsString.sort (modifiers b)) (action b) (seq b) (level b)
       (combo b).

(** [callback.seq] as a condition. *)
Definition is_seq (b : t) : bool := JsString.truthy_opt (seq b).
End Binding.

Record element := Element {
  className : string;
  contentEditable : option string
}.

Inductive event_type := keypress | keydown | keyup.

Definition type_name (t : event_type) : string :=
  match t with
  | keypress => "keypress"
  | keydown => "keydown"
  | keyup => "keyup"
  end.

#[global] Instance event_type_eq_dec : EqDecision event_type.
Proof. solve_decision. Defined.

(** A keyboard event as the listeners receive it; [target] stands for
    [e.target || e.srcElement]. *)
Record key_event := KeyEvent {
  type : event_type;
  which : option N;
  keyCode : option N;
  shiftKey : bool;
  altKey : bool;
  ctrlKey : bool;
  metaKey : bool;
  target : option element
}.

(** What a callback receives: a keyboard event, or the [{}] of [trigger]. *)
Inductive js_event := Dom (e : key_event) | EmptyObject.

(** What [setTimeout] was given: [this.#resetSequences] read off the instance
    (a function that will run with [this] undefined), or the value of
    [self._resetSequences], a property no instance has. *)
Inductive timer_handler := UnboundResetSequences | UndefinedProperty.

Record timer := Timer {
  timer_id : nat;
  handler : timer_handler;
  delay : N
}.

(** The instance fields. [_ignoreNextKeyup] and [_nextExpectedAction] are
    [false] ([None]) or a string; [_resetTimer] is [undefined] or a timer id. *)
Record mousetrap := Mousetrap {
  mouseTrapEnabled : bool;
  _callbacks : gmap string (list Binding.t);
  _directMap : gmap string callback;
  _sequenceLevels : gmap string jsnum;
  _resetTimer : option nat;
  _ignoreNextKeyup : option string;
  _ignoreNextKeypress : bool;
  _nextExpectedAction : option string
}.

(** One engine with the class's static state and the host's timer queue. *)
Record world := World {
  classState : statics;
  self : mousetrap;
  timers : list timer;
  nextTimerId : nat
}.

Definition mousetrap0 : mousetrap :=
  Mousetrap true ∅ ∅ ∅ None None false None.

Definition world0 (mac : bool) : world := World (statics0 mac) mousetrap0 [] 0.

(** Field updates. *)
Definition set_enabled (v : bool) (m : mousetrap) : mousetrap :=
  Mousetrap v (_callbacks m) (_directMap m) (_sequenceLevels m) (_resetTimer m)
            (_ignoreNextKeyup m) (_ignoreNextKeypress m) (_nextExpectedAction m).
Definition set_callbacks (v : gmap string (list Binding.t)) (m : mousetrap) : mousetrap :=
  Mousetrap (mouseTrapEnabled m) v (_directMap m) (_sequenceLevels m) (_resetTimer m)
            (_ignoreNextKeyup m) (_ignoreNextKeypress m) (_nextExpectedAction m).
Definition set_directMap (v : gmap string callback) (m : mousetrap) : mousetrap :=
  Mousetrap (mouseTrapEnabled m) (_callbacks m) v (_sequenceLevels m) (_resetTimer m)
            (_ignoreNextKeyup m) (_ignoreNextKeypress m) (_nextExpectedAction m).
Definition set_sequenceLevels (v : gmap string jsnum) (m : mousetrap) : mousetrap :=
  Mousetrap (mouseTrapEnabled m) (_callbacks m) (_directMap m) v (_resetTimer m)
            (_ignoreNextKeyup m) (_ignoreNextKeypress m) (_nextExpectedAction m).
Definition set_ignoreNextKeyup (v : option string) (m : mousetrap) : mousetrap :=
  Mousetrap (mouseTrapEnabled m) (_callbacks m) (_directMap m) (_sequenceLevels m)
            (_resetTimer m) v (_ignoreNextKeypress m) (_nextExpectedAction m).
Definition set_ignoreNextKeypress (v : bool) (m : mousetrap) : mousetrap :=
  Mousetrap (mouseTrapEnabled m) (_callbacks m) (_directMap m) (_sequenceLevels m)
            (_resetTimer m) (_ignoreNextKeyup m) v (_nextExpectedAction m).
Definition set_nextExpectedAction (v : option string) (m : mousetrap) : mousetrap :=
  Mousetrap (mouseTrapEnabled m) (_callbacks m) (_directMap m) (_sequenceLevels m)
            (_resetTimer m) (_ignoreNextKeyup m) (_ignoreNextKeypress m) v.

Definition with_self (f : mousetrap -> mousetrap) (w : world) : world :=
  World (classState w) (f (self w)) (timers w) (nextTimerId w).
Definition with_classState (s : statics) (w : world) : world :=
  World s (self w) (timers w) (nextTimerId w).

(** How a call ends: it returns (what matters of the value is whether it is
    exactly [false]) or it raises. *)
Inductive jsret := ExactlyFalse | OtherValue.
Inductive completion := Returned (v : jsret) | Raised (error : string).

(** The log of the calls to user functions: identifier and [combo] argument. *)
Definition call : Type := nat * string.

Record run := Run {
  after : world;
  calls : list call;
  outcome : completion
}.

(** ** Pause and the suppression predicate *)

Definition pause (m : mousetrap) : mousetrap := set_enabled false m.
Definition unpause (m : mousetrap) : mousetrap := set_enabled true m.

(** [(' ' + element.className + ' ').indexOf(' mousetrap ') > -1]. *)
Definition has_mousetrap_class (el : element) : bool :=
  JsString.contains " mousetrap " (" " +:+ className el +:+ " ").




(** [stopCallback(event, element)]; the value is read as a condition.  With
    the engine enabled an [undefined] element raises ([element.className]). *)
Definition stopCallback (m : mousetrap) (el : option element) : bool + string :=
  if negb (mouseTrapEnabled m) then inl true
  else match el with
       | None => inr "element is undefined"
       | Some el =>
           if has_mousetrap_class el then inl false
           else inl (bool_decide (contentEditable el = Some "true"))
       end.

(** ** Reading an event *)

Definition target_of (e : js_event) : option element :=
  match e with Dom k => target k | EmptyObject => None end.

(** A table entry that passes [if (table[e.which])]. *)
Definition table_hit (t : gmap N string) (code : option N) : option string :=
  match code with
  | Some n => match t !! n with
              | Some v => if JsString.truthy v then Some v else None
              | None => None
              end
  | None => None
  end.

(** [#characterFromEvent]. *)
Definition characterFromEvent (s : statics) (e : js_event) : string :=
  match e with
  | Dom k =>
      if decide (type k = keypress) then
        let character := JsString.fromCharCode (which k) in
        if shiftKey k then character else JsString.toLowerCase character
      else
        match table_hit (_MAP s) (which k) with
        | Some v => v
        | None =>
            match table_hit _KEYCODE_MAP (which k) with
            | Some v => v
            | None => JsString.toLowerCase (JsString.fromCharCode (which k))
            end
        end
  | EmptyObject => JsString.toLowerCase (JsString.fromCharCode None)
  end.

(** [#eventModifiers]. *)
Definition eventModifiers (e : key_event) : list string :=
  (if shiftKey e then ["shift"] else []) ++
  (if altKey e then ["alt"] else []) ++
  (if ctrlKey e then ["ctrl"] else []) ++
  (if metaKey e then ["meta"] else []).

(** The modifiers [#getMatches] compares with: those of the event, or the
    key itself when a modifier key comes up. *)
Definition event_modifier_set (character : string) (e : key_event) : list string :=
  if bool_decide (type e = keyup) && isModifier character then [character]
  else eventModifiers e.

(** [#modifiersMatch]; both arrays are also sorted in place, which
    [#getMatches] below accounts for. *)
Definition modifiersMatch (modifiers1 modifiers2 : list string) : bool :=
  String.eqb (JsString.join "," (JsString.sort modifiers1))
             (JsString.join "," (JsString.sort modifiers2)).

(** ** The registry: [#getMatches] *)

(** [_sequenceLevels[callback.seq] != callback.level]. *)
Definition level_differs (current : option jsnum) (level : option nat) : bool :=
  match current, level with
  | None, None => false
  | Some (Num n), Some l => negb (Nat.eqb n l)
  | _, _ => true
  end.

Section GetMatches.
Variables (modifiers : list string) (action : string) (metaKey ctrlKey : bool)
          (sequenceName combination : option string) (level : option nat)
          (levels : gmap string jsnum).

(** The body of the loop for one entry: the entry as it is left in the
    array (sorted in place when [#modifiersMatch] ran on it), whether it
    matches, and whether [#modifiersMatch] ran. *)
Definition examine (b : Binding.t) : Binding.t * bool * bool :=
  if negb (JsString.truthy_opt sequenceName) && Binding.is_seq b &&
     level_differs (levels !! default "" (Binding.seq b)) (Binding.level b)
  then (b, false, false)
  else if negb (String.eqb action (Binding.action b)) then (b, false, false)
  else if String.eqb action "keypress" && negb metaKey && negb ctrlKey
       then (b, true, false)
       else (Binding.sorted b, modifiersMatch modifiers (Binding.modifiers b), true).

(** [deleteCombo || deleteSequence]. *)
Definition deletes (b : Binding.t) : bool :=
  (negb (JsString.truthy_opt sequenceName) &&
     bool_decide (Some (Binding.combo b) = combination))
  || (JsString.truthy_opt sequenceName &&
        bool_decide (Binding.seq b = sequenceName) &&
        bool_decide (Binding.level b = level)).

(** The loop from index [i] on, [rest] being the array from [i]: the array
    it leaves from [i], the matches pushed, whether [#modifiersMatch] ran.
    After [splice(i, 1)] the counter still advances, so the entry that
    moved into place [i] is not examined. *)
Fixpoint getMatches_loop (rest : list Binding.t)
    : list Binding.t * list Binding.t * bool :=
  match rest with
  | [] => ([], [], false)
  | b :: tl =>
      let '(b', matched, ran) := examine b in
      if matched then
        if deletes b' then
          match tl with
          | [] => ([], [b'], ran)
          | unexamined :: tl' =>
              let '(arr, ms, ran') := getMatches_loop tl' in
              (unexamined :: arr, b' :: ms, ran || ran')
          end
        else
          let '(arr, ms, ran') := getMatches_loop tl in
          (b' :: arr, b' :: ms, ran || ran')
      else
        let '(arr, ms, ran') := getMatches_loop tl in
        (b' :: arr, ms, ran || ran')
  end.
End GetMatches.

(** [#getMatches(character, modifiers, e, sequenceName, combination, level)],
    [e] given by its [type], [metaKey] and [ctrlKey].  It returns the matches,
    the caller's [modifiers] array as the call leaves it, and the engine. *)
Definition getMatches (character : string) (modifiers : list string)
    (action : string) (metaKey ctrlKey : bool)
    (sequenceName combination : option string) (level : option nat)
    (m : mousetrap) : list Binding.t * list string * mousetrap :=
  match _callbacks m !! character with
  | None => ([], modifiers, m)
  | Some entries =>
      let own := bool_decide (action = "keyup") && isModifier character in
      let modifiers' := if own then [character] else modifiers in
      let '(arr, ms, ran) :=
        getMatches_loop modifiers' action metaKey ctrlKey sequenceName
                        combination level (_sequenceLevels m) entries in
      (ms,
       if ran && negb own then JsString.sort modifiers else modifiers,
       set_callbacks (<[character := arr]> (_callbacks m)) m)
  end.

(** ** Sequence state and timers *)

(** [#resetSequences(doNotReset)] on an instance. *)
Definition resetSequences (doNotReset : gset string) (m : mousetrap) : mousetrap :=
  let activeSequences :=
    bool_decide (dom (_sequenceLevels m) ∩ doNotReset ≠ ∅) in
  let levels :=
    map_imap (fun k v => Some (if decide (k ∈ doNotReset) then v else Num 0))
             (_sequenceLevels m) in
  let m1 := set_sequenceLevels levels m in
  if activeSequences then m1 else set_nextExpectedAction None m1.

Definition setTimeout (h : timer_handler) (ms : N) (w : world) : nat * world :=
  (nextTimerId w,
   World (classState w) (self w) (timers w ++ [Timer (nextTimerId w) h ms])
         (S (nextTimerId w))).

Definition clearTimeout (id : option nat) (w : world) : world :=
  match id with
  | None => w
  | Some i =>
      World (classState w) (self w)
            (filter (fun t => timer_id t ≠ i) (timers w)) (nextTimerId w)
  end.


(** What the host does when a timer's delay has passed.  The function read
    off [this.#resetSequences] runs with [this] undefined and raises at
    [this._sequenceLevels]; [setTimeout(undefined, ...)] has nothing to call. *)
Definition run_handler (h : timer_handler) (w : world) : world * completion :=
  match h with
  | UnboundResetSequences => (w, Raised "this is undefined")
  | UndefinedProperty => (w, Returned OtherValue)
  end.

(** The timer [id] expires: it leaves the queue and its handler runs. *)
Definition expire (id : nat) (w : world) : world * completion :=
  match List.find (fun t => Nat.eqb (timer_id t) id) (timers w) with
  | None => (w, Returned OtherValue)
  | Some t => run_handler (handler t) (clearTimeout (Some id) w)
  end.

(** ** Calling callbacks *)

(** [++self._sequenceLevels[combo]]. *)
Definition increment (combo : string) (levels : gmap string jsnum)
    : gmap string jsnum :=
  <[combo := match levels !! combo with
             | Some (Num n) => Num (S n)
             | _ => NaN
             end]> levels.

(** [_fireCallback(callback, e, combo, sequence)], the call of [callback]
    being [call_it].  When the callback returns exactly [false] the method
    reads [this.#preventDefault], a static private method, off the instance:
    that raises. *)
Definition fireCallback_with (call_it : js_event -> string -> world -> run)
    (e : js_event) (combo : string) (w : world) : run :=
  match stopCallback (self w) (target_of e) with
  | inr error => Run w [] (Raised error)
  | inl true => Run w [] (Returned OtherValue)
  | inl false =>
      let r := call_it e combo w in
      match outcome r with
      | Raised _ => r
      | Returned ExactlyFalse =>
          Run (after r) (calls r) (Raised "#preventDefault is not on the instance")
      | Returned OtherValue => Run (after r) (calls r) (Returned OtherValue)
      end
  end.

(** [callback(e, combo)]. *)
Fixpoint invoke (cb : callback) (e : js_event) (combo : string) (w : world) : run :=
  match cb with
  | UserFn id returns_false =>
      Run w [(id, combo)]
          (Returned (if returns_false then ExactlyFalse else OtherValue))
  | EmptyFn => Run w [] (Returned OtherValue)
  | IncreaseSequence combo' nextAction =>
      (* self._nextExpectedAction = nextAction; ++self._sequenceLevels[combo];
         then self._resetSequenceTimer(), a property no instance has *)
      let m1 := set_nextExpectedAction (Some nextAction) (self w) in
      let m2 := set_sequenceLevels (increment combo' (_sequenceLevels m1)) m1 in
      Run (with_self (fun _ => m2) w) []
          (Raised "self._resetSequenceTimer is not a function")
  | CallbackAndReset callback combo' action =>
      let r := fireCallback_with (invoke callback) e combo' w in
      match outcome r with
      | Raised _ => r
      | Returned _ =>
          let w1 := after r in
          let w2 :=
            if bool_decide (action = Some "keyup") then w1
            else with_self (set_ignoreNextKeyup
                              (Some (characterFromEvent (classState w1) e))) w1 in
          let '(_, w3) := setTimeout UndefinedProperty 10 w2 in
          Run w3 (calls r) (Returned OtherValue)
      end
  end.

Definition _fireCallback (cb : callback) (e : js_event) (combo : string)
    (w : world) : run :=
  fireCallback_with (invoke cb) e combo w.

(** ** The dispatcher *)

(** [Math.max(maxLevel, callbacks[i].level)]. *)
Definition math_max (a : jsnum) (l : option nat) : jsnum :=
  match a, l with
  | Num x, Some y => Num (Nat.max x y)
  | _, _ => NaN
  end.

(** The first loop of [handleKey]. *)
Definition maxLevel_of (callbacks : list Binding.t) : jsnum :=
  foldl (fun ml b => if Binding.is_seq b then math_max ml (Binding.level b) else ml)
        (Num 0) callbacks.

(** [callbacks[i].level != maxLevel]. *)
Definition level_is_not (l : option nat) (maxLevel : jsnum) : bool :=
  match l, maxLevel with
  | Some n, Num x => negb (Nat.eqb n x)
  | _, _ => true
  end.

(** The order [_bindSingle] keeps in every array of [_callbacks]: sequence
    entries are put in front ([unshift]) and plain ones at the end ([push]),
    so no plain entry stands before a sequence entry. *)
Fixpoint seq_first (l : list Binding.t) : Prop :=
  match l with
  | [] => True
  | b :: r =>
      (Binding.is_seq b = false -> Forall (fun b' => Binding.is_seq b' = false) r)
      /\ seq_first r
  end.

(** What one run of [handleKey] did: the state reached, the entries it
    passed to [_fireCallback] (in order), the user functions called, and how
    it ended. *)
Record dispatched := Dispatched {
  final : world;
  fired : list Binding.t;
  called : list call;
  ended : completion
}.

(** The locals of the second loop of [handleKey]. *)
Record locals := Locals {
  doNotReset : gset string;
  processedSequenceCallback : bool
}.

(** The second loop of [handleKey], from entry [i] on. *)
Fixpoint handleKey_loop (e : key_event) (maxLevel : jsnum)
    (callbacks : list Binding.t) (w : world) (l : locals)
    : dispatched * locals :=
  match callbacks with
  | [] => (Dispatched w [] [] (Returned OtherValue), l)
  | b :: rest =>
      let fire (l' : locals) :=
        let r := _fireCallback (Binding.callback b) (Dom e) (Binding.combo b) w in
        match outcome r with
        | Raised _ => (Dispatched (after r) [b] (calls r) (outcome r), l')
        | Returned _ =>
            let '(d, l'') := handleKey_loop e maxLevel rest (after r) l' in
            (Dispatched (final d) (b :: fired d) (calls r ++ called d) (ended d), l'')
        end in
      if Binding.is_seq b then
        if level_is_not (Binding.level b) maxLevel
        then handleKey_loop e maxLevel rest w l
        else fire (Locals (doNotReset l ∪ {[default "" (Binding.seq b)]}) true)
      else if processedSequenceCallback l
           then handleKey_loop e maxLevel rest w l
           else fire l
  end.

(** [handleKey(character, modifiers, e)]. *)
Definition handleKey (character : string) (modifiers : list string)
    (e : key_event) (w : world) : dispatched :=
  let '(callbacks, _, m1) :=
    getMatches character modifiers (type_name (type e)) (metaKey e) (ctrlKey e)
               None None None (self w) in
  let w1 := with_self (fun _ => m1) w in
  let '(d, l) :=
    handleKey_loop e (maxLevel_of callbacks) callbacks w1 (Locals ∅ false) in
  match ended d with
  | Raised _ => d
  | Returned _ =>
      let m := self (final d) in
      let ignoreThisKeypress :=
        bool_decide (type e = keypress) && _ignoreNextKeypress m in
      let m2 :=
        if bool_decide (_nextExpectedAction m = Some (type_name (type e)))
           && negb (isModifier character) && negb ignoreThisKeypress
        then resetSequences (doNotReset l) m else m in
      let m3 :=
        set_ignoreNextKeypress
          (processedSequenceCallback l && bool_decide (type e = keydown)) m2 in
      Dispatched (with_self (fun _ => m3) (final d)) (fired d) (called d)
                 (Returned OtherValue)
  end.

(** [if (typeof e.which !== 'number') e.which = e.keyCode]. *)
Definition normalise (e : key_event) : key_event :=
  KeyEvent (type e) (match which e with Some n => Some n | None => keyCode e end)
           (keyCode e) (shiftKey e) (altKey e) (ctrlKey e) (metaKey e) (target e).

(** The code of the event, as [#handleKeyEvent] reads it, is one whose
    character the strings of the model hold: its code unit is below 256. *)
Definition in_range (e : key_event) : Prop :=
  (default 0 (which (normalise e)) mod 65536 < 256)%N.

Definition dropped (w : world) : dispatched :=
  Dispatched w [] [] (Returned OtherValue).

(** [#handleKeyEvent(e)], the listener of the three key events. *)
Definition handleKeyEvent (e : key_event) (w : world) : dispatched :=
  let e := normalise e in
  let character := characterFromEvent (classState w) (Dom e) in
  if negb (JsString.truthy character) then dropped w
  else if bool_decide (type e = keyup) &&
          bool_decide (_ignoreNextKeyup (self w) = Some character)
       then dropped (with_self (set_ignoreNextKeyup None) w)
       else handleKey character (eventModifiers e) e w.

(** ** Binding *)

Section Bind.
(** The two methods call each other; each is written over the other. *)
Variable bindSequence :
  string -> list string -> callback -> option string -> world -> world.

(** [_bindSingle(combination, callback, action, sequenceName, level)]. *)
Definition bindSingle_with (combination : string) (cb : callback)
    (action : option string) (sequenceName : option string)
    (level : option nat) (w : world) : world :=
  let w1 :=
    with_self (fun m =>
      set_directMap
        (<[combination +:+ ":" +:+ JsString.of_opt action := cb]> (_directMap m)) m)
      w in
  let combination := JsString.replace_spaces combination in
  let sequence := JsString.split " " combination in
  if Nat.ltb 1 (length sequence)
  then bindSequence combination sequence cb action w1
  else
    let '(info, s') := getKeyInfo (classState w1) combination action in
    let m := self w1 in
    let m1 :=
      set_callbacks
        (<[KeyInfo.key info := default [] (_callbacks m !! KeyInfo.key info)]>
           (_callbacks m)) m in
    let '(_, modifiers, m2) :=
      getMatches (KeyInfo.key info) (KeyInfo.modifiers info)
                 (KeyInfo.action info) false false sequenceName
                 (Some combination) level m1 in
    let entry :=
      Binding.Make cb modifiers (KeyInfo.action info) sequenceName level
                   combination in
    let arr := default [] (_callbacks m2 !! KeyInfo.key info) in
    let arr' :=
      if JsString.truthy_opt sequenceName then entry :: arr else arr ++ [entry] in
    World s'
          (set_callbacks (<[KeyInfo.key info := arr']> (_callbacks m2)) m2)
          (timers w1) (nextTimerId w1).

Variable bindSingle :
  string -> callback -> option string -> option string -> option nat ->
  world -> world.

(** The loop of [#bindSequence] from index [i] on. *)
Fixpoint bindSequence_loop (combo : string) (cb : callback)
    (action : option string) (i : nat) (keys : list string) (w : world)
    : world :=
  match keys with
  | [] => w
  | k :: rest =>
      let '(wrappedCallback, w1) :=
        match rest with
        | [] => (CallbackAndReset cb combo action, w)
        | next :: _ =>
            if JsString.truthy_opt action
            then (IncreaseSequence combo (JsString.of_opt action), w)
            else let '(info, s') := getKeyInfo (classState w) next None in
                 (IncreaseSequence combo (KeyInfo.action info),
                  with_classState s' w)
        end in
      bindSequence_loop combo cb action (S i) rest
        (bindSingle k wrappedCallback action (Some combo) (Some i) w1)
  end.

(** [#bindSequence(combo, keys, callback, action)]. *)
Definition bindSequence_with (combo : string) (keys : list string)
    (cb : callback) (action : option string) (w : world) : world :=
  let w1 :=
    with_self (fun m =>
      set_sequenceLevels (<[combo := Num 0]> (_sequenceLevels m)) m) w in
  bindSequence_loop combo cb action 0 keys w1.
End Bind.

(** The keys [#bindSequence] hands to [_bindSingle] hold no white space, so
    that call never reaches [#bindSequence] again ([bindSingle_of_key] below):
    the knot is tied after two turns. *)
Definition bindSingle_key :
    string -> callback -> option string -> option string -> option nat ->
    world -> world :=
  bindSingle_with (fun _ _ _ _ w => w).

Definition bindSequence :
    string -> list string -> callback -> option string -> world -> world :=
  bindSequence_with bindSingle_key.

Definition _bindSingle :
    string -> callback -> option string -> option string -> option nat ->
    world -> world :=
  bindSingle_with bindSequence.

(** [_bindMultiple(combinations, callback, action)]. *)
Definition _bindMultiple (combinations : list string) (cb : callback)
    (action : option string) (w : world) : world :=
  foldl (fun w c => _bindSingle c cb action None None w) w combinations.

(** The [keys] argument of [bind] and [unbind]: a string or an array. *)
Inductive keys_arg := Key (k : string) | Keys (l : list string).

(** [bind(keys, callback, action)]. *)
Definition bind (keys : keys_arg) (cb : callback) (action : option string)
    (w : world) : world :=
  _bindMultiple (match keys with Key k => [k] | Keys l => l end) cb action w.

(** [unbind(keys, action)]. *)
Definition unbind (keys : keys_arg) (action : option string) (w : world) : world :=
  bind keys EmptyFn action w.

(** [trigger(keys, action)]. *)
Definition trigger (keys : string) (action : option string) (w : world) : run :=
  match _directMap (self w) !! (keys +:+ ":" +:+ JsString.of_opt action) with
  | Some cb => invoke cb EmptyObject keys w
  | None => Run w [] (Returned OtherValue)
  end.

(** [reset()]. *)
Definition reset (m : mousetrap) : mousetrap :=
  set_directMap ∅ (set_callbacks ∅ m).

(** ** [#belongsTo] *)

(** A node as [#belongsTo] reads it: [null], the [document], or an element
    with its [parentNode].  An element is known by an identifier: two
    elements are the same object when they have the same identifier. *)
Inductive node := Null | Document | Elem (id : nat) (parentNode : node).

(** [a === b] on nodes. *)
Definition same_node (a b : node) : bool :=
  match a, b with
  | Null, Null => true
  | Document, Document => true
  | Elem i _, Elem j _ => Nat.eqb i j
  | _, _ => false
  end.

(** [#belongsTo(element, ancestor)]. *)
Fixpoint belongsTo (element ancestor : node) : bool :=
  match element with
  | Null => false
  | Document => false
  | Elem _ parentNode =>
      if same_node element ancestor then true else belongsTo parentNode ancestor
  end.

(** The identifiers of an element and of the elements above it. *)
Fixpoint chain (n : node) : list nat :=
  match n with
  | Null => []
  | Document => []
  | Elem i parentNode => i :: chain parentNode
  end.

(** ** Sample inputs used by the examples *)

Module Sample.
(** An element that is neither marked nor editable. *)
Definition body : element := Element "" None.

(** A key event with no modifier held, delivered to [body]. *)
Definition key (t : event_type) (code : N) : key_event :=
  KeyEvent t (Some code) (Some code) false false false false (Some body).

(** A plain entry of the registry. *)
Definition plain (cb : callback) (action combo : string) : Binding.t :=
  Binding.Make cb [] action None None combo.

(** [bind('return', f1, 'keydown'); bind('enter', f2, 'keydown')], [f1]
    returning [false]. *)
Definition two_enter_bindings : world :=
  bind (Key "enter") (UserFn 2 false) (Some "keydown")
    (bind (Key "return") (UserFn 1 true) (Some "keydown") (world0 false)).

(** [bind('g i', f1)]. *)
Definition g_i : world := bind (Key "g i") (UserFn 1 false) None (world0 false).

(** [bind('g i', f1); bind('g t', f2)]. *)
Definition g_i_and_g_t : world :=
  bind (Key "g t") (UserFn 2 false) None g_i.

(** [bind('g', f1); bind('g i', f9); bind('g', f2)]. *)
Definition g_rebound : world :=
  bind (Key "g") (UserFn 2 false) None
    (bind (Key "g i") (UserFn 9 false) None
       (bind (Key "g") (UserFn 1 false) None (world0 false))).

(** [bind('g', f1); bind('g', f2)]. *)
Definition g_twice : world :=
  bind (Key "g") (UserFn 2 false) None
    (bind (Key "g") (UserFn 1 false) None (world0 false)).

(** [bind('ctrl+s', f1, 'keydown')]. *)
Definition ctrl_s : world :=
  bind (Key "ctrl+s") (UserFn 1 false) (Some "keydown") (world0 false).
End Sample.

(** ** Definitions and tactics used by the proofs *)

(** Whether the string holds white space; whether the only white space it
    holds is the space character. *)
Fixpoint any_space (s : string) : bool :=
  match s with
  | EmptyString => false
  | String c r => JsString.is_space c || any_space r
  end.

Fixpoint only_plain_spaces (s : string) : bool :=
  match s with
  | EmptyString => true
  | String c r =>
      (negb (JsString.is_space c) || Ascii.eqb c " ") && only_plain_spaces r
  end.

(** What every array of [_callbacks] satisfies: sequence entries first, and
    modifiers that are modifier names. *)
Definition entry_ok (b : Binding.t) : Prop :=
  Forall (fun x => isModifier x = true) (Binding.modifiers b).

Definition array_ok (l : list Binding.t) : Prop :=
  seq_first l /\ Forall entry_ok l.

Definition registry_ok (m : mousetrap) : Prop :=
  forall k l, _callbacks m !! k = Some l -> array_ok l.

(** The calls an engine receives: its public methods, the key events its
    listeners are given, and the expiry of a timer.  When a call raises, the
    state is the one reached at that point. *)
Inductive operation :=
| OpBind (keys : keys_arg) (cb : callback) (action : option string)
| OpUnbind (keys : keys_arg) (action : option string)
| OpTrigger (keys : string) (action : option string)
| OpReset
| OpPause
| OpUnpause
| OpAddKeycodes (object : list (N * string))
| OpKeyEvent (e : key_event)
| OpExpire (id : nat).

Definition step (w : world) (o : operation) : world :=
  match o with
  | OpBind keys cb action => bind keys cb action w
  | OpUnbind keys action => unbind keys action w
  | OpTrigger keys action => after (trigger keys action w)
  | OpReset => with_self reset w
  | OpPause => with_self pause w
  | OpUnpause => with_self unpause w
  | OpAddKeycodes object => with_classState (addKeycodes object (classState w)) w
  | OpKeyEvent e => final (handleKeyEvent e w)
  | OpExpire id => (expire id w).1
  end.

(** The states of an engine after any calls, from a fresh instance. *)
Definition reachable (w : world) : Prop :=
  exists mac ops, w = foldl step (world0 mac) ops.

(** A name that [join] can be undone on: not empty and without a comma. *)
Definition joinable (x : string) : Prop := x <> "" /\ JsString.mem "," x = false.

(** The matches [handleKey] works on. *)
Definition matches_of (character : string) (modifiers : list string)
    (e : key_event) (w : world) : list Binding.t :=
  (getMatches character modifiers (type_name (type e)) (metaKey e) (ctrlKey e)
              None None None (self w)).1.1.

(** The only timer the engine ever starts: the 10ms one of a completed
    sequence, which holds nothing to call. *)
Definition inert_timer (t : timer) : Prop :=
  handler t = UndefinedProperty /\ delay t = 10%N.

(** What calling a callback can do to the state: it leaves the class, the
    registry, [mouseTrapEnabled], [_resetTimer] and [_ignoreNextKeypress]
    alone, and adds only inert timers. *)
Definition call_effect (w w' : world) : Prop :=
  classState w' = classState w
  /\ mouseTrapEnabled (self w') = mouseTrapEnabled (self w)
  /\ _callbacks (self w') = _callbacks (self w)
  /\ _directMap (self w') = _directMap (self w)
  /\ _resetTimer (self w') = _resetTimer (self w)
  /\ _ignoreNextKeypress (self w') = _ignoreNextKeypress (self w)
  /\ exists added, timers w' = timers w ++ added /\ Forall inert_timer added.

(** An entry, or the same entry with its modifiers sorted. *)
Definition same_entry (a b : Binding.t) : Prop :=
  b = a \/ b = Binding.sorted a.

(** The registry of [m'] holds the entries of the registry of [m], in the
    same arrays and order, up to the order of their modifiers. *)
Definition same_registry (m m' : mousetrap) : Prop :=
  forall k, option_Forall2 (Forall2 same_entry)
                           (_callbacks m !! k) (_callbacks m' !! k).

(** What binding can do outside the registry and the table of [trigger]:
    nothing to the flags, the timers and the key table of the class; a
    sequence level is left alone or put to 0; the class is left alone when
    the reverse map is cached. *)
Definition bind_effect (w w' : world) : Prop :=
  mouseTrapEnabled (self w') = mouseTrapEnabled (self w)
  /\ _resetTimer (self w') = _resetTimer (self w)
  /\ _ignoreNextKeyup (self w') = _ignoreNextKeyup (self w)
  /\ _ignoreNextKeypress (self w') = _ignoreNextKeypress (self w)
  /\ _nextExpectedAction (self w') = _nextExpectedAction (self w)
  /\ timers w' = timers w
  /\ nextTimerId w' = nextTimerId w
  /\ _MAP (classState w') = _MAP (classState w)
  /\ platformIsMac (classState w') = platformIsMac (classState w)
  /\ (forall c, _sequenceLevels (self w') !! c = _sequenceLevels (self w) !! c
                \/ _sequenceLevels (self w') !! c = Some (Num 0))
  /\ (forall r, _REVERSE_MAP (classState w) = Some r -> classState w' = classState w).


(** No one-second timer is armed, and every pending timer is inert. *)
Definition timers_inert (w : world) : Prop :=
  _resetTimer (self w) = None /\ Forall inert_timer (timers w).

(** Every entry of the registry satisfies [P]. *)
Definition registry_all (P : Binding.t -> Prop) (m : mousetrap) : Prop :=
  forall k l, _callbacks m !! k = Some l -> Forall P l.

(** An entry that listens to keypress has no modifiers. *)
Definition keypress_plain (b : Binding.t) : Prop :=
  Binding.action b = "keypress" -> Binding.modifiers b = [].

(** Two static states that parse alike: the same key table and platform,
    and the same reverse map when it is asked for. *)
Definition same_parse (s s' : statics) : Prop :=
  _MAP s' = _MAP s /\ platformIsMac s' = platformIsMac s
  /\ (getReverseMap s').1 = (getReverseMap s).1.


(** A string literal is not in a list of other literals. *)
Ltac not_in_literals :=
  let H := fresh in
  intros H;
  repeat (apply elem_of_cons in H as [H|H]; [discriminate H|]);
  by apply elem_of_nil in H.

(** Instantiate a fact [F w l] about the loop at the run that [E] names. *)
Ltac at_run F E H :=
  match type of E with
  | handleKey_loop _ _ _ ?w ?l = _ =>
      pose proof (F w l) as H; rewrite E in H; cbn [fst] in H
  end.

(** * Properties *)

(** ** Dispatch: the tie-break of [handleKey] *)

(** No entry is registered under a key the registry does not hold. *)
Lemma getMatches_no_entries character modifiers action mk ck sn cn lv m :
  _callbacks m !! character = None ->
  getMatches character modifiers action mk ck sn cn lv m = ([], modifiers, m).
Proof. intros H. unfold getMatches. by rewrite H. Qed.

(** ** Sequences: advancing and the inactivity timer *)


(** The same [TypeError] keeps two sequences with a common first key from
    advancing together: the keypress of [g] passes the entry of ['g t'] to
    [_fireCallback], the wrapper raises, and the entry of ['g i'], at the same
    level, is not reached. *)
Example shared_first_key_advances_one :
  let d := handleKeyEvent (Sample.key keypress 103) Sample.g_i_and_g_t in
  map Binding.seq (matches_of "g" [] (Sample.key keypress 103) Sample.g_i_and_g_t)
    = [Some "g t"; Some "g i"]
  /\ map Binding.seq (fired d) = [Some "g t"]
  /\ _sequenceLevels (self (final d)) !! "g t" = Some (Num 1)
  /\ _sequenceLevels (self (final d)) !! "g i" = Some (Num 0).
Proof. vm_compute. repeat split; reflexivity. Qed.

(** ** The registry: [reset] and rebinding *)

(** With no entry under the character, [handleKey] fires nothing. *)
Lemma handleKey_no_entries character modifiers e w :
  _callbacks (self w) !! character = None ->
  fired (handleKey character modifiers e w) = [] /\
  called (handleKey character modifiers e w) = [].
Proof.
  intros H. unfold handleKey. rewrite getMatches_no_entries by done. cbn. done.
Qed.

(** After [reset] no dispatch and no [trigger] reaches a callback. *)
Lemma reset_fires_nothing w :
  (forall e, fired (handleKeyEvent e (with_self reset w)) = [] /\
             called (handleKeyEvent e (with_self reset w)) = [])
  /\ (forall keys action, calls (trigger keys action (with_self reset w)) = []).
Proof.
  split.
  - intros e. unfold handleKeyEvent.
    repeat case_match; try done;
      apply handleKey_no_entries; cbn; apply lookup_empty.
  - intros keys action. unfold trigger. cbn. by rewrite lookup_empty.
Qed.

(** C3 (code defect).  Claim: after [reset()] the engine holds no bindings
    and all sequence progress is cleared (every level 0, no next action
    expected).  [reset] empties [_callbacks] and [_directMap], so nothing
    fires afterwards, but it leaves [_sequenceLevels] and
    [_nextExpectedAction] as they were, although its comment promises the
    initial state: after [bind('g i', f)] and a keypress of [g], [reset()]
    leaves the level of ['g i'] at 1 and ['keypress'] expected. *)
Theorem C3_reset_keeps_sequence_progress :
  (forall m,
      _callbacks (reset m) = ∅ /\ _directMap (reset m) = ∅
      /\ _sequenceLevels (reset m) = _sequenceLevels m
      /\ _nextExpectedAction (reset m) = _nextExpectedAction m)
  /\ (let d := handleKeyEvent (Sample.key keypress 103) Sample.g_i in
      let m := reset (self (final d)) in
      _sequenceLevels m !! "g i" = Some (Num 1)
      /\ _nextExpectedAction m = Some "keypress"
      /\ _sequenceLevels mousetrap0 !! "g i" = None
      /\ _nextExpectedAction mousetrap0 = None).
Proof.
  split.
  - intros m. by cbn.
  - vm_compute. repeat split; reflexivity.
Qed.

(** Rebinding a combination that nothing else shares replaces its entry. *)
Example rebinding_alone_replaces :
  _callbacks (self Sample.g_twice) !! "g" =
    Some [Sample.plain (UserFn 2 false) "keypress" "g"]
  /\ called (handleKeyEvent (Sample.key keypress 103) Sample.g_twice) = [(2, "g")]
  /\ calls (trigger "g" None Sample.g_twice) = [(2, "g")].
Proof. vm_compute. repeat split; reflexivity. Qed.

(** C4 (code defect).  Claim: binding a (combo, action) pair a second time
    first removes the prior binding of that identity, so that one binding
    remains and a dispatch calls only the new callback.  After
    [bind('g', f1); bind('g i', f9); bind('g', f2)] the array of [g] holds the
    first entry of the sequence and then the entry of [f1].  The loop of
    [#getMatches] removes the sequence entry (its [combo] is ['g'] too) with
    [splice(i, 1)] and still advances [i], so the entry of [f1] is never
    examined: both plain entries remain and a keypress of [g] calls [f1] and
    [f2]. *)
Theorem C4_rebinding_keeps_old_entry_after_splice :
  let before :=
    bind (Key "g i") (UserFn 9 false) None
      (bind (Key "g") (UserFn 1 false) None (world0 false)) in
  let w := Sample.g_rebound in
  _callbacks (self before) !! "g" =
    Some [Binding.Make (IncreaseSequence "g i" "keypress") [] "keypress"
                       (Some "g i") (Some 0) "g";
          Sample.plain (UserFn 1 false) "keypress" "g"]
  /\ _callbacks (self w) !! "g" =
       Some [Sample.plain (UserFn 1 false) "keypress" "g";
             Sample.plain (UserFn 2 false) "keypress" "g"]
  /\ called (handleKeyEvent (Sample.key keypress 103) w) = [(1, "g"); (2, "g")]
  /\ ended (handleKeyEvent (Sample.key keypress 103) w) = Returned OtherValue.
Proof. vm_compute. repeat split; reflexivity. Qed.

(** ** The combination parser *)

Lemma last_cons_default {A} (l : list A) (x d d' : A) :
  List.last (x :: l) d = List.last (x :: l) d'.
Proof.
  revert x. induction l as [|y l IH]; intros x; [done|].
  change (List.last (y :: l) d = List.last (y :: l) d'). apply IH.
Qed.

Section Parser.
Variables (mac : bool) (action : option string).

Lemma getKeyInfo_step_split k ms token :
  getKeyInfo_step mac action (k, ms) token =
    (token_key mac action token, ms ++ token_modifiers mac action token).
Proof.
  unfold token_key, token_modifiers, getKeyInfo_step. cbn.
  destruct (shift_hit action (resolve_alias mac token)) as [b|]; cbn;
    case_match; cbn; by rewrite <- ?app_assoc, ?app_nil_r.
Qed.

(** The loop of [#getKeyInfo] in closed form. *)
Lemma getKeyInfo_loop tokens k ms :
  foldl (getKeyInfo_step mac action) (k, ms) tokens =
    (List.last (map (token_key mac action) tokens) k,
     ms ++ concat (map (token_modifiers mac action) tokens)).
Proof.
  revert k ms. induction tokens as [|t tokens IH]; intros k ms; cbn.
  - by rewrite app_nil_r.
  - rewrite getKeyInfo_step_split, IH, <- app_assoc. f_equal.
    destruct tokens as [|u tokens]; [reflexivity|].
    cbn [map]. apply last_cons_default.
Qed.

Lemma truthy_nonempty x : JsString.truthy x = true -> x <> "".
Proof. by intros H ->. Qed.

Lemma resolve_alias_nonempty token : token <> "" -> resolve_alias mac token <> "".
Proof.
  intros Hne. unfold resolve_alias.
  destruct (_SPECIAL_ALIASES mac !! token) as [a|]; [|done].
  destruct (JsString.truthy a) eqn:E; [by apply truthy_nonempty|done].
Qed.

Lemma shift_hit_nonempty k b : shift_hit action k = Some b -> b <> "".
Proof.
  unfold shift_hit. destruct (shift_applies action); [|done].
  destruct (_SHIFT_MAP !! k) as [c|]; [|done].
  destruct (JsString.truthy c) eqn:E; [|done].
  intros [= <-]. by apply truthy_nonempty.
Qed.

Lemma token_key_nonempty token : token <> "" -> token_key mac action token <> "".
Proof.
  intros Hne. unfold token_key, getKeyInfo_step. cbn [snd].
  destruct (shift_hit action (resolve_alias mac token)) as [b|] eqn:E; cbn.
  - by eapply shift_hit_nonempty.
  - by apply resolve_alias_nonempty.
Qed.

Lemma token_modifiers_are_modifiers token :
  Forall (fun m => isModifier m = true) (token_modifiers mac action token).
Proof.
  unfold token_modifiers, getKeyInfo_step. cbn.
  destruct (shift_hit action (resolve_alias mac token)) as [b|]; cbn;
    case_match; repeat constructor; done.
Qed.

End Parser.

Lemma getKeyInfo_fields s combination action :
  let d := (getKeyInfo s combination action).1 in
  let tokens := keysFromString combination in
  KeyInfo.key d = List.last (map (token_key (platformIsMac s) action) tokens) ""
  /\ KeyInfo.modifiers d =
       concat (map (token_modifiers (platformIsMac s) action) tokens)
  /\ KeyInfo.action d = (pickBestAction s (KeyInfo.key d) (KeyInfo.modifiers d) action).1.
Proof.
  unfold getKeyInfo. rewrite getKeyInfo_loop. cbn.
  destruct (pickBestAction _ _ _ _) as [a s'] eqn:E. cbn. by rewrite E.
Qed.

(** The modifiers of a parsed combination are modifier names. *)
Lemma getKeyInfo_modifiers_are_modifiers s combination action :
  Forall (fun m => isModifier m = true)
         (KeyInfo.modifiers (getKeyInfo s combination action).1).
Proof.
  destruct (getKeyInfo_fields s combination action) as (_ & -> & _).
  induction (keysFromString combination) as [|t l IH]; cbn; [constructor|].
  apply Forall_app. split; [apply token_modifiers_are_modifiers|apply IH].
Qed.

Lemma last_map_nonempty {A} (f : A -> string) (l : list A) (d : A) :
  l <> [] -> List.last (map f l) "" = f (List.last l d).
Proof.
  induction l as [|x l IH]; [done|]. intros _.
  destruct l as [|y l]; [done|]. cbn in *. apply IH. done.
Qed.

Lemma keysFromString_nonempty combination : keysFromString combination <> [].
Proof.
  unfold keysFromString. case_match; [done|].
  destruct (JsString.replace_plus_plus combination) as [|c r]; cbn; [done|].
  repeat case_match; done.
Qed.

(** C6, counterexample.  The empty combination parses to the empty key, and
    a combination that names a modifier twice keeps both entries. *)
Lemma C6_counterexample :
  KeyInfo.key (getKeyInfo (statics0 false) "" None).1 = ""
  /\ KeyInfo.key (getKeyInfo (statics0 false) "ctrl+" None).1 = ""
  /\ KeyInfo.modifiers (getKeyInfo (statics0 false) "shift+shift+a" None).1
       = ["shift"; "shift"]
  /\ KeyInfo.modifiers (getKeyInfo (statics0 false) "shift+?" (Some "keydown")).1
       = ["shift"; "shift"]
  /\ ~ NoDup (KeyInfo.modifiers (getKeyInfo (statics0 false) "shift+shift+a" None).1).
Proof.
  repeat split; try (vm_compute; reflexivity).
  intros H. vm_compute in H. apply NoDup_cons in H as [H _]. apply H. left.
Qed.

(** The base keys of the shift table are no modifier names. *)
Lemma shift_hit_not_modifier action k b :
  shift_hit action k = Some b -> isModifier b = false.
Proof.
  unfold shift_hit. destruct (shift_applies action); [|done].
  destruct (_SHIFT_MAP !! k) as [c|] eqn:E; [|done].
  destruct (JsString.truthy c); [|done]. intros [= <-].
  apply elem_of_list_to_map_2 in E. unfold shift_entries in E.
  repeat (apply elem_of_cons in E as [E|E];
          [injection E as -> ->; reflexivity|]).
  by apply elem_of_nil in E.
Qed.

(** What one token pushes on [modifiers]: [shift] when the shift table
    replaces it, itself when it names a modifier, nothing otherwise. *)
Lemma token_modifiers_cases mac action token :
  token_modifiers mac action token =
    match shift_hit action (resolve_alias mac token) with
    | Some _ => ["shift"]
    | None => if isModifier (resolve_alias mac token)
              then [resolve_alias mac token] else []
    end.
Proof.
  unfold token_modifiers, getKeyInfo_step. cbn.
  destruct (shift_hit action (resolve_alias mac token)) as [b|] eqn:E; cbn.
  - by rewrite (shift_hit_not_modifier _ _ _ E).
  - by destruct (isModifier _).
Qed.

Lemma unshifted_modifiers mac action tokens :
  Forall (unshifted mac action) tokens ->
  concat (map (token_modifiers mac action) tokens) =
  List.filter isModifier (map (resolve_alias mac) tokens).
Proof.
  induction 1 as [|t l Ht _ IH]; [done|]. cbn.
  rewrite token_modifiers_cases, Ht, IH. by destruct (isModifier _).
Qed.

(** C6, as amended.  The key of a parsed combination is not empty when the
    last of its [+]-separated tokens is not empty; every entry of its
    modifiers is one of [shift], [ctrl], [alt], [meta]; the modifiers hold,
    in the order of the tokens, one [shift] for each token that the shift
    table replaces and the name of each other token that names a modifier
    once its alias is resolved; so they hold no duplicate when no token is
    replaced through the shift table and the tokens that name modifiers are
    pairwise distinct. *)
Theorem C6_key_and_modifiers_of_parse s combination action :
  let d := (getKeyInfo s combination action).1 in
  let tokens := keysFromString combination in
  let resolved := map (resolve_alias (platformIsMac s)) tokens in
  (List.last tokens "" <> "" -> KeyInfo.key d <> "")
  /\ Forall (fun m => isModifier m = true) (KeyInfo.modifiers d)
  /\ KeyInfo.modifiers d =
       concat (map (fun k => match shift_hit action k with
                             | Some _ => ["shift"]
                             | None => if isModifier k then [k] else []
                             end) resolved)
  /\ (Forall (unshifted (platformIsMac s) action) tokens ->
      NoDup (List.filter isModifier resolved) ->
      NoDup (KeyInfo.modifiers d)).
Proof.
  cbn. split; [|split; [|split]].
  - intros Hlast.
    destruct (getKeyInfo_fields s combination action) as (-> & _).
    rewrite (last_map_nonempty _ _ "") by apply keysFromString_nonempty.
    by apply token_key_nonempty.
  - apply getKeyInfo_modifiers_are_modifiers.
  - destruct (getKeyInfo_fields s combination action) as (_ & -> & _).
    induction (keysFromString combination) as [|t l IH]; [done|]. cbn.
    by rewrite token_modifiers_cases, IH.
  - intros Hun Hnd.
    destruct (getKeyInfo_fields s combination action) as (_ & -> & _).
    by rewrite unshifted_modifiers.
Qed.

(** Combinations the amended statement speaks about: one with aliases and
    no action, and one on keydown, where the shift table is consulted and
    replaces no token. *)
Lemma C6_key_and_modifiers_of_parse_witness :
  (let d := (getKeyInfo (statics0 false) "mod+shift+k" None).1 in
   List.last (keysFromString "mod+shift+k") "" <> ""
   /\ Forall (unshifted false None) (keysFromString "mod+shift+k")
   /\ KeyInfo.key d <> "" /\ NoDup (KeyInfo.modifiers d)
   /\ d = KeyInfo.Make "k" ["ctrl"; "shift"] "keydown")
  /\ (let d := (getKeyInfo (statics0 false) "ctrl+s" (Some "keydown")).1 in
      Forall (unshifted false (Some "keydown")) (keysFromString "ctrl+s")
      /\ NoDup (KeyInfo.modifiers d)
      /\ d = KeyInfo.Make "s" ["ctrl"] "keydown").
Proof.
  assert (Hnd : forall l : list string,
             (forall x, bool_decide (NoDup l) = true) -> NoDup l)
    by (intros l H; exact (bool_decide_eq_true_1 _ (H ""))).
  split.
  - pose proof (C6_key_and_modifiers_of_parse (statics0 false) "mod+shift+k" None)
      as (Hkey & _ & _ & Hdup).
    assert (H1 : List.last (keysFromString "mod+shift+k") "" <> "")
      by (vm_compute; discriminate).
    assert (H2 : Forall (unshifted false None) (keysFromString "mod+shift+k"))
      by (vm_compute; repeat constructor).
    refine (conj H1 (conj H2 (conj (Hkey H1) (conj (Hdup H2 _) _)))).
    + apply Hnd. intros _. vm_compute. reflexivity.
    + vm_compute. reflexivity.
  - pose proof (C6_key_and_modifiers_of_parse (statics0 false) "ctrl+s"
                  (Some "keydown")) as (_ & _ & _ & Hdup).
    assert (H2 : Forall (unshifted false (Some "keydown")) (keysFromString "ctrl+s"))
      by (vm_compute; repeat constructor).
    refine (conj H2 (conj (Hdup H2 _) _)).
    + apply Hnd. intros _. vm_compute. reflexivity.
    + vm_compute. reflexivity.
Defined.

(** *** Tokens without a separator, aliases, and re-parsing *)

Lemma mem_cons_false c d r :
  JsString.mem c (String d r) = false ->
  Ascii.eqb d c = false /\ JsString.mem c r = false.
Proof. cbn. by intros [? ?]%orb_false_iff. Qed.

Lemma replace_plus_plus_none s :
  JsString.mem "+" s = false -> JsString.replace_plus_plus s = s.
Proof.
  induction s as [|c r IH]; [done|].
  intros [Hc Hr]%mem_cons_false. cbn. rewrite Hc. by rewrite IH.
Qed.

Lemma split_none sep s :
  JsString.mem sep s = false -> JsString.split sep s = [s].
Proof.
  induction s as [|c r IH]; [done|].
  intros [Hc Hr]%mem_cons_false. cbn. rewrite Hc. by rewrite IH.
Qed.

Lemma keysFromString_single token :
  JsString.mem "+" token = false -> keysFromString token = [token].
Proof.
  intros H. unfold keysFromString.
  destruct (String.eqb token "+") eqn:E.
  - apply String.eqb_eq in E. by subst.
  - by rewrite replace_plus_plus_none, split_none.
Qed.





(** [#getReverseMap] answers the same once it has cached its answer, and
    parsing leaves the platform test alone. *)
Lemma getReverseMap_again s :
  getReverseMap (getReverseMap s).2 = getReverseMap s.
Proof. unfold getReverseMap. destruct (_REVERSE_MAP s) eqn:E; cbn; by rewrite ?E. Qed.

Lemma pickBestAction_again s k ms action :
  pickBestAction (pickBestAction s k ms action).2 k ms action =
  pickBestAction s k ms action.
Proof.
  unfold pickBestAction.
  destruct action as [a|]; [destruct (JsString.truthy a) eqn:Ha|]; cbn;
    rewrite ?Ha; try done;
    pose proof (getReverseMap_again s) as H;
    destruct (getReverseMap s) as [r s'] eqn:E; cbn in *; by rewrite H.
Qed.

Lemma pickBestAction_platform s k ms action :
  platformIsMac (pickBestAction s k ms action).2 = platformIsMac s.
Proof.
  unfold pickBestAction, getReverseMap.
  destruct action as [a|]; [destruct (JsString.truthy a)|]; cbn; try done;
    by destruct (_REVERSE_MAP s).
Qed.








(** *** The bare plus sign *)

Lemma pickBestAction_explicit s k ms action :
  shift_applies action = true ->
  pickBestAction s k ms action = (JsString.of_opt action, s).
Proof.
  unfold shift_applies, pickBestAction.
  destruct action as [a|]; [|done]. cbn.
  intros [Ha Hkp]%andb_true_iff. rewrite Ha.
  destruct (String.eqb a "keypress") eqn:E; [|done].
  apply String.eqb_eq in E. subst. done.
Qed.

(** C10, counterexample.  With the action ['keydown'] the bare plus sign
    parses to the key [=] with the modifier [shift]. *)
Lemma C10_counterexample :
  (getKeyInfo (statics0 false) "+" (Some "keydown")).1
    = KeyInfo.Make "=" ["shift"] "keydown"
  /\ KeyInfo.key (getKeyInfo (statics0 false) "+" (Some "keydown")).1 <> "+"
  /\ KeyInfo.modifiers (getKeyInfo (statics0 false) "+" (Some "keydown")).1 <> [].
Proof. vm_compute. repeat split; discriminate. Qed.

(** C10, as amended.  The combination ["+"] is one token, the plus sign.
    With no action, or with ['keypress'], it parses to the key [+] with no
    modifier; with any other action the shift table replaces it by the key
    [=] with the modifier [shift].  The key is never empty. *)
Theorem C10_parse_of_bare_plus s action :
  keysFromString "+" = ["+"]
  /\ (getKeyInfo s "+" action).1 =
       (if shift_applies action
        then KeyInfo.Make "=" ["shift"] (JsString.of_opt action)
        else KeyInfo.Make "+" [] (pickBestAction s "+" [] action).1)
  /\ KeyInfo.key (getKeyInfo s "+" action).1 <> "".
Proof.
  assert (Halias : resolve_alias (platformIsMac s) "+" = "+")
    by (destruct (platformIsMac s); vm_compute; reflexivity).
  assert (H : (getKeyInfo s "+" action).1 =
       (if shift_applies action
        then KeyInfo.Make "=" ["shift"] (JsString.of_opt action)
        else KeyInfo.Make "+" [] (pickBestAction s "+" [] action).1)).
  { unfold getKeyInfo. change (keysFromString "+") with ["+"]. cbn [foldl].
    unfold getKeyInfo_step. rewrite Halias. unfold shift_hit.
    destruct (shift_applies action) eqn:E.
    - change (_SHIFT_MAP !! "+") with (Some "="). cbn.
      by rewrite pickBestAction_explicit.
    - cbn. by destruct (pickBestAction s "+" [] action). }
  split; [reflexivity|]. split; [exact H|].
  rewrite H. by destruct (shift_applies action).
Qed.

(** ** Suppression: [stopCallback], [pause], [unpause] *)

(** *** The class test reads the list of classes *)

Lemma append_nil_l s : "" +:+ s = s.
Proof. reflexivity. Qed.

Lemma append_cons c s t : String c s +:+ t = String c (s +:+ t).
Proof. reflexivity. Qed.






(** [split] cuts a string into the tokens between its separators. *)
Lemma split_shape sep s :
  exists h tl, JsString.split sep s = h :: tl
    /\ JsString.mem sep h = false
    /\ match tl with
       | [] => s = h
       | _ :: _ => exists r, s = h +:+ String sep r /\ JsString.split sep r = tl
       end.
Proof.
  induction s as [|c s (h & tl & Hsplit & Hh & Htl)]; [by exists "", []|].
  cbn. destruct (Ascii.eqb c sep) eqn:E.
  - apply Ascii.eqb_eq in E as ->. exists "", (h :: tl).
    split; [by rewrite Hsplit|]. split; [done|]. by exists s.
  - rewrite Hsplit. exists (String c h), tl. split; [done|].
    split; [cbn; by rewrite E, Hh|].
    destruct tl; [by subst|].
    destruct Htl as (r & -> & Hr). by exists r.
Qed.






(** *** The classes of an element *)










(** *** While paused nothing is called *)








(** ** Dropped events: [#handleKeyEvent] *)


Lemma toLowerCase_fromCharCode_nonempty n :
  JsString.toLowerCase (JsString.fromCharCode n) <> "".
Proof. done. Qed.


(** ** Matching: action and modifiers *)

(** *** Sorting and joining modifier names *)

Lemma insert_sorted_perm x l : JsString.insert_sorted x l ≡ₚ x :: l.
Proof.
  induction l as [|y l IH]; cbn; [done|].
  destruct (String.leb x y); [done|]. rewrite IH. apply Permutation_swap.
Qed.

Lemma sort_perm l : JsString.sort l ≡ₚ l.
Proof.
  induction l as [|x l IH]; cbn; [done|].
  rewrite insert_sorted_perm. by rewrite IH.
Qed.

Lemma isModifier_cases x :
  isModifier x = true -> x ∈ ["shift"; "ctrl"; "alt"; "meta"].
Proof.
  unfold isModifier. rewrite !orb_true_iff, !String.eqb_eq.
  intros [[[-> | ->] | ->] | ->]; repeat constructor.
Qed.

Lemma isModifier_joinable x : isModifier x = true -> joinable x.
Proof.
  intros H%isModifier_cases.
  repeat (apply elem_of_cons in H as [->|H]; [by split|]).
  by apply elem_of_nil in H.
Qed.

Lemma comma_cut x y a b :
  JsString.mem "," x = false -> JsString.mem "," y = false ->
  x +:+ String "," a = y +:+ String "," b -> x = y /\ a = b.
Proof.
  revert y. induction x as [|c x IH]; intros [|d y] Hx Hy; rewrite ?append_cons, ?append_nil_l; intros H.
  - by simplify_eq.
  - by simplify_eq.
  - by simplify_eq.
  - injection H as -> H.
    apply mem_cons_false in Hx as [_ Hx]. apply mem_cons_false in Hy as [_ Hy].
    destruct (IH y Hx Hy H) as [-> ->]. done.
Qed.

Lemma comma_inside y b : JsString.mem "," (y +:+ String "," b) = true.
Proof.
  induction y as [|d y IH]; rewrite ?append_cons, ?append_nil_l; cbn; [done|]. rewrite IH. apply orb_true_r.
Qed.

Lemma join_two x y r :
  JsString.join "," (x :: y :: r) = x +:+ String "," (JsString.join "," (y :: r)).
Proof. reflexivity. Qed.

Lemma join_comma_inj l1 l2 :
  Forall joinable l1 -> Forall joinable l2 ->
  JsString.join "," l1 = JsString.join "," l2 -> l1 = l2.
Proof.
  revert l2. induction l1 as [|x l1 IH]; intros [|y l2] H1 H2 H; [done| | |].
  - apply Forall_cons in H2 as [[Hy _] _].
    destruct l2; [by cbn in H|]. rewrite join_two in H.
    destruct y; [done|discriminate H].
  - apply Forall_cons in H1 as [[Hx _] _].
    destruct l1; [by cbn in H|]. rewrite join_two in H.
    destruct x; [done|discriminate H].
  - apply Forall_cons in H1 as [[_ Hx] H1].
    apply Forall_cons in H2 as [[_ Hy] H2].
    destruct l1 as [|x2 l1], l2 as [|y2 l2].
    + cbn in H. by subst.
    + rewrite join_two in H. cbn [JsString.join] in H. subst x.
      by rewrite comma_inside in Hx.
    + rewrite join_two in H. cbn [JsString.join] in H. subst y.
      by rewrite comma_inside in Hy.
    + rewrite !join_two in H.
      destruct (comma_cut _ _ _ _ Hx Hy H) as [-> Hrest].
      f_equal. by apply IH.
Qed.

(** [#modifiersMatch] on modifier names: equal up to order. *)
Lemma modifiersMatch_perm a b :
  Forall (fun x => isModifier x = true) a ->
  Forall (fun x => isModifier x = true) b ->
  modifiersMatch a b = true -> a ≡ₚ b.
Proof.
  intros Ha Hb H. unfold modifiersMatch in H. apply String.eqb_eq in H.
  apply join_comma_inj in H.
  - rewrite <- (sort_perm a), <- (sort_perm b). by rewrite H.
  - rewrite sort_perm. eapply Forall_impl; [exact Ha|]. apply isModifier_joinable.
  - rewrite sort_perm. eapply Forall_impl; [exact Hb|]. apply isModifier_joinable.
Qed.

Lemma eventModifiers_are_modifiers e :
  Forall (fun x => isModifier x = true) (eventModifiers e).
Proof.
  unfold eventModifiers.
  destruct (shiftKey e), (altKey e), (ctrlKey e), (metaKey e); cbn;
    repeat constructor.
Qed.

Lemma event_modifier_set_are_modifiers character e :
  Forall (fun x => isModifier x = true) (event_modifier_set character e).
Proof.
  unfold event_modifier_set.
  destruct (bool_decide (type e = keyup)); cbn;
    [|apply eventModifiers_are_modifiers].
  destruct (isModifier character) eqn:E;
    [by repeat constructor|apply eventModifiers_are_modifiers].
Qed.

Lemma type_name_inj t1 t2 : type_name t1 = type_name t2 -> t1 = t2.
Proof. by destruct t1, t2. Qed.

(** *** The loop of [#getMatches] when it is called by [handleKey] *)

Section Dispatch.
Variables (modifiers : list string) (action : string) (metaKey ctrlKey : bool)
          (levels : gmap string jsnum).

Abbreviation examine_d := (examine modifiers action metaKey ctrlKey None levels).
Abbreviation loop_d :=
  (getMatches_loop modifiers action metaKey ctrlKey None None None levels).

Lemma deletes_dispatch b : deletes None None None b = false.
Proof. unfold deletes. cbn. by rewrite bool_decide_eq_false_2. Qed.

(** Nothing is spliced: the matches are the entries that pass the tests, in
    the order of the array. *)
Lemma loop_dispatch_matches entries b :
  b ∈ (loop_d entries).1.2 <->
  exists b0, b0 ∈ entries /\ (examine_d b0).1 = (b, true).
Proof.
  induction entries as [|b1 rest IH]; cbn [getMatches_loop].
  - cbn. split; [by intros ?%elem_of_nil|by intros (? & ?%elem_of_nil & _)].
  - destruct (examine_d b1) as [[b' matched] ran] eqn:E.
    destruct (loop_d rest) as [[arr ms] ran'] eqn:Eloop. cbn in IH.
    destruct matched; rewrite ?deletes_dispatch; cbn.
    + rewrite elem_of_cons, IH. split.
      * intros [->|(b0 & Hin & Hex)].
        -- exists b1. split; [left|by rewrite E].
        -- exists b0. split; [by right|done].
      * intros (b0 & [->|Hin]%elem_of_cons & Hex).
        -- rewrite E in Hex. cbn in Hex. left. congruence.
        -- right. by exists b0.
    + rewrite IH. split.
      * intros (b0 & Hin & Hex). exists b0. split; [by right|done].
      * intros (b0 & [->|Hin]%elem_of_cons & Hex).
        -- rewrite E in Hex. cbn in Hex. congruence.
        -- by exists b0.
Qed.

(** What the tests of the loop say about a match. *)
Lemma examine_match b0 b :
  (examine_d b0).1 = (b, true) ->
  Binding.action b0 = action
  /\ ((action = "keypress" /\ metaKey = false /\ ctrlKey = false /\ b = b0)
      \/ (b = Binding.sorted b0
          /\ modifiersMatch modifiers (Binding.modifiers b0) = true)).
Proof.
  unfold examine. cbn [JsString.truthy_opt negb andb].
  destruct (Binding.is_seq b0 && level_differs _ _); [done|].
  destruct (String.eqb action (Binding.action b0)) eqn:Ea; [|done].
  apply String.eqb_eq in Ea. cbn [negb].
  destruct (String.eqb action "keypress" && negb metaKey && negb ctrlKey) eqn:Ek.
  - intros [= <-]. split; [done|]. left.
    apply andb_true_iff in Ek as [[Ek Hm]%andb_true_iff Hc].
    apply String.eqb_eq in Ek. by destruct metaKey, ctrlKey.
  - cbn. intros [= <- H]. split; [done|]. by right.
Qed.
End Dispatch.

Lemma getMatches_dispatch_matches character modifiers e m entries :
  _callbacks m !! character = Some entries ->
  (getMatches character modifiers (type_name (type e)) (metaKey e) (ctrlKey e)
              None None None m).1.1 =
  (getMatches_loop
     (if bool_decide (type e = keyup) && isModifier character then [character]
      else modifiers)
     (type_name (type e)) (metaKey e) (ctrlKey e) None None None
     (_sequenceLevels m) entries).1.2.
Proof.
  intros H. unfold getMatches. rewrite H.
  replace (bool_decide (type_name (type e) = "keyup"))
    with (bool_decide (type e = keyup))
    by (apply bool_decide_ext; split; [by intros ->|apply (type_name_inj _ keyup)]).
  by destruct (getMatches_loop _ _ _ _ _ _ _ _ _) as [[? ?] ?].
Qed.


(** ** The tie-break of [handleKey], in general *)

Section TieBreak.
Variables (e : key_event) (maxLevel : jsnum).

(** Every entry the loop passes to [_fireCallback] is one of the matches; a
    sequence entry among them is at the maximum level, and a plain entry is
    passed only while no sequence entry has been. *)
Lemma handleKey_loop_fired callbacks w l b :
  b ∈ fired (handleKey_loop e maxLevel callbacks w l).1 ->
  b ∈ callbacks
  /\ (Binding.is_seq b = true -> level_is_not (Binding.level b) maxLevel = false)
  /\ (Binding.is_seq b = false -> processedSequenceCallback l = false).
Proof.
  revert w l. induction callbacks as [|b1 rest IH]; intros w l; cbn.
  - by intros ?%elem_of_nil.
  - destruct (Binding.is_seq b1) eqn:Eseq;
      [destruct (level_is_not (Binding.level b1) maxLevel) eqn:Elv
      |destruct (processedSequenceCallback l) eqn:Ep].
    + intros (Hin & H1 & H2)%IH. split; [by right|done].
    + destruct (outcome (_fireCallback _ _ _ w)); cbn.
      * destruct (handleKey_loop e maxLevel rest _ _) as [d l'] eqn:E. cbn.
        intros [->|Hin]%elem_of_cons.
        -- split; [left|]. split; [done|]. by rewrite Eseq.
        -- at_run IH E H.
           destruct (H Hin) as (Hr & H1 & H2). split; [by right|].
           split; [done|]. intros Hplain. by specialize (H2 Hplain).
      * intros ->%list_elem_of_singleton.
        split; [left|]. split; [done|]. by rewrite Eseq.
    + intros (Hin & H1 & H2)%IH. split; [by right|]. split; [done|].
      intros Hplain. rewrite <- Ep. by apply H2.
    + destruct (outcome (_fireCallback _ _ _ w)); cbn.
      * destruct (handleKey_loop e maxLevel rest _ _) as [d l'] eqn:E. cbn.
        intros [->|Hin]%elem_of_cons.
        -- split; [left|]. split; [by rewrite Eseq|done].
        -- at_run IH E H.
           destruct (H Hin) as (Hr & H1 & H2). split; [by right|done].
      * intros ->%list_elem_of_singleton.
        split; [left|]. split; [by rewrite Eseq|done].
Qed.

(** When the loop runs to its end without passing a sequence entry, it has
    passed every plain match. *)
Lemma handleKey_loop_plain_fired callbacks w l b :
  processedSequenceCallback l = false ->
  (exists v, ended (handleKey_loop e maxLevel callbacks w l).1 = Returned v) ->
  (forall b', b' ∈ fired (handleKey_loop e maxLevel callbacks w l).1 ->
              Binding.is_seq b' = false) ->
  b ∈ callbacks -> Binding.is_seq b = false ->
  b ∈ fired (handleKey_loop e maxLevel callbacks w l).1.
Proof.
  revert w l. induction callbacks as [|b1 rest IH]; intros w l Hp; cbn.
  - by intros _ _ ?%elem_of_nil.
  - rewrite Hp.
    destruct (Binding.is_seq b1) eqn:Eseq;
      [destruct (level_is_not (Binding.level b1) maxLevel) eqn:Elv|].
    + intros Hend Hfired [->|Hin]%elem_of_cons Hplain; [congruence|].
      by apply IH.
    + destruct (outcome (_fireCallback _ _ _ w)); cbn.
      * destruct (handleKey_loop e maxLevel rest _ _) as [d l'] eqn:E. cbn.
        intros _ Hfired. specialize (Hfired b1 ltac:(left)). congruence.
      * intros _ Hfired. specialize (Hfired b1 ltac:(left)). congruence.
    + destruct (outcome (_fireCallback _ _ _ w)) eqn:Eo; cbn.
      * pose proof (IH (after (_fireCallback (Binding.callback b1) (Dom e) (Binding.combo b1) w)) l Hp) as H.
        destruct (handleKey_loop e maxLevel rest _ _) as [d l'] eqn:E. cbn in *.
        intros Hend Hfired [->|Hin]%elem_of_cons Hplain; [left|right].
        apply H; try done. intros b' Hb'. apply Hfired. by right.
      * by intros [v Hv].
Qed.
End TieBreak.

Lemma handleKey_fired_loop character modifiers e w :
  exists w1 : world,
    fired (handleKey character modifiers e w) =
      fired (handleKey_loop e (maxLevel_of (matches_of character modifiers e w))
                            (matches_of character modifiers e w) w1
                            (Locals ∅ false)).1
    /\ ((exists v, ended (handleKey character modifiers e w) = Returned v) ->
        exists v, ended (handleKey_loop e (maxLevel_of (matches_of character modifiers e w))
                            (matches_of character modifiers e w) w1
                            (Locals ∅ false)).1 = Returned v).
Proof.
  unfold handleKey, matches_of.
  destruct (getMatches _ _ _ _ _ _ _ _ _) as [[callbacks ?] m1]. cbn.
  exists (with_self (fun _ => m1) w).
  destruct (handleKey_loop _ _ _ _ _) as [d loc]. cbn.
  destruct (ended d) eqn:E; cbn; [|by rewrite E]. split; [done|]. by exists v.
Qed.

(** The tie-break on any event and state.  Of the matches, [handleKey] passes
    to [_fireCallback] only sequence entries at the maximum level and plain
    entries; a plain entry is passed only if no sequence entry is, the
    arrays of the registry keeping sequence entries first; and in a run that
    no [TypeError] ends, every plain match is passed when no sequence entry
    is.  The run of C1 is one a [TypeError] ends. *)
Lemma handleKey_tie_break character modifiers e w :
  let callbacks := matches_of character modifiers e w in
  let d := handleKey character modifiers e w in
  (forall b, b ∈ fired d ->
     b ∈ callbacks /\
     (Binding.is_seq b = true ->
      level_is_not (Binding.level b) (maxLevel_of callbacks) = false))
  /\ (seq_first callbacks ->
      forall b, b ∈ fired d -> Binding.is_seq b = false ->
      forall b', b' ∈ fired d -> Binding.is_seq b' = false)
  /\ ((exists v, ended d = Returned v) ->
      (forall b', b' ∈ fired d -> Binding.is_seq b' = false) ->
      forall b, b ∈ callbacks -> Binding.is_seq b = false -> b ∈ fired d).
Proof.
  cbn zeta. destruct (handleKey_fired_loop character modifiers e w) as (w1 & -> & Hend).
  set (callbacks := matches_of character modifiers e w) in *.
  split; [|split].
  - intros b (Hin & Hlv & _)%handleKey_loop_fired. done.
  - generalize (Locals ∅ false) as l. generalize (maxLevel_of callbacks) as ml.
    revert w1 Hend. clear. intros w1 _ ml.
    revert w1. induction callbacks as [|b1 rest IH]; intros w1 l Hord b Hb Hplain b' Hb'.
    + by apply elem_of_nil in Hb.
    + destruct Hord as [Hrest Hord]. revert Hb Hb'. cbn.
      destruct (Binding.is_seq b1) eqn:Eseq;
        [destruct (level_is_not (Binding.level b1) ml) eqn:Elv
        |destruct (processedSequenceCallback l) eqn:Ep].
      * intros Hb Hb'. by eapply (IH w1 l Hord b).
      * destruct (outcome (_fireCallback _ _ _ w1)); cbn.
        -- destruct (handleKey_loop e ml rest _ _) as [d l'] eqn:E. cbn.
           intros [->|Hb]%elem_of_cons; [congruence|].
           at_run (fun w l => handleKey_loop_fired e ml rest w l b) E H.
           destruct (H Hb) as (_ & _ & H2).
           by specialize (H2 Hplain).
        -- intros ->%list_elem_of_singleton. congruence.
      * intros Hb Hb'. by eapply (IH w1 l Hord b).
      * specialize (Hrest eq_refl). rewrite Forall_forall in Hrest.
        destruct (outcome (_fireCallback _ _ _ w1)); cbn.
        -- destruct (handleKey_loop e ml rest _ _) as [d l'] eqn:E. cbn.
           intros _ [->|Hb']%elem_of_cons; [done|].
           at_run (fun w l => handleKey_loop_fired e ml rest w l b') E H.
           destruct (H Hb') as (Hin & _). by apply Hrest.
        -- by intros _ ->%list_elem_of_singleton.
  - intros Hret Hnoseq b Hin Hplain.
    apply handleKey_loop_plain_fired; try done. by apply Hend.
Qed.

(** ** Binding: the two methods that call each other *)

Lemma collapse_no_space b s :
  any_space s = false -> JsString.collapse b s = s.
Proof.
  revert b. induction s as [|c s IH]; intros b; [done|]. cbn.
  intros [Hc Hs]%orb_false_iff. rewrite Hc. by rewrite IH.
Qed.

Lemma any_space_mem s : any_space s = false -> JsString.mem " " s = false.
Proof.
  induction s as [|c s IH]; [done|]. cbn.
  intros [Hc Hs]%orb_false_iff. rewrite (IH Hs), orb_false_r.
  destruct (Ascii.eqb c " ") eqn:E; [|done].
  apply Ascii.eqb_eq in E as ->. done.
Qed.

Lemma collapse_only_plain_spaces b s :
  only_plain_spaces (JsString.collapse b s) = true.
Proof.
  revert b. induction s as [|c s IH]; intros b; [done|]. cbn.
  destruct (JsString.is_space c) eqn:Ec.
  - destruct b; [apply IH|]. cbn. apply IH.
  - cbn. by rewrite Ec, IH.
Qed.

(** The keys of a sequence, cut out of the collapsed combination, hold no
    white space. *)
Lemma split_tokens_no_space s k :
  only_plain_spaces s = true -> k ∈ JsString.split " " s -> any_space k = false.
Proof.
  revert k. induction s as [|c s IH]; intros k; cbn.
  - by intros _ ->%list_elem_of_singleton.
  - intros [Hc Hs]%andb_true_iff.
    destruct (Ascii.eqb c " ") eqn:E.
    + intros [->|Hk]%elem_of_cons; [done|by apply IH].
    + rewrite orb_false_r in Hc. apply negb_true_iff in Hc.
      destruct (JsString.split " " s) as [|h t] eqn:Esplit.
      * intros ->%list_elem_of_singleton. cbn. by rewrite Hc.
      * intros [->|Hk]%elem_of_cons.
        -- cbn. rewrite Hc. apply IH; [done|left].
        -- apply IH; [done|by right].
Qed.

(** On a key without white space [_bindSingle] does not reach
    [#bindSequence]: it is the method with any other [#bindSequence]. *)
Lemma bindSingle_of_key k cb action sequenceName level w :
  any_space k = false ->
  _bindSingle k cb action sequenceName level w =
  bindSingle_key k cb action sequenceName level w.
Proof.
  intros Hk. unfold _bindSingle, bindSingle_key, bindSingle_with.
  unfold JsString.replace_spaces. rewrite collapse_no_space by done.
  rewrite split_none by by apply any_space_mem. done.
Qed.

(** [#bindSequence] over the real [_bindSingle] is the [bindSequence] of the
    model, on the keys [_bindSingle] cuts out of a combination. *)
Lemma bindSequence_knot combination cb action w :
  let c := JsString.replace_spaces combination in
  bindSequence_with _bindSingle c (JsString.split " " c) cb action w =
  bindSequence c (JsString.split " " c) cb action w.
Proof.
  cbn zeta. unfold bindSequence, bindSequence_with.
  assert (Hkeys : Forall (fun k => any_space k = false)
                    (JsString.split " " (JsString.replace_spaces combination))).
  { apply Forall_forall. intros k Hk. eapply split_tokens_no_space; [|exact Hk].
    apply collapse_only_plain_spaces. }
  revert Hkeys.
  generalize (with_self (fun m => set_sequenceLevels
      (<[JsString.replace_spaces combination := Num 0]> (_sequenceLevels m)) m) w).
  generalize 0.
  induction (JsString.split " " (JsString.replace_spaces combination))
    as [|k keys IH]; intros i w0 Hkeys; [done|].
  apply Forall_cons in Hkeys as [Hk Hkeys]. cbn.
  destruct (match keys with [] => _ | _ :: _ => _ end) as [wrapped w1].
  rewrite bindSingle_of_key by done. by apply IH.
Qed.

(** ** What the registry keeps true *)

Lemma sorted_entry_ok b : entry_ok b -> entry_ok (Binding.sorted b).
Proof. unfold entry_ok. cbn. by rewrite sort_perm. Qed.

Lemma sorted_is_seq b : Binding.is_seq (Binding.sorted b) = Binding.is_seq b.
Proof. done. Qed.

Lemma seq_first_app_plain l p :
  seq_first l -> Binding.is_seq p = false -> seq_first (l ++ [p]).
Proof.
  intros Hl Hp. induction l as [|b r IH]; cbn; [by split|].
  destruct Hl as [Hb Hr]. split; [|by apply IH].
  intros Hplain. apply Forall_app. split; [by apply Hb|by repeat constructor].
Qed.

Section Loop.
Variables (modifiers : list string) (action : string) (metaKey ctrlKey : bool)
          (sequenceName combination : option string) (level : option nat)
          (levels : gmap string jsnum).

Abbreviation examine_l :=
  (examine modifiers action metaKey ctrlKey sequenceName levels).
Abbreviation loop_l :=
  (getMatches_loop modifiers action metaKey ctrlKey sequenceName combination
                   level levels).

(** The loop leaves an entry as it is or with its modifiers sorted. *)
Lemma examine_entry b :
  (examine_l b).1.1 = b \/ (examine_l b).1.1 = Binding.sorted b.
Proof. unfold examine. repeat case_match; cbn; auto. Qed.

(** The array the loop leaves holds entries of the array it was given, some
    with their modifiers sorted, in the same order. *)
Lemma loop_arr_Forall (P : Binding.t -> Prop) :
  (forall b, P b -> P (Binding.sorted b)) ->
  forall n entries, length entries <= n ->
    Forall P entries -> Forall P (loop_l entries).1.1.
Proof.
  intros Hsorted. induction n as [|n IH]; intros [|b tl] Hlen HP;
    try (cbn in Hlen; lia); [constructor|constructor|].
  apply Forall_cons in HP as [Hb Htl]. cbn [getMatches_loop].
  assert (Hb' : P (examine_l b).1.1)
    by (destruct (examine_entry b) as [-> | ->]; auto).
  destruct (examine_l b) as [[b' matched] ran]. cbn in Hb'.
  assert (Hrec : Forall P (loop_l tl).1.1) by (apply IH; [cbn in Hlen; lia|done]).
  destruct matched; [destruct (deletes sequenceName combination level b')|].
  - destruct tl as [|u tl']; [constructor|].
    apply Forall_cons in Htl as [Hu Htl'].
    assert (Hrec' : Forall P (loop_l tl').1.1) by (apply IH; [cbn in Hlen; lia|done]).
    destruct (loop_l tl') as [[arr ms] ran']. cbn in *. by constructor.
  - destruct (loop_l tl) as [[arr ms] ran']. cbn in *. by constructor.
  - destruct (loop_l tl) as [[arr ms] ran']. cbn in *. by constructor.
Qed.

Lemma loop_arr_seq_first n entries :
  length entries <= n -> seq_first entries -> seq_first (loop_l entries).1.1.
Proof.
  revert entries. induction n as [|n IH]; intros [|b tl] Hlen Hord;
    try (cbn in Hlen; lia); [done|done|].
  destruct Hord as [Hb Htl]. cbn [getMatches_loop].
  assert (Hseq : Binding.is_seq (examine_l b).1.1 = Binding.is_seq b)
    by (destruct (examine_entry b) as [-> | ->]; done).
  destruct (examine_l b) as [[b' matched] ran]. cbn in Hseq.
  assert (Hplain : forall l, length l <= n ->
            Forall (fun x => Binding.is_seq x = false) l ->
            Forall (fun x => Binding.is_seq x = false) (loop_l l).1.1).
  { intros l Hl.
    by apply (loop_arr_Forall (fun x => Binding.is_seq x = false) (fun b Hb => Hb) n). }
  assert (Hrec : seq_first (loop_l tl).1.1) by (apply IH; [cbn in Hlen; lia|done]).
  assert (Hkeep : seq_first (b' :: (loop_l tl).1.1)).
  { split; [|done]. rewrite Hseq. intros Hp. apply Hplain; [cbn in Hlen; lia|auto]. }
  destruct matched; [destruct (deletes sequenceName combination level b')|].
  - destruct tl as [|u tl']; [done|]. destruct Htl as [Hu Htl'].
    assert (Hrec' : seq_first (loop_l tl').1.1) by (apply IH; [cbn in Hlen; lia|done]).
    specialize (Hplain tl' ltac:(cbn in Hlen; lia)).
    destruct (loop_l tl') as [[arr ms] ran']. cbn in *. split; [|done].
    intros Hp. by apply Hplain, Hu.
  - destruct (loop_l tl) as [[arr ms] ran']. by cbn in *.
  - destruct (loop_l tl) as [[arr ms] ran']. by cbn in *.
Qed.

Lemma loop_array_ok entries : array_ok entries -> array_ok (loop_l entries).1.1.
Proof.
  intros [Hord Hok]. split.
  - by apply (loop_arr_seq_first (length entries)).
  - apply (loop_arr_Forall entry_ok sorted_entry_ok (length entries)); done.
Qed.
End Loop.

Lemma getMatches_registry_ok character modifiers action mk ck sn cn lv m :
  registry_ok m ->
  registry_ok (getMatches character modifiers action mk ck sn cn lv m).2.
Proof.
  intros Hm. unfold getMatches.
  destruct (_callbacks m !! character) as [entries|] eqn:E; [|done].
  pose proof (loop_array_ok
                (if bool_decide (action = "keyup") && isModifier character
                 then [character] else modifiers)
                action mk ck sn cn lv (_sequenceLevels m) entries
                (Hm _ _ E)) as Harr.
  destruct (getMatches_loop _ _ _ _ _ _ _ _ _) as [[arr ms] ran]. cbn in *.
  intros k l. cbn [_callbacks set_callbacks].
  destruct (decide (k = character)) as [->|Hne].
  - rewrite lookup_insert_eq. by intros [= <-].
  - rewrite lookup_insert_ne by done. apply Hm.
Qed.

Lemma getMatches_modifiers_ok character modifiers action mk ck sn cn lv m :
  Forall (fun x => isModifier x = true) modifiers ->
  Forall (fun x => isModifier x = true)
         (getMatches character modifiers action mk ck sn cn lv m).1.2.
Proof.
  intros H. unfold getMatches. destruct (_callbacks m !! character); [|done].
  destruct (getMatches_loop _ _ _ _ _ _ _ _ _) as [[arr ms] ran]. cbn.
  destruct (ran && _); [by rewrite sort_perm|done].
Qed.

Lemma registry_ok_default m k :
  registry_ok m -> array_ok (default [] (_callbacks m !! k)).
Proof.
  intros Hm. destruct (_callbacks m !! k) as [l|] eqn:E; cbn.
  - by eapply Hm.
  - by split.
Qed.

(** [_bindSingle] keeps the registry in order, whatever does so stands for
    [#bindSequence]. *)
Lemma bindSingle_with_registry_ok bindSeq k cb action sn lv w :
  (forall c ks cb' a w', registry_ok (self w') ->
                         registry_ok (self (bindSeq c ks cb' a w'))) ->
  registry_ok (self w) ->
  registry_ok (self (bindSingle_with bindSeq k cb action sn lv w)).
Proof.
  intros Hseq Hw. unfold bindSingle_with.
  set (w1 := with_self _ w).
  assert (Hw1 : registry_ok (self w1)) by done.
  destruct (Nat.ltb 1 _); [by apply Hseq|].
  pose proof (getKeyInfo_modifiers_are_modifiers (classState w1)
                (JsString.replace_spaces k) action) as Hmods.
  destruct (getKeyInfo _ _ _) as [info s']. cbn in Hmods.
  set (m1 := set_callbacks _ (self w1)).
  assert (Hm1 : registry_ok m1).
  { intros key l. unfold m1. cbn.
    destruct (decide (key = KeyInfo.key info)) as [->|Hne].
    - rewrite lookup_insert_eq. intros [= <-]. by apply registry_ok_default.
    - rewrite lookup_insert_ne by done. apply Hw1. }
  pose proof (getMatches_registry_ok (KeyInfo.key info) (KeyInfo.modifiers info)
                (KeyInfo.action info) false false sn
                (Some (JsString.replace_spaces k)) lv m1 Hm1) as Hm2.
  pose proof (getMatches_modifiers_ok (KeyInfo.key info) (KeyInfo.modifiers info)
                (KeyInfo.action info) false false sn
                (Some (JsString.replace_spaces k)) lv m1 Hmods) as Hmods2.
  destruct (getMatches _ _ _ _ _ _ _ _ _) as [[ms mods] m2]. cbn in *.
  intros key l. cbn [self _callbacks set_callbacks].
  destruct (decide (key = KeyInfo.key info)) as [->|Hne];
    [|rewrite lookup_insert_ne by done; apply Hm2].
  rewrite lookup_insert_eq. intros [= <-].
  assert (Harr : array_ok (default [] (_callbacks m2 !! KeyInfo.key info)))
    by by apply registry_ok_default.
  destruct Harr as [Hord Hok].
  destruct (JsString.truthy_opt sn) eqn:Esn.
  - split; [split; [|done]|by constructor].
    unfold Binding.is_seq. cbn. by rewrite Esn.
  - split; [apply seq_first_app_plain; [done|]|].
    + unfold Binding.is_seq. by cbn.
    + apply Forall_app. split; [done|]. by repeat constructor.
Qed.

Lemma bindSequence_loop_registry_ok bindSingle combo cb action keys :
  (forall k cb' a sn lv w', registry_ok (self w') ->
                            registry_ok (self (bindSingle k cb' a sn lv w'))) ->
  forall i w, registry_ok (self w) ->
    registry_ok (self (bindSequence_loop bindSingle combo cb action i keys w)).
Proof.
  intros Hsingle. induction keys as [|k rest IH]; intros i w Hw; [done|]. cbn.
  assert (H1 : registry_ok
            (self (match rest with
                   | [] => (CallbackAndReset cb combo action, w)
                   | next :: _ =>
                       if JsString.truthy_opt action
                       then (IncreaseSequence combo (JsString.of_opt action), w)
                       else let '(info, s') := getKeyInfo (classState w) next None in
                            (IncreaseSequence combo (KeyInfo.action info),
                             with_classState s' w)
                   end).2)).
  { destruct rest; [done|]. destruct (JsString.truthy_opt action); [done|].
    by destruct (getKeyInfo _ _ _). }
  destruct (match rest with [] => _ | _ :: _ => _ end) as [wrapped w1].
  apply IH. by apply Hsingle.
Qed.

Lemma bindSingle_registry_ok k cb action sn lv w :
  registry_ok (self w) -> registry_ok (self (_bindSingle k cb action sn lv w)).
Proof.
  apply bindSingle_with_registry_ok. intros c ks cb' a w' Hw'.
  unfold bindSequence, bindSequence_with.
  apply bindSequence_loop_registry_ok; [|done].
  intros. apply bindSingle_with_registry_ok; [|done]. done.
Qed.

Lemma bind_registry_ok keys cb action w :
  registry_ok (self w) -> registry_ok (self (bind keys cb action w)).
Proof.
  unfold bind, _bindMultiple.
  generalize (match keys with Key k => [k] | Keys l => l end) as l.
  intros l. revert w. induction l as [|k l IH]; intros w Hw; [done|]. cbn.
  by apply IH, bindSingle_registry_ok.
Qed.

(** Calling a callback leaves [_callbacks] alone. *)
Lemma fireCallback_with_callbacks call_it e combo w :
  (forall e' c' w', _callbacks (self (after (call_it e' c' w'))) = _callbacks (self w')) ->
  _callbacks (self (after (fireCallback_with call_it e combo w))) = _callbacks (self w).
Proof.
  intros Hcall. unfold fireCallback_with.
  destruct (stopCallback (self w) (target_of e)) as [[|]|]; try done.
  pose proof (Hcall e combo w) as H.
  by destruct (call_it e combo w) as [w' cs [[|]|err]].
Qed.

Lemma invoke_callbacks cb e combo w :
  _callbacks (self (after (invoke cb e combo w))) = _callbacks (self w).
Proof.
  revert e combo w. induction cb as [id rf| |c n|cb IH c a]; intros e combo w;
    try done. cbn [invoke].
  pose proof (fireCallback_with_callbacks (invoke cb) e c w IH) as H.
  destruct (fireCallback_with (invoke cb) e c w) as [w' cs [v|err]]; cbn in *;
    [|done].
  by destruct (bool_decide (a = Some "keyup")).
Qed.

Lemma fireCallback_callbacks cb e combo w :
  _callbacks (self (after (_fireCallback cb e combo w))) = _callbacks (self w).
Proof. apply fireCallback_with_callbacks. intros. apply invoke_callbacks. Qed.

Lemma handleKey_loop_callbacks e maxLevel callbacks w l :
  _callbacks (self (final (handleKey_loop e maxLevel callbacks w l).1)) =
  _callbacks (self w).
Proof.
  revert w l. induction callbacks as [|b rest IH]; intros w l; [done|]. cbn.
  pose proof (fireCallback_callbacks (Binding.callback b) (Dom e) (Binding.combo b) w)
    as Hfire.
  destruct (Binding.is_seq b);
    [destruct (level_is_not _ _)|destruct (processedSequenceCallback l)];
    try apply IH;
    (destruct (outcome (_fireCallback _ _ _ w)); cbn; [|exact Hfire];
     destruct (handleKey_loop e maxLevel rest _ _) as [d l''] eqn:E; cbn;
     at_run IH E H; by rewrite H).
Qed.

Lemma handleKey_registry_ok character modifiers e w :
  registry_ok (self w) ->
  registry_ok (self (final (handleKey character modifiers e w))).
Proof.
  intros Hw. unfold handleKey.
  pose proof (getMatches_registry_ok character modifiers (type_name (type e))
                (metaKey e) (ctrlKey e) None None None (self w) Hw) as Hm1.
  destruct (getMatches _ _ _ _ _ _ _ _ _) as [[callbacks mods] m1]. cbn in Hm1.
  pose proof (handleKey_loop_callbacks e (maxLevel_of callbacks) callbacks
                (with_self (fun _ => m1) w) (Locals ∅ false)) as Hloop.
  destruct (handleKey_loop _ _ _ _ _) as [d l]. cbn in Hloop.
  assert (Hd : registry_ok (self (final d))).
  { intros k arr. rewrite Hloop. apply Hm1. }
  destruct (ended d); [|done]. cbn.
  intros k arr. unfold resetSequences.
  repeat case_match; cbn; apply Hd.
Qed.

Lemma handleKeyEvent_registry_ok e w :
  registry_ok (self w) -> registry_ok (self (final (handleKeyEvent e w))).
Proof.
  intros Hw. unfold handleKeyEvent.
  repeat case_match; try done. by apply handleKey_registry_ok.
Qed.

Lemma trigger_registry_ok keys action w :
  registry_ok (self w) -> registry_ok (self (after (trigger keys action w))).
Proof.
  intros Hw. unfold trigger. case_match; [|done].
  intros k arr. rewrite invoke_callbacks. apply Hw.
Qed.

(** ** Every state an engine reaches *)

Section LoopMatches.
Variables (modifiers : list string) (action : string) (metaKey ctrlKey : bool)
          (sequenceName combination : option string) (level : option nat)
          (levels : gmap string jsnum).

Abbreviation examine_m :=
  (examine modifiers action metaKey ctrlKey sequenceName levels).
Abbreviation loop_m :=
  (getMatches_loop modifiers action metaKey ctrlKey sequenceName combination
                   level levels).

(** The matches are entries of the array, some with their modifiers sorted,
    in the order of the array. *)
Lemma loop_matches_Forall (P : Binding.t -> Prop) :
  (forall b, P b -> P (Binding.sorted b)) ->
  forall n entries, length entries <= n ->
    Forall P entries -> Forall P (loop_m entries).1.2.
Proof.
  intros Hsorted. induction n as [|n IH]; intros [|b tl] Hlen HP;
    try (cbn in Hlen; lia); [constructor|constructor|].
  apply Forall_cons in HP as [Hb Htl]. cbn [getMatches_loop].
  assert (Hb' : P (examine_m b).1.1)
    by (destruct (examine_entry modifiers action metaKey ctrlKey sequenceName
                    levels b) as [-> | ->]; auto).
  destruct (examine_m b) as [[b' matched] ran]. cbn in Hb'.
  assert (Hrec : Forall P (loop_m tl).1.2) by (apply IH; [cbn in Hlen; lia|done]).
  destruct matched; [destruct (deletes sequenceName combination level b')|].
  - destruct tl as [|u tl']; [by repeat constructor|].
    apply Forall_cons in Htl as [Hu Htl'].
    assert (Hrec' : Forall P (loop_m tl').1.2) by (apply IH; [cbn in Hlen; lia|done]).
    destruct (loop_m tl') as [[arr ms] ran']. cbn in *. by constructor.
  - destruct (loop_m tl) as [[arr ms] ran']. cbn in *. by constructor.
  - destruct (loop_m tl) as [[arr ms] ran']. by cbn in *.
Qed.

Lemma loop_matches_seq_first n entries :
  length entries <= n -> seq_first entries -> seq_first (loop_m entries).1.2.
Proof.
  revert entries. induction n as [|n IH]; intros [|b tl] Hlen Hord;
    try (cbn in Hlen; lia); [done|done|].
  destruct Hord as [Hb Htl]. cbn [getMatches_loop].
  assert (Hseq : Binding.is_seq (examine_m b).1.1 = Binding.is_seq b)
    by (destruct (examine_entry modifiers action metaKey ctrlKey sequenceName
                    levels b) as [-> | ->]; done).
  destruct (examine_m b) as [[b' matched] ran]. cbn in Hseq.
  assert (Hplain : forall l, length l <= n ->
            Forall (fun x => Binding.is_seq x = false) l ->
            Forall (fun x => Binding.is_seq x = false) (loop_m l).1.2).
  { intros l Hl.
    by apply (loop_matches_Forall (fun x => Binding.is_seq x = false)
                (fun b Hb => Hb) n). }
  assert (Hrec : seq_first (loop_m tl).1.2) by (apply IH; [cbn in Hlen; lia|done]).
  destruct matched; [destruct (deletes sequenceName combination level b')|].
  - destruct tl as [|u tl']; [by repeat split|]. destruct Htl as [Hu Htl'].
    assert (Hrec' : seq_first (loop_m tl').1.2) by (apply IH; [cbn in Hlen; lia|done]).
    specialize (Hplain tl' ltac:(cbn in Hlen; lia)).
    destruct (loop_m tl') as [[arr ms] ran']. cbn in *. split; [|done].
    rewrite Hseq. intros Hp. apply Hplain.
    specialize (Hb Hp). by apply Forall_cons in Hb as [_ Hb].
  - specialize (Hplain tl ltac:(cbn in Hlen; lia)).
    destruct (loop_m tl) as [[arr ms] ran']. cbn in *. split; [|done].
    rewrite Hseq. intros Hp. by apply Hplain, Hb.
  - destruct (loop_m tl) as [[arr ms] ran']. by cbn in *.
Qed.
End LoopMatches.

(** The matches of a dispatch are in the order of the registry and hold
    modifier names. *)
Lemma matches_of_ok character modifiers e w :
  registry_ok (self w) -> array_ok (matches_of character modifiers e w).
Proof.
  intros Hw. unfold matches_of, getMatches.
  destruct (_callbacks (self w) !! character) as [entries|] eqn:E;
    [|by split].
  destruct (Hw _ _ E) as [Hord Hok].
  pose proof (loop_matches_seq_first
                (if bool_decide (type_name (type e) = "keyup") && isModifier character
                 then [character] else modifiers)
                (type_name (type e)) (metaKey e) (ctrlKey e) None None None
                (_sequenceLevels (self w)) (length entries) entries
                (Nat.le_refl _) Hord) as H1.
  pose proof (loop_matches_Forall
                (if bool_decide (type_name (type e) = "keyup") && isModifier character
                 then [character] else modifiers)
                (type_name (type e)) (metaKey e) (ctrlKey e) None None None
                (_sequenceLevels (self w)) entry_ok sorted_entry_ok
                (length entries) entries (Nat.le_refl _) Hok) as H2.
  destruct (getMatches_loop _ _ _ _ _ _ _ _ _) as [[arr ms] ran]. by split.
Qed.

Lemma registry_ok_fresh : registry_ok mousetrap0.
Proof. intros k l. cbn. by rewrite lookup_empty. Qed.

Lemma step_registry_ok w o : registry_ok (self w) -> registry_ok (self (step w o)).
Proof.
  intros Hw. destruct o; cbn [step].
  - by apply bind_registry_ok.
  - by apply bind_registry_ok.
  - by apply trigger_registry_ok.
  - intros k l. cbn. by rewrite lookup_empty.
  - done.
  - done.
  - done.
  - by apply handleKeyEvent_registry_ok.
  - unfold expire. destruct (List.find _ _) as [t|]; [|done].
    destruct (handler t); cbn; by destruct w.
Qed.

(** In every state an engine reaches, each array of the registry holds its
    sequence entries first, and only modifier names as modifiers. *)
Lemma reachable_registry_ok w : reachable w -> registry_ok (self w).
Proof.
  intros (mac & ops & ->).
  assert (H : forall w0, registry_ok (self w0) -> registry_ok (self (foldl step w0 ops))).
  { induction ops as [|o ops IH]; intros w0 Hw0; [done|]. cbn.
    by apply IH, step_registry_ok. }
  apply H, registry_ok_fresh.
Qed.

(** The tie-break in a state an engine reaches: the order of the registry
    need not be assumed. *)
Lemma reachable_tie_break character modifiers e w :
  reachable w ->
  let callbacks := matches_of character modifiers e w in
  let d := handleKey character modifiers e w in
  (forall b, b ∈ fired d ->
     b ∈ callbacks /\
     (Binding.is_seq b = true ->
      level_is_not (Binding.level b) (maxLevel_of callbacks) = false))
  /\ (forall b, b ∈ fired d -> Binding.is_seq b = false ->
      forall b', b' ∈ fired d -> Binding.is_seq b' = false)
  /\ ((exists v, ended d = Returned v) ->
      (forall b', b' ∈ fired d -> Binding.is_seq b' = false) ->
      forall b, b ∈ callbacks -> Binding.is_seq b = false -> b ∈ fired d).
Proof.
  intros Hw%reachable_registry_ok. cbn zeta.
  destruct (handleKey_tie_break character modifiers e w) as (H1 & H2 & H3).
  split; [done|]. split; [|done].
  apply H2. by apply matches_of_ok.
Qed.

(** ** Matching, in every state an engine reaches *)

(** C5.  In every state an engine reaches, an entry that [#getMatches]
    returns for a dispatched event has the action of the event, and, unless
    the event is a keypress with neither ctrl nor meta held, its modifiers are
    those of the event up to order (the same set).  For such a keypress the
    modifiers are not compared: every entry with the action [keypress] that
    is plain, or a sequence entry at the current level of its sequence, is a
    match.  The modifiers of the event are the keys flagged on it, or the key
    itself when a modifier key comes up. *)
Theorem C5_match_needs_action_and_modifiers :
  (forall w character e b,
      reachable w ->
      b ∈ matches_of character (eventModifiers e) e w ->
      Binding.action b = type_name (type e)
      /\ ((type e = keypress /\ metaKey e = false /\ ctrlKey e = false)
          \/ (Binding.modifiers b ≡ₚ event_modifier_set character e
              /\ forall x, x ∈ Binding.modifiers b <-> x ∈ event_modifier_set character e)))
  /\ (forall w character e entries b,
        type e = keypress -> metaKey e = false -> ctrlKey e = false ->
        _callbacks (self w) !! character = Some entries -> b ∈ entries ->
        Binding.action b = "keypress" ->
        (Binding.is_seq b = false \/
         level_differs (_sequenceLevels (self w) !! default "" (Binding.seq b))
                       (Binding.level b) = false) ->
        b ∈ matches_of character (eventModifiers e) e w).
Proof.
  split.
  - intros w character e b Hw%reachable_registry_ok Hin.
    assert (Hmods : entry_ok b).
    { destruct (matches_of_ok character (eventModifiers e) e w Hw) as [_ Hok].
      rewrite Forall_forall in Hok. by apply Hok. }
    unfold matches_of in Hin.
    destruct (_callbacks (self w) !! character) as [entries|] eqn:Hentries;
      [|rewrite getMatches_no_entries in Hin by done; by apply elem_of_nil in Hin].
    rewrite (getMatches_dispatch_matches _ _ _ _ _ Hentries) in Hin.
    apply loop_dispatch_matches in Hin as (b0 & _ & Hex).
    apply examine_match in Hex as [Hact Hcases].
    destruct Hcases as [(Hk & Hm & Hc & ->)|[-> Hmatch]].
    + split; [done|]. left. split; [|done]. by apply (type_name_inj _ keypress).
    + split; [done|]. right.
      assert (Hperm : JsString.sort (Binding.modifiers b0)
                        ≡ₚ event_modifier_set character e).
      { rewrite sort_perm. symmetry. apply modifiersMatch_perm; [| |exact Hmatch].
        - apply event_modifier_set_are_modifiers.
        - unfold entry_ok in Hmods. cbn in Hmods. by rewrite sort_perm in Hmods. }
      split; [exact Hperm|]. intros x. cbn. by rewrite Hperm.
  - intros w character e entries b Hk Hm Hc Hentries Hin Hact Hlevel.
    unfold matches_of. rewrite (getMatches_dispatch_matches _ _ _ _ _ Hentries).
    apply loop_dispatch_matches. exists b. split; [done|].
    unfold examine. rewrite Hk, Hm, Hc, Hact. cbn.
    destruct Hlevel as [-> | ->]; cbn; by rewrite ?andb_false_r.
Qed.

(** [ctrl+s] bound on keydown: the keydown of [s] with ctrl held matches it,
    and its modifiers are the event's. *)
Lemma C5_match_needs_action_and_modifiers_witness :
  let e := KeyEvent keydown (Some 83%N) (Some 83%N) false false true false
                    (Some Sample.body) in
  let b := Binding.Make (UserFn 1 false) ["ctrl"] "keydown" None None "ctrl+s" in
  reachable Sample.ctrl_s
  /\ b ∈ matches_of "s" (eventModifiers e) e Sample.ctrl_s
  /\ Binding.action b = "keydown"
  /\ Binding.modifiers b ≡ₚ event_modifier_set "s" e.
Proof.
  cbn zeta.
  set (e := KeyEvent keydown (Some 83%N) (Some 83%N) false false true false
                     (Some Sample.body)).
  set (b := Binding.Make (UserFn 1 false) ["ctrl"] "keydown" None None "ctrl+s").
  assert (Hw : reachable Sample.ctrl_s).
  { exists false, [OpBind (Key "ctrl+s") (UserFn 1 false) (Some "keydown")].
    reflexivity. }
  assert (Hin : b ∈ matches_of "s" (eventModifiers e) e Sample.ctrl_s)
    by (vm_compute; left).
  destruct C5_match_needs_action_and_modifiers as [H _].
  destruct (H _ _ _ _ Hw Hin) as [Hact [(Hk & _)|[Hperm _]]].
  - discriminate Hk.
  - exact (conj Hw (conj Hin (conj Hact Hperm))).
Defined.

(** ** The tie-break and the run a false return ends *)

(** C1 (code defect).  Claim: on every dispatched event, of the matching
    sequence-type entries only those at the maximum level fire, and every
    matching plain entry fires exactly when no sequence-type entry fired.
    In every state an engine reaches, the entries [handleKey] passes to
    [_fireCallback] are matches, the sequence entries among them are at the
    maximum level, a plain entry is passed only if no sequence entry is, and
    in a run that no [TypeError] ends every plain match is passed when no
    sequence entry is.  But a [TypeError] does end runs: two plain entries
    ([return] and [enter], both on keydown) match the keydown of key code 13
    and no sequence-type entry does, yet only the first is passed to
    [_fireCallback]: its callback returns [false], [_fireCallback] then reads
    the static private [#preventDefault] off the instance, which raises, and
    the loop never reaches the second entry. *)
Theorem C1_plain_match_lost_after_false_return :
  (forall w character modifiers e,
      reachable w ->
      let callbacks := matches_of character modifiers e w in
      let d := handleKey character modifiers e w in
      (forall b, b ∈ fired d ->
         b ∈ callbacks /\
         (Binding.is_seq b = true ->
          level_is_not (Binding.level b) (maxLevel_of callbacks) = false))
      /\ (forall b, b ∈ fired d -> Binding.is_seq b = false ->
          forall b', b' ∈ fired d -> Binding.is_seq b' = false)
      /\ ((exists v, ended d = Returned v) ->
          (forall b', b' ∈ fired d -> Binding.is_seq b' = false) ->
          forall b, b ∈ callbacks -> Binding.is_seq b = false -> b ∈ fired d))
  /\ (let w := Sample.two_enter_bindings in
      let e := Sample.key keydown 13 in
      let first := Sample.plain (UserFn 1 true) "keydown" "return" in
      let second := Sample.plain (UserFn 2 false) "keydown" "enter" in
      let d := handleKeyEvent e w in
      reachable w
      /\ matches_of "enter" (eventModifiers e) e w = [first; second]
      /\ fired d = [first]
      /\ called d = [(1, "return")]
      /\ ended d = Raised "#preventDefault is not on the instance").
Proof.
  split.
  - intros w character modifiers e Hw. by apply reachable_tie_break.
  - cbn zeta. split.
    + exists false,
        [OpBind (Key "return") (UserFn 1 true) (Some "keydown");
         OpBind (Key "enter") (UserFn 2 false) (Some "keydown")].
      reflexivity.
    + vm_compute. repeat split; reflexivity.
Qed.

(** * Further properties of the code *)

(** ** [#resetSequences] *)

Lemma resetSequences_lookup doNotReset m k :
  _sequenceLevels (resetSequences doNotReset m) !! k =
    (fun v => if decide (k ∈ doNotReset) then v else Num 0)
      <$> (_sequenceLevels m !! k).
Proof.
  unfold resetSequences. case_bool_decide; cbn;
    rewrite map_lookup_imap; by destruct (_sequenceLevels m !! k).
Qed.

Lemma resetSequences_dom doNotReset m :
  dom (_sequenceLevels (resetSequences doNotReset m)) = dom (_sequenceLevels m).
Proof.
  apply set_eq. intros k. rewrite !elem_of_dom, resetSequences_lookup.
  by rewrite fmap_is_Some.
Qed.

Lemma resetSequences_next_kept doNotReset m :
  (exists k, k ∈ doNotReset /\ is_Some (_sequenceLevels m !! k)) ->
  _nextExpectedAction (resetSequences doNotReset m) = _nextExpectedAction m.
Proof.
  intros (k & Hk & Hlv). unfold resetSequences. case_bool_decide as H; [done|].
  exfalso.
  assert (Hin : k ∈ dom (_sequenceLevels m) ∩ doNotReset)
    by (apply elem_of_intersection; split; [by apply elem_of_dom|done]).
  rewrite H in Hin. by apply elem_of_empty in Hin.
Qed.

Lemma resetSequences_next_cleared doNotReset m :
  (forall k, k ∈ doNotReset -> _sequenceLevels m !! k = None) ->
  _nextExpectedAction (resetSequences doNotReset m) = None.
Proof.
  intros Hnone. unfold resetSequences. case_bool_decide as H; [|done].
  exfalso. apply H. apply set_eq. intros k.
  rewrite elem_of_intersection, elem_of_dom. split.
  - intros [Hs Hd]. rewrite (Hnone k Hd) in Hs. by destruct Hs.
  - by intros ?%elem_of_empty.
Qed.

Lemma resetSequences_frame doNotReset m :
  let m' := resetSequences doNotReset m in
  _callbacks m' = _callbacks m /\ _directMap m' = _directMap m
  /\ mouseTrapEnabled m' = mouseTrapEnabled m
  /\ _ignoreNextKeyup m' = _ignoreNextKeyup m
  /\ _ignoreNextKeypress m' = _ignoreNextKeypress m
  /\ _resetTimer m' = _resetTimer m.
Proof. cbn zeta. unfold resetSequences. by case_bool_decide. Qed.

(** [#resetSequences(doNotReset)] sets to 0 the level of every sequence that
    is not in [doNotReset], keeps the level of the others and adds no
    sequence; it keeps [_nextExpectedAction] when some sequence with a level
    is in [doNotReset] and clears it otherwise, and leaves every other field
    alone.  Doing it twice is doing it once. *)
Theorem resetSequences_effect doNotReset m :
  let m' := resetSequences doNotReset m in
  (forall k, _sequenceLevels m' !! k =
             (fun v => if decide (k ∈ doNotReset) then v else Num 0)
               <$> (_sequenceLevels m !! k))
  /\ ((exists k, k ∈ doNotReset /\ is_Some (_sequenceLevels m !! k)) ->
      _nextExpectedAction m' = _nextExpectedAction m)
  /\ ((forall k, k ∈ doNotReset -> _sequenceLevels m !! k = None) ->
      _nextExpectedAction m' = None)
  /\ (_callbacks m' = _callbacks m /\ _directMap m' = _directMap m
      /\ mouseTrapEnabled m' = mouseTrapEnabled m
      /\ _ignoreNextKeyup m' = _ignoreNextKeyup m
      /\ _ignoreNextKeypress m' = _ignoreNextKeypress m
      /\ _resetTimer m' = _resetTimer m)
  /\ resetSequences doNotReset m' = m'.
Proof.
  cbn zeta. split; [apply resetSequences_lookup|]. split; [|split; [|split]].
  - apply resetSequences_next_kept.
  - apply resetSequences_next_cleared.
  - apply resetSequences_frame.
  - assert (Hlv : map_imap (fun k v => Some (if decide (k ∈ doNotReset) then v else Num 0))
                    (_sequenceLevels (resetSequences doNotReset m))
                  = _sequenceLevels (resetSequences doNotReset m)).
    { apply map_eq. intros k. rewrite map_lookup_imap.
      rewrite resetSequences_lookup.
      destruct (_sequenceLevels m !! k) as [v|]; cbn; [|done].
      by destruct (decide (k ∈ doNotReset)). }
    pose proof (resetSequences_dom doNotReset m) as Hdom.
    unfold resetSequences at 1. rewrite Hdom, Hlv.
    unfold resetSequences. by case_bool_decide.
Qed.

(** A run of [#resetSequences] that keeps one of two sequences in progress. *)
Lemma resetSequences_effect_witness :
  let m := set_nextExpectedAction (Some "keypress")
             (set_sequenceLevels {[ "g i" := Num 1; "a b" := Num 1 ]} mousetrap0) in
  let m' := resetSequences {[ "g i" ]} m in
  (exists k, k ∈ ({[ "g i" ]} : gset string) /\ is_Some (_sequenceLevels m !! k))
  /\ _sequenceLevels m' !! "g i" = Some (Num 1)
  /\ _sequenceLevels m' !! "a b" = Some (Num 0)
  /\ _nextExpectedAction m' = Some "keypress"
  /\ _nextExpectedAction (resetSequences ∅ m) = None.
Proof.
  cbn zeta.
  set (m := set_nextExpectedAction (Some "keypress")
              (set_sequenceLevels {[ "g i" := Num 1; "a b" := Num 1 ]} mousetrap0)).
  assert (Hex : exists k, k ∈ ({[ "g i" ]} : gset string)
                          /\ is_Some (_sequenceLevels m !! k)).
  { exists "g i". split; [by apply elem_of_singleton|]. vm_compute. by eexists. }
  destruct (resetSequences_effect {[ "g i" ]} m) as (Hlv & Hkeep & _).
  destruct (resetSequences_effect ∅ m) as (_ & _ & Hclear & _).
  refine (conj Hex (conj _ (conj _ (conj (Hkeep Hex) (Hclear _))))).
  - rewrite Hlv. vm_compute. reflexivity.
  - rewrite Hlv. vm_compute. reflexivity.
  - intros k Hk. by apply elem_of_empty in Hk.
Defined.

(** ** [handleKey]: the reset rule and the keypress that follows a keydown *)

(** [#getMatches] changes nothing but the array it walks. *)
Lemma getMatches_frame character modifiers action mk ck sn cn lv m :
  let m' := (getMatches character modifiers action mk ck sn cn lv m).2 in
  mouseTrapEnabled m' = mouseTrapEnabled m
  /\ _directMap m' = _directMap m
  /\ _sequenceLevels m' = _sequenceLevels m
  /\ _resetTimer m' = _resetTimer m
  /\ _ignoreNextKeyup m' = _ignoreNextKeyup m
  /\ _ignoreNextKeypress m' = _ignoreNextKeypress m
  /\ _nextExpectedAction m' = _nextExpectedAction m.
Proof.
  unfold getMatches. destruct (_callbacks m !! character); [|done].
  by destruct (getMatches_loop _ _ _ _ _ _ _ _ _) as [[? ?] ?].
Qed.



(** ** What a dispatch never does *)

Lemma call_effect_refl w : call_effect w w.
Proof.
  repeat split. exists []. split; [by rewrite app_nil_r|constructor].
Qed.

Lemma call_effect_trans w1 w2 w3 :
  call_effect w1 w2 -> call_effect w2 w3 -> call_effect w1 w3.
Proof.
  intros (H1 & H2 & H3 & H4 & H5 & H6 & a1 & Ht1 & Ha1)
         (G1 & G2 & G3 & G4 & G5 & G6 & a2 & Ht2 & Ha2).
  repeat split; try congruence.
  exists (a1 ++ a2). split; [by rewrite Ht2, Ht1, app_assoc|by apply Forall_app].
Qed.

Lemma fireCallback_with_effect call_it e combo w :
  (forall e' c' w', call_effect w' (after (call_it e' c' w'))) ->
  call_effect w (after (fireCallback_with call_it e combo w)).
Proof.
  intros Hcall. unfold fireCallback_with.
  destruct (stopCallback (self w) (target_of e)) as [[|]|];
    try apply call_effect_refl.
  pose proof (Hcall e combo w) as H.
  by destruct (call_it e combo w) as [w' cs [[|]|err]].
Qed.

Lemma invoke_effect cb e combo w : call_effect w (after (invoke cb e combo w)).
Proof.
  revert e combo w. induction cb as [id rf| |c n|cb IH c a]; intros e combo w.
  - apply call_effect_refl.
  - apply call_effect_refl.
  - cbn. repeat split. exists []. split; [by rewrite app_nil_r|constructor].
  - cbn [invoke].
    pose proof (fireCallback_with_effect (invoke cb) e c w IH) as H.
    destruct (fireCallback_with (invoke cb) e c w) as [w' cs [v|err]]; cbn in *;
      [|done].
    eapply call_effect_trans; [exact H|].
    destruct (bool_decide (a = Some "keyup")); cbn;
      (repeat split; eexists; split; [reflexivity|by repeat constructor]).
Qed.

Lemma fireCallback_effect cb e combo w :
  call_effect w (after (_fireCallback cb e combo w)).
Proof. apply fireCallback_with_effect. intros. apply invoke_effect. Qed.

Lemma handleKey_loop_effect e maxLevel callbacks w l :
  call_effect w (final (handleKey_loop e maxLevel callbacks w l).1).
Proof.
  revert w l. induction callbacks as [|b rest IH]; intros w l;
    [apply call_effect_refl|]. cbn.
  pose proof (fireCallback_effect (Binding.callback b) (Dom e) (Binding.combo b) w)
    as Hfire.
  destruct (Binding.is_seq b);
    [destruct (level_is_not _ _)|destruct (processedSequenceCallback l)];
    try apply IH;
    (destruct (outcome (_fireCallback _ _ _ w)); cbn; [|exact Hfire];
     destruct (handleKey_loop e maxLevel rest _ _) as [d l''] eqn:E; cbn;
     at_run IH E H; by eapply call_effect_trans).
Qed.

(** The flag the loop of [handleKey] ends with: set on entry, or a sequence
    entry was passed to [_fireCallback]. *)
Lemma handleKey_loop_processed e maxLevel callbacks w l :
  processedSequenceCallback (handleKey_loop e maxLevel callbacks w l).2 =
  processedSequenceCallback l
  || existsb Binding.is_seq (fired (handleKey_loop e maxLevel callbacks w l).1).
Proof.
  revert w l. induction callbacks as [|b rest IH]; intros w l; cbn;
    [by rewrite orb_false_r|].
  destruct (Binding.is_seq b) eqn:Eseq;
    [destruct (level_is_not _ _)|destruct (processedSequenceCallback l) eqn:Ep];
    try (rewrite IH; by rewrite ?Ep);
    (destruct (outcome (_fireCallback _ _ _ w)); cbn;
     [destruct (handleKey_loop e maxLevel rest _ _) as [d l''] eqn:E; cbn;
      at_run IH E H; cbn in H; rewrite H, Eseq; cbn;
      by rewrite ?Ep, ?orb_true_r
     |rewrite Eseq; cbn; by rewrite ?Ep, ?orb_true_r]).
Qed.

(** The array a dispatch leaves is the array it found, up to the order of
    the modifiers of its entries. *)
Lemma loop_dispatch_array modifiers action mk ck levels entries :
  Forall2 same_entry entries
    (getMatches_loop modifiers action mk ck None None None levels entries).1.1.
Proof.
  induction entries as [|b rest IH]; cbn [getMatches_loop]; [constructor|].
  pose proof (examine_entry modifiers action mk ck None levels b) as Hb.
  destruct (examine _ _ _ _ _ _ b) as [[b' matched] ran]. cbn in Hb.
  destruct (getMatches_loop _ _ _ _ _ _ _ _ rest) as [[arr ms] ran'].
  destruct matched; rewrite ?deletes_dispatch; cbn; by constructor.
Qed.

Lemma same_registry_refl m : same_registry m m.
Proof.
  intros k. destruct (_callbacks m !! k) as [l|]; constructor.
  induction l; constructor; [by left|done].
Qed.

Lemma getMatches_dispatch_registry character modifiers action mk ck m :
  same_registry m
    (getMatches character modifiers action mk ck None None None m).2.
Proof.
  unfold getMatches.
  destruct (_callbacks m !! character) as [entries|] eqn:E;
    [|apply same_registry_refl].
  pose proof (loop_dispatch_array
                (if bool_decide (action = "keyup") && isModifier character
                 then [character] else modifiers)
                action mk ck (_sequenceLevels m) entries) as Harr.
  destruct (getMatches_loop _ _ _ _ _ _ _ _ _) as [[arr ms] ran]. cbn in *.
  intros k. cbn [_callbacks set_callbacks].
  destruct (decide (k = character)) as [->|Hne].
  - rewrite lookup_insert_eq, E. by constructor.
  - rewrite lookup_insert_ne by done. apply same_registry_refl.
Qed.

Lemma handleKey_effect character modifiers e w :
  let w' := final (handleKey character modifiers e w) in
  classState w' = classState w
  /\ mouseTrapEnabled (self w') = mouseTrapEnabled (self w)
  /\ same_registry (self w) (self w')
  /\ _directMap (self w') = _directMap (self w)
  /\ _resetTimer (self w') = _resetTimer (self w)
  /\ exists added, timers w' = timers w ++ added /\ Forall inert_timer added.
Proof.
  cbn zeta. unfold handleKey.
  pose proof (getMatches_frame character modifiers (type_name (type e))
                (metaKey e) (ctrlKey e) None None None (self w))
    as (Hen & Hdm & _ & Hrt & _).
  pose proof (getMatches_dispatch_registry character modifiers
                (type_name (type e)) (metaKey e) (ctrlKey e) (self w)) as Hreg.
  destruct (getMatches _ _ _ _ _ _ _ _ _) as [[callbacks mods] m1].
  cbn in Hen, Hdm, Hrt, Hreg.
  pose proof (handleKey_loop_effect e (maxLevel_of callbacks) callbacks
                (with_self (fun _ => m1) w) (Locals ∅ false))
    as (H1 & H2 & H3 & H4 & H5 & _ & Ht).
  destruct (handleKey_loop _ _ _ _ _) as [d l]. cbn in H1, H2, H3, H4, H5, Ht.
  assert (Hreg' : same_registry (self w) (self (final d)))
    by (intros k; rewrite H3; apply Hreg).
  destruct (ended d); cbn.
  - destruct (_ && _ && _); cbn.
    + pose proof (resetSequences_frame (doNotReset l) (self (final d)))
        as (G1 & G2 & G3 & _ & _ & G4).
      cbn in G1, G2, G3, G4. rewrite G2, G3, G4.
      refine (conj H1 (conj _ (conj _ (conj _ (conj _ Ht))))); try congruence.
      intros k. cbn [_callbacks set_ignoreNextKeypress]. rewrite G1. apply Hreg'.
    + refine (conj H1 (conj _ (conj Hreg' (conj _ (conj _ Ht))))); congruence.
  - refine (conj H1 (conj _ (conj Hreg' (conj _ (conj _ Ht))))); congruence.
Qed.

(** The class and the timers after a key event. *)
Lemma handleKeyEvent_timers e w :
  let w' := final (handleKeyEvent e w) in
  classState w' = classState w
  /\ _resetTimer (self w') = _resetTimer (self w)
  /\ exists added, timers w' = timers w ++ added /\ Forall inert_timer added.
Proof.
  cbn zeta. unfold handleKeyEvent.
  destruct (negb _); [|destruct (_ && _)]; cbn.
  - do 2 (split; [done|]). exists []. by rewrite app_nil_r.
  - do 2 (split; [done|]). exists []. by rewrite app_nil_r.
  - by destruct (handleKey_effect
                   (characterFromEvent (classState w) (Dom (normalise e)))
                   (eventModifiers (normalise e)) (normalise e) w)
      as (H1 & _ & _ & _ & H5 & H6).
Qed.

(** A key event never adds, removes or moves an entry of the registry (it
    can only sort the modifiers of entries it looked at), and it leaves the
    table of [trigger], the key tables of the class, [mouseTrapEnabled] and
    [_resetTimer] as they were; the only timers it starts are 10ms timers
    with nothing to call. *)
Theorem handleKeyEvent_keeps_bindings e w :
  let w' := final (handleKeyEvent e w) in
  (forall k, option_Forall2 (Forall2 same_entry)
               (_callbacks (self w) !! k) (_callbacks (self w') !! k))
  /\ _directMap (self w') = _directMap (self w)
  /\ classState w' = classState w
  /\ mouseTrapEnabled (self w') = mouseTrapEnabled (self w)
  /\ _resetTimer (self w') = _resetTimer (self w)
  /\ exists added, timers w' = timers w ++ added /\ Forall inert_timer added.
Proof.
  cbn zeta. unfold handleKeyEvent.
  destruct (negb _); [|destruct (_ && _)]; cbn.
  - refine (conj (same_registry_refl _) _). repeat split.
    exists []. by rewrite app_nil_r.
  - refine (conj (same_registry_refl _) _). repeat split.
    exists []. by rewrite app_nil_r.
  - destruct (handleKey_effect
                (characterFromEvent (classState w) (Dom (normalise e)))
                (eventModifiers (normalise e)) (normalise e) w)
      as (H1 & H2 & H3 & H4 & H5 & H6).
    done.
Qed.

(** After [handleKey] returns, the next keypress is to be ignored exactly
    when the event was a keydown and an entry of a sequence was fired; when
    [handleKey] raises, the flag is left as it was. *)
Theorem handleKey_ignoreNextKeypress character modifiers e w :
  let d := handleKey character modifiers e w in
  _ignoreNextKeypress (self (final d)) =
    match ended d with
    | Returned _ =>
        existsb Binding.is_seq (fired d) && bool_decide (type e = keydown)
    | Raised _ => _ignoreNextKeypress (self w)
    end.
Proof.
  cbn zeta. unfold handleKey.
  pose proof (getMatches_frame character modifiers (type_name (type e))
                (metaKey e) (ctrlKey e) None None None (self w))
    as (_ & _ & _ & _ & _ & Hip & _).
  destruct (getMatches _ _ _ _ _ _ _ _ _) as [[callbacks mods] m1].
  cbn in Hip.
  pose proof (handleKey_loop_effect e (maxLevel_of callbacks) callbacks
                (with_self (fun _ => m1) w) (Locals ∅ false))
    as (_ & _ & _ & _ & _ & H6 & _).
  pose proof (handleKey_loop_processed e (maxLevel_of callbacks) callbacks
                (with_self (fun _ => m1) w) (Locals ∅ false)) as Hp.
  destruct (handleKey_loop _ _ _ _ _) as [d l]. cbn in H6, Hp.
  destruct (ended d) eqn:Eend; cbn; rewrite ?Eend; [by rewrite Hp|congruence].
Qed.

(** ** What binding leaves alone *)

Lemma pickBestAction_MAP s k ms action :
  _MAP (pickBestAction s k ms action).2 = _MAP s.
Proof.
  unfold pickBestAction, getReverseMap.
  destruct action as [a|]; [destruct (JsString.truthy a)|]; cbn; try done;
    by destruct (_REVERSE_MAP s).
Qed.

Lemma getKeyInfo_statics s combination action :
  _MAP (getKeyInfo s combination action).2 = _MAP s
  /\ platformIsMac (getKeyInfo s combination action).2 = platformIsMac s.
Proof.
  unfold getKeyInfo. destruct (foldl _ _ _) as [k ms].
  pose proof (pickBestAction_MAP s k ms action).
  pose proof (pickBestAction_platform s k ms action).
  by destruct (pickBestAction s k ms action).
Qed.

Lemma getReverseMap_cached s r :
  _REVERSE_MAP s = Some r -> getReverseMap s = (r, s).
Proof. intros H. unfold getReverseMap. by rewrite H. Qed.

Lemma pickBestAction_cached s r k ms action :
  _REVERSE_MAP s = Some r -> (pickBestAction s k ms action).2 = s.
Proof.
  intros H. unfold pickBestAction. rewrite (getReverseMap_cached s r H).
  destruct action as [a|]; [destruct (JsString.truthy a)|]; done.
Qed.

Lemma getKeyInfo_cached s r combination action :
  _REVERSE_MAP s = Some r -> (getKeyInfo s combination action).2 = s.
Proof.
  intros H. unfold getKeyInfo. destruct (foldl _ _ _) as [k ms].
  pose proof (pickBestAction_cached s r k ms action H).
  by destruct (pickBestAction s k ms action).
Qed.

Lemma bind_effect_refl w : bind_effect w w.
Proof. repeat split. by left. Qed.

Lemma bind_effect_trans w1 w2 w3 :
  bind_effect w1 w2 -> bind_effect w2 w3 -> bind_effect w1 w3.
Proof.
  intros (H1 & H2 & H3 & H4 & H5 & H6 & H7 & H8 & H9 & Hl & Hc)
         (G1 & G2 & G3 & G4 & G5 & G6 & G7 & G8 & G9 & Gl & Gc).
  unfold bind_effect.
  refine (conj _ (conj _ (conj _ (conj _ (conj _ (conj _ (conj _ (conj _
           (conj _ (conj _ _)))))))))); try congruence.
  - intros c. destruct (Gl c) as [G|G]; [|by right].
    rewrite G. apply Hl.
  - intros r Hr. pose proof (Hc r Hr) as E12.
    rewrite <- E12. apply (Gc r). by rewrite E12.
Qed.

Lemma bindSingle_with_effect bindSeq k cb action sn lv w :
  (forall c ks cb' a w', bind_effect w' (bindSeq c ks cb' a w')) ->
  bind_effect w (bindSingle_with bindSeq k cb action sn lv w).
Proof.
  intros Hseq. unfold bindSingle_with.
  set (w1 := with_self _ w).
  assert (Hw1 : bind_effect w w1) by (repeat split; by left).
  destruct (Nat.ltb 1 _);
    [by eapply bind_effect_trans; [exact Hw1|apply Hseq]|].
  pose proof (getKeyInfo_statics (classState w1) (JsString.replace_spaces k) action)
    as [HM Hp].
  destruct (getKeyInfo _ _ _) as [info s'] eqn:Eki. cbn in HM, Hp.
  set (m1 := set_callbacks _ (self w1)).
  pose proof (getMatches_frame (KeyInfo.key info) (KeyInfo.modifiers info)
                (KeyInfo.action info) false false sn
                (Some (JsString.replace_spaces k)) lv m1)
    as (F1 & F2 & F3 & F4 & F5 & F6 & F7).
  destruct (getMatches _ _ _ _ _ _ _ _ _) as [[ms mods] m2]. cbn in *.
  unfold bind_effect. cbn.
  refine (conj F1 (conj F4 (conj F5 (conj F6 (conj F7 _))))).
  repeat split; try done; [intros c; left; by rewrite F3|].
  intros r Hr.
  pose proof (getKeyInfo_cached (classState w) r (JsString.replace_spaces k)
                action Hr) as Hs.
  by rewrite Eki in Hs.
Qed.

Lemma bindSequence_loop_effect bindSingle combo cb action keys :
  (forall k cb' a sn lv w', bind_effect w' (bindSingle k cb' a sn lv w')) ->
  forall i w, bind_effect w (bindSequence_loop bindSingle combo cb action i keys w).
Proof.
  intros Hsingle. induction keys as [|k rest IH]; intros i w;
    [apply bind_effect_refl|]. cbn.
  assert (H1 : bind_effect w
            (match rest with
             | [] => (CallbackAndReset cb combo action, w)
             | next :: _ =>
                 if JsString.truthy_opt action
                 then (IncreaseSequence combo (JsString.of_opt action), w)
                 else let '(info, s') := getKeyInfo (classState w) next None in
                      (IncreaseSequence combo (KeyInfo.action info),
                       with_classState s' w)
             end).2).
  { destruct rest as [|next rest']; [apply bind_effect_refl|].
    destruct (JsString.truthy_opt action); [apply bind_effect_refl|].
    pose proof (getKeyInfo_statics (classState w) next None) as [HM Hp].
    destruct (getKeyInfo _ _ _) as [info s'] eqn:Eki. cbn in *.
    repeat split; try done; [by left|].
    intros r Hr. pose proof (getKeyInfo_cached (classState w) r next None Hr) as Hs.
    by rewrite Eki in Hs. }
  destruct (match rest with [] => _ | _ :: _ => _ end) as [wrapped w1].
  cbn in H1.
  eapply bind_effect_trans; [exact H1|].
  eapply bind_effect_trans; [apply Hsingle|apply IH].
Qed.

Lemma bindSequence_with_effect bindSingle combo keys cb action w :
  (forall k cb' a sn lv w', bind_effect w' (bindSingle k cb' a sn lv w')) ->
  bind_effect w (bindSequence_with bindSingle combo keys cb action w).
Proof.
  intros Hsingle. unfold bindSequence_with.
  eapply bind_effect_trans; [|by apply bindSequence_loop_effect].
  repeat split. intros c. cbn.
  destruct (decide (c = combo)) as [->|Hne].
  - right. apply lookup_insert_eq.
  - left. by apply lookup_insert_ne.
Qed.

Lemma bindSingle_effect k cb action sn lv w :
  bind_effect w (_bindSingle k cb action sn lv w).
Proof.
  apply bindSingle_with_effect. intros c ks cb' a w'.
  apply bindSequence_with_effect. intros.
  apply bindSingle_with_effect. intros. apply bind_effect_refl.
Qed.

Lemma bind_effect_bind keys cb action w : bind_effect w (bind keys cb action w).
Proof.
  unfold bind, _bindMultiple.
  generalize (match keys with Key k => [k] | Keys l => l end) as l.
  intros l. revert w. induction l as [|k l IH]; intros w;
    [apply bind_effect_refl|]. cbn.
  eapply bind_effect_trans; [apply bindSingle_effect|apply IH].
Qed.

(** Binding changes the registry, the table of [trigger] and the cache of
    the reverse map, and nothing else: the flags, the expected action, the
    timers and the key table of the class are as before, and the level of a
    sequence is as before or 0.  The cache of the reverse map is only ever
    filled: when it holds a map, the class is left as it is. *)
Theorem bind_leaves_the_rest keys cb action w :
  let w' := bind keys cb action w in
  mouseTrapEnabled (self w') = mouseTrapEnabled (self w)
  /\ _resetTimer (self w') = _resetTimer (self w)
  /\ _ignoreNextKeyup (self w') = _ignoreNextKeyup (self w)
  /\ _ignoreNextKeypress (self w') = _ignoreNextKeypress (self w)
  /\ _nextExpectedAction (self w') = _nextExpectedAction (self w)
  /\ timers w' = timers w
  /\ nextTimerId w' = nextTimerId w
  /\ _MAP (classState w') = _MAP (classState w)
  /\ platformIsMac (classState w') = platformIsMac (classState w)
  /\ (forall c, _sequenceLevels (self w') !! c = _sequenceLevels (self w) !! c
                \/ _sequenceLevels (self w') !! c = Some (Num 0))
  /\ (forall r, _REVERSE_MAP (classState w) = Some r -> classState w' = classState w).
Proof.
  cbn zeta.
  destruct (bind_effect_bind keys cb action w)
    as (H1 & H2 & H3 & H4 & H5 & H6 & H7 & H8 & H9 & H10 & H11).
  done.
Qed.

(** Binding a sequence (a combination of two keys or more) puts the level
    of the sequence to 0, whatever progress it had. *)
Theorem bind_sequence_restarts_it k cb action w :
  let combo := JsString.replace_spaces k in
  1 < length (JsString.split " " combo) ->
  _sequenceLevels (self (bind (Key k) cb action w)) !! combo = Some (Num 0).
Proof.
  cbn zeta. intros Hlen. unfold bind, _bindMultiple. cbn [foldl].
  unfold _bindSingle, bindSingle_with.
  apply Nat.ltb_lt in Hlen. rewrite Hlen.
  set (w1 := with_self _ w).
  unfold bindSequence, bindSequence_with.
  set (w2 := with_self _ w1).
  assert (H0 : _sequenceLevels (self w2) !! JsString.replace_spaces k = Some (Num 0))
    by apply lookup_insert_eq.
  destruct (bindSequence_loop_effect bindSingle_key (JsString.replace_spaces k)
              cb action (JsString.split " " (JsString.replace_spaces k))
              (fun k' cb' a sn lv w' =>
                 bindSingle_with_effect _ k' cb' a sn lv w'
                   (fun _ _ _ _ w'' => bind_effect_refl w'')) 0 w2)
    as (_ & _ & _ & _ & _ & _ & _ & _ & _ & Hl & _).
  destruct (Hl (JsString.replace_spaces k)) as [H|H]; [by rewrite H|done].
Qed.

(** Rebinding [g i] after its first key was typed takes the sequence back to
    level 0. *)
Lemma bind_sequence_restarts_it_witness :
  let w := final (handleKeyEvent (Sample.key keypress 103) Sample.g_i) in
  1 < length (JsString.split " " (JsString.replace_spaces "g  i"))
  /\ _sequenceLevels (self w) !! "g i" = Some (Num 1)
  /\ _sequenceLevels (self (bind (Key "g  i") (UserFn 2 false) None w)) !! "g i"
     = Some (Num 0).
Proof.
  cbn zeta.
  assert (Hlen : 1 < length (JsString.split " " (JsString.replace_spaces "g  i")))
    by (vm_compute; lia).
  refine (conj Hlen (conj _ _)).
  - vm_compute. reflexivity.
  - exact (bind_sequence_restarts_it "g  i" (UserFn 2 false) None _ Hlen).
Defined.

(** ** Timers *)

Lemma step_timers_inert w o : timers_inert w -> timers_inert (step w o).
Proof.
  intros [Hrt Hts]. destruct o; cbn [step].
  - destruct (bind_effect_bind keys cb action w)
      as (_ & H2 & _ & _ & _ & H6 & _).
    split; [by rewrite H2|by rewrite H6].
  - destruct (bind_effect_bind keys EmptyFn action w)
      as (_ & H2 & _ & _ & _ & H6 & _).
    unfold unbind. split; [by rewrite H2|by rewrite H6].
  - unfold trigger. destruct (_directMap (self w) !! _) as [cb|]; [|done].
    destruct (invoke_effect cb EmptyObject keys w)
      as (_ & _ & _ & _ & H5 & _ & added & Ht & Ha).
    split; [by rewrite H5|]. rewrite Ht. by apply Forall_app.
  - done.
  - done.
  - done.
  - done.
  - destruct (handleKeyEvent_timers e w) as (_ & H5 & added & Ht & Ha).
    split; [by rewrite H5|]. rewrite Ht. by apply Forall_app.
  - unfold expire. destruct (List.find _ _) as [t|]; [|done].
    assert (H : timers_inert (clearTimeout (Some id) w)).
    { split; [done|]. cbn. apply Forall_forall. intros x [_ Hx]%list_elem_of_filter.
      by eapply Forall_forall in Hts. }
    by destruct (handler t).
Qed.

Lemma reachable_timers_inert w : reachable w -> timers_inert w.
Proof.
  intros (mac & ops & ->).
  assert (H : forall w0, timers_inert w0 -> timers_inert (foldl step w0 ops)).
  { induction ops as [|o ops IH]; intros w0 Hw0; [done|]. cbn.
    by apply IH, step_timers_inert. }
  apply H. by split.
Qed.

(** In every state an engine reaches, [_resetTimer] is undefined (the
    one-second timer of a sequence was never started) and every pending timer
    is a 10ms timer that holds nothing to call: when a timer expires nothing
    is raised and the engine is left as it is, so no timer ever resets a
    sequence. *)
Theorem reachable_timers_do_nothing w :
  reachable w ->
  _resetTimer (self w) = None
  /\ Forall (fun t => handler t = UndefinedProperty /\ delay t = 10%N) (timers w)
  /\ forall id, (expire id w).2 = Returned OtherValue
                /\ self (expire id w).1 = self w
                /\ classState (expire id w).1 = classState w.
Proof.
  intros [Hrt Hts]%reachable_timers_inert. refine (conj Hrt (conj Hts _)).
  intros id. unfold expire.
  destruct (List.find _ _) as [t|] eqn:E; [|done].
  apply find_some in E as [Hin _].
  apply list_elem_of_In in Hin. eapply Forall_forall in Hts as [Hh _]; [|exact Hin].
  by rewrite Hh.
Qed.

(** After [g] and [i] of the bound sequence [g i], one timer is pending; its
    expiry changes nothing. *)
Lemma reachable_timers_do_nothing_witness :
  let w := foldl step (world0 false)
             [OpBind (Key "g i") (UserFn 1 false) None;
              OpKeyEvent (Sample.key keypress 103);
              OpKeyEvent (Sample.key keypress 105)] in
  reachable w
  /\ timers w = [Timer 0 UndefinedProperty 10]
  /\ _resetTimer (self w) = None
  /\ self (expire 0 w).1 = self w.
Proof.
  cbn zeta.
  set (w := foldl step (world0 false) _).
  assert (Hw : reachable w) by (exists false; eexists; reflexivity).
  destruct (reachable_timers_do_nothing w Hw) as (Hrt & _ & Hexp).
  refine (conj Hw (conj _ (conj Hrt (proj1 (proj2 (Hexp 0)))))).
  vm_compute. reflexivity.
Defined.

(** ** [trigger] and the table [_bindSingle] fills *)

Lemma length_append a s :
  String.length (a +:+ s) = String.length a + String.length s.
Proof.
  induction a as [|c a IH]; [by rewrite append_nil_l|].
  rewrite append_cons. cbn. by rewrite IH.
Qed.

Lemma append_inj_l a b s : a +:+ s = b +:+ s -> a = b.
Proof.
  revert b. induction a as [|c a IH]; intros [|d b] H.
  - done.
  - apply (f_equal String.length) in H. rewrite !length_append in H.
    cbn in H. lia.
  - apply (f_equal String.length) in H. rewrite !length_append in H.
    cbn in H. lia.
  - rewrite !append_cons in H. injection H as -> H. by rewrite (IH _ H).
Qed.

(** A combination without white space is no sequence. *)
Lemma sequence_has_space k :
  1 < length (JsString.split " " (JsString.replace_spaces k)) ->
  any_space k = true.
Proof.
  intros Hlen. destruct (any_space k) eqn:E; [done|].
  unfold JsString.replace_spaces in Hlen.
  rewrite collapse_no_space, split_none in Hlen by by try apply any_space_mem.
  cbn in Hlen. lia.
Qed.

Lemma bindSingle_key_directMap p cb action sn lv w :
  _directMap (self (bindSingle_key p cb action sn lv w)) =
  <[p +:+ ":" +:+ JsString.of_opt action := cb]> (_directMap (self w)).
Proof.
  unfold bindSingle_key, bindSingle_with.
  destruct (Nat.ltb 1 _); [done|].
  destruct (getKeyInfo _ _ _) as [info s'].
  match goal with
  | |- context [getMatches ?c ?ms ?a ?mk ?ck ?sn' ?cn ?l ?m] =>
      pose proof (getMatches_frame c ms a mk ck sn' cn l m) as (_ & F2 & _);
      destruct (getMatches c ms a mk ck sn' cn l m) as [[x y] m2]
  end.
  cbn in *. by rewrite F2.
Qed.

Lemma bindSequence_loop_directMap combo cb action key keys :
  (forall p, p ∈ keys -> key <> p +:+ ":" +:+ JsString.of_opt action) ->
  forall i w,
    _directMap (self (bindSequence_loop bindSingle_key combo cb action i keys w))
      !! key = _directMap (self w) !! key.
Proof.
  induction keys as [|k rest IH]; intros Hne i w; [done|]. cbn.
  assert (H1 : self (match rest with
                     | [] => (CallbackAndReset cb combo action, w)
                     | next :: _ =>
                         if JsString.truthy_opt action
                         then (IncreaseSequence combo (JsString.of_opt action), w)
                         else let '(info, s') := getKeyInfo (classState w) next None in
                              (IncreaseSequence combo (KeyInfo.action info),
                               with_classState s' w)
                     end).2 = self w).
  { destruct rest; [done|]. destruct (JsString.truthy_opt action); [done|].
    by destruct (getKeyInfo _ _ _). }
  destruct (match rest with [] => _ | _ :: _ => _ end) as [wrapped w1].
  cbn in H1. rewrite IH by (intros p Hp; apply Hne; by right).
  rewrite bindSingle_key_directMap, lookup_insert_ne, H1; [done|].
  intros Heq. by apply (Hne k); [left|].
Qed.

Lemma bindSequence_loop_last combo cb action keys :
  keys <> [] ->
  forall i w,
    _directMap (self (bindSequence_loop bindSingle_key combo cb action i keys w))
      !! (List.last keys "" +:+ ":" +:+ JsString.of_opt action)
    = Some (CallbackAndReset cb combo action).
Proof.
  induction keys as [|k rest IH]; intros Hne i w; [done|].
  destruct rest as [|k' rest'].
  - cbn. rewrite bindSingle_key_directMap. apply lookup_insert_eq.
  - change (List.last (k :: k' :: rest') "") with (List.last (k' :: rest') "").
    cbn [bindSequence_loop]. destruct (if JsString.truthy_opt action then _ else _).
    by apply IH.
Qed.

Lemma bindSingle_directMap k cb action w :
  _directMap (self (_bindSingle k cb action None None w))
    !! (k +:+ ":" +:+ JsString.of_opt action) = Some cb.
Proof.
  unfold _bindSingle, bindSingle_with.
  set (w1 := with_self _ w).
  assert (H1 : _directMap (self w1) !! (k +:+ ":" +:+ JsString.of_opt action)
               = Some cb) by apply lookup_insert_eq.
  destruct (Nat.ltb 1 _) eqn:Hlen.
  - apply Nat.ltb_lt in Hlen. pose proof (sequence_has_space k Hlen) as Hk.
    unfold bindSequence, bindSequence_with.
    rewrite bindSequence_loop_directMap; [done|].
    intros p Hp Heq. apply append_inj_l in Heq. subst p.
    apply split_tokens_no_space in Hp; [congruence|].
    apply collapse_only_plain_spaces.
  - destruct (getKeyInfo _ _ _) as [info s'].
    match goal with
    | |- context [getMatches ?c ?ms ?a ?mk ?ck ?sn' ?cn ?l ?m] =>
        pose proof (getMatches_frame c ms a mk ck sn' cn l m) as (_ & F2 & _);
        destruct (getMatches c ms a mk ck sn' cn l m) as [[x y] m2]
    end.
    cbn in *. by rewrite F2.
Qed.

(** [trigger(keys, action)] right after [bind(keys, callback, action)] calls
    that callback with [{}] and [keys], directly: not through
    [_fireCallback], so neither [pause()] nor [stopCallback] stops it and a
    callback that returns [false] raises nothing.  After [unbind] it calls
    the empty function. *)
Theorem trigger_after_bind k action w :
  (forall cb,
      let w' := bind (Key k) cb action w in
      trigger k action w' = invoke cb EmptyObject k w')
  /\ (forall id returns_false,
        let w' := bind (Key k) (UserFn id returns_false) action w in
        calls (trigger k action w') = [(id, k)]
        /\ (exists v, outcome (trigger k action w') = Returned v)
        /\ after (trigger k action w') = w')
  /\ (let w' := unbind (Key k) action w in
      trigger k action w' = Run w' [] (Returned OtherValue)).
Proof.
  assert (H : forall cb,
             trigger k action (bind (Key k) cb action w) =
             invoke cb EmptyObject k (bind (Key k) cb action w)).
  { intros cb. unfold trigger, bind, _bindMultiple. cbn [foldl].
    by rewrite bindSingle_directMap. }
  split; [exact H|]. split.
  - intros id rf. cbn zeta. rewrite H. cbn. by eauto.
  - cbn zeta. unfold unbind. by rewrite H.
Qed.

(** Binding a sequence also stores, under its last key, the wrapper that
    ends the sequence: [trigger] of that key then runs the wrapper, whose
    [_fireCallback] asks [stopCallback] about the target of [{}], which is
    undefined, and raises while the engine is enabled. *)
Theorem sequence_takes_over_trigger k cb action w :
  let combo := JsString.replace_spaces k in
  let keys := JsString.split " " combo in
  let w' := bind (Key k) cb action w in
  1 < length keys ->
  _directMap (self w') !! (List.last keys "" +:+ ":" +:+ JsString.of_opt action)
    = Some (CallbackAndReset cb combo action)
  /\ (mouseTrapEnabled (self w) = true ->
      trigger (List.last keys "") action w'
        = Run w' [] (Raised "element is undefined")).
Proof.
  cbn zeta. intros Hlen.
  assert (Hmap : _directMap (self (bind (Key k) cb action w))
                   !! (List.last (JsString.split " " (JsString.replace_spaces k)) ""
                       +:+ ":" +:+ JsString.of_opt action)
                 = Some (CallbackAndReset cb (JsString.replace_spaces k) action)).
  { unfold bind, _bindMultiple. cbn [foldl].
    unfold _bindSingle, bindSingle_with.
    pose proof Hlen as Hlt. apply Nat.ltb_lt in Hlt. rewrite Hlt.
    unfold bindSequence, bindSequence_with.
    apply bindSequence_loop_last. intros E. rewrite E in Hlen. cbn in Hlen. lia. }
  split; [exact Hmap|]. intros Hen.
  unfold trigger. rewrite Hmap. cbn [invoke]. unfold fireCallback_with.
  destruct (bind_effect_bind (Key k) cb action w) as (H1 & _).
  unfold stopCallback. rewrite H1, Hen. done.
Qed.

(** After [bind('g i', f)], [trigger('i')] raises. *)
Lemma sequence_takes_over_trigger_witness :
  1 < length (JsString.split " " (JsString.replace_spaces "g i"))
  /\ trigger "i" None Sample.g_i = Run Sample.g_i [] (Raised "element is undefined").
Proof.
  assert (Hlen : 1 < length (JsString.split " " (JsString.replace_spaces "g i")))
    by (vm_compute; lia).
  split; [exact Hlen|].
  exact (proj2 (sequence_takes_over_trigger "g i" (UserFn 1 false) None
                  (world0 false) Hlen) eq_refl).
Defined.

(** ** The action a combination is bound to *)

Lemma pickBestAction_cases s key modifiers action :
  let a := (pickBestAction s key modifiers action).1 in
  (a = "keypress" -> modifiers = [])
  /\ (forall x, action = Some x -> x <> "" -> x <> "keypress" -> a = x)
  /\ (forall x, action = Some x -> x = "keypress" ->
      a = if bool_decide (modifiers = []) then "keypress" else "keydown")
  /\ (JsString.truthy_opt action = false -> a = "keydown" \/ a = "keypress").
Proof.
  cbn zeta. unfold pickBestAction.
  assert (Hdefault : forall c : bool,
             let a0 := if c then "keydown" else "keypress" in
             let a := if String.eqb a0 "keypress"
                         && negb (bool_decide (modifiers = []))
                      then "keydown" else a0 in
             (a = "keypress" -> modifiers = [])
             /\ (a = "keydown" \/ a = "keypress")).
  { intros [|]; cbn; [by split; [|left]|].
    case_bool_decide; cbn; [by split; [|right]|by split; [|left]]. }
  destruct action as [x|]; [destruct (JsString.truthy x) eqn:Hx|].
  - cbn [fst]. destruct (String.eqb x "keypress") eqn:E; cbn.
    + apply String.eqb_eq in E as ->.
      case_bool_decide; cbn; repeat split; try done; by intros ? [= <-].
    + apply String.eqb_neq in E.
      repeat split; try done; try by intros ? [= <-].
      cbn in Hx. by rewrite Hx.
  - destruct (getReverseMap s) as [r s'].
    destruct (Hdefault (bool_decide (is_Some (r !! key)))) as [H1 H2].
    assert (Hc : (if r !! key is Some _ then "keydown" else "keypress")
                 = if bool_decide (is_Some (r !! key)) then "keydown" else "keypress").
    { destruct (r !! key); [by rewrite bool_decide_eq_true_2|].
      rewrite bool_decide_eq_false_2; [done|]. by intros [? ?]. }
    cbn [fst]. rewrite Hc. cbn zeta in H1, H2.
    refine (conj H1 (conj _ (conj _ (fun _ => H2)))).
    + intros y [= <-] Hne. unfold JsString.truthy in Hx.
      apply negb_false_iff, String.eqb_eq in Hx. done.
    + intros y [= <-] ->. done.
  - destruct (getReverseMap s) as [r s'].
    destruct (Hdefault (bool_decide (is_Some (r !! key)))) as [H1 H2].
    assert (Hc : (if r !! key is Some _ then "keydown" else "keypress")
                 = if bool_decide (is_Some (r !! key)) then "keydown" else "keypress").
    { destruct (r !! key); [by rewrite bool_decide_eq_true_2|].
      rewrite bool_decide_eq_false_2; [done|]. by intros [? ?]. }
    cbn [fst]. rewrite Hc. cbn zeta in H1, H2.
    by refine (conj H1 (conj _ (conj _ (fun _ => H2)))).
Qed.

(** The action [#getKeyInfo] gives a combination: never [keypress] when the
    combination has a modifier (it is then [keydown]); the action passed in
    when one other than [keypress] is passed; [keydown] or [keypress] when
    none is passed. *)
Theorem getKeyInfo_action s combination action :
  let info := (getKeyInfo s combination action).1 in
  (KeyInfo.action info = "keypress" -> KeyInfo.modifiers info = [])
  /\ (forall x, action = Some x -> x <> "" -> x <> "keypress" ->
      KeyInfo.action info = x)
  /\ (action = Some "keypress" ->
      KeyInfo.action info =
        if bool_decide (KeyInfo.modifiers info = []) then "keypress" else "keydown")
  /\ (JsString.truthy_opt action = false ->
      KeyInfo.action info = "keydown" \/ KeyInfo.action info = "keypress").
Proof.
  cbn zeta. unfold getKeyInfo. destruct (foldl _ _ _) as [k ms].
  destruct (pickBestAction_cases s k ms action) as (H1 & H2 & H3 & H4).
  destruct (pickBestAction s k ms action) as [a s']. cbn in *.
  refine (conj H1 (conj H2 (conj _ H4))).
  intros ->. by apply (H3 "keypress").
Qed.

(** ** [#modifiersMatch] and [#eventModifiers] *)

Lemma insert_sorted_Sorted x l :
  Sorted String.le l -> Sorted String.le (JsString.insert_sorted x l).
Proof.
  induction l as [|y l IH]; intros Hl; cbn; [by repeat constructor|].
  destruct (String.leb x y) eqn:E.
  - constructor; [done|]. constructor. unfold String.le. by rewrite E.
  - apply Sorted_inv in Hl as [Hl Hy]. constructor; [by apply IH|].
    assert (Hyx : String.le y x).
    { destruct (String.leb_total x y) as [H|H]; [congruence|].
      unfold String.le. by rewrite H. }
    destruct l as [|z l]; cbn; [by constructor|].
    destruct (String.leb x z); constructor; [done|].
    by apply HdRel_inv in Hy.
Qed.

Lemma sort_Sorted l : Sorted String.le (JsString.sort l).
Proof.
  induction l as [|x l IH]; cbn; [constructor|by apply insert_sorted_Sorted].
Qed.

(** [sort()] gives arrays with the same elements the same result. *)
Lemma sort_of_perm a b : a ≡ₚ b -> JsString.sort a = JsString.sort b.
Proof.
  intros H. apply (Sorted_unique String.le); try apply sort_Sorted.
  by rewrite !sort_perm.
Qed.

Lemma modifiersMatch_iff a b :
  Forall joinable a -> Forall joinable b ->
  modifiersMatch a b = true <-> a ≡ₚ b.
Proof.
  intros Ha Hb. unfold modifiersMatch. rewrite String.eqb_eq. split.
  - intros H. apply join_comma_inj in H; try by rewrite sort_perm.
    rewrite <- (sort_perm a), <- (sort_perm b). by rewrite H.
  - intros H. by rewrite (sort_of_perm a b H).
Qed.

Lemma eventModifiers_NoDup e : NoDup (eventModifiers e).
Proof.
  unfold eventModifiers.
  destruct (shiftKey e), (altKey e), (ctrlKey e), (metaKey e); cbn;
    repeat (constructor; [not_in_literals|]); constructor.
Qed.

(** [#modifiersMatch] on names that are not empty and hold no comma (as
    the modifier names are): the two arrays match exactly when they hold the
    same names the same number of times, in any order.  [#eventModifiers]
    gives each held modifier once, so an entry whose modifiers repeat a name
    matches no such array. *)
Theorem modifiersMatch_is_equality_up_to_order :
  (forall a b, Forall joinable a -> Forall joinable b ->
     (modifiersMatch a b = true <-> a ≡ₚ b))
  /\ (forall e x, x ∈ eventModifiers e <->
        (x = "shift" /\ shiftKey e = true) \/ (x = "alt" /\ altKey e = true)
        \/ (x = "ctrl" /\ ctrlKey e = true) \/ (x = "meta" /\ metaKey e = true))
  /\ (forall e, NoDup (eventModifiers e))
  /\ (forall e modifiers,
        Forall (fun x => isModifier x = true) modifiers ->
        ~ NoDup modifiers ->
        modifiersMatch (eventModifiers e) modifiers = false).
Proof.
  split; [exact modifiersMatch_iff|]. split; [|split; [exact eventModifiers_NoDup|]].
  - intros e x. unfold eventModifiers.
    destruct (shiftKey e), (altKey e), (ctrlKey e), (metaKey e); cbn;
      rewrite ?elem_of_cons, ?elem_of_nil; intuition congruence.
  - intros e modifiers Hm Hdup.
    destruct (modifiersMatch (eventModifiers e) modifiers) eqn:E; [|done].
    exfalso. apply Hdup. apply modifiersMatch_iff in E.
    + rewrite <- E. apply eventModifiers_NoDup.
    + eapply Forall_impl; [apply eventModifiers_are_modifiers|].
      apply isModifier_joinable.
    + eapply Forall_impl; [exact Hm|]. apply isModifier_joinable.
Qed.

(** ** The reverse map and the default action *)

Lemma step_reverse_map w o r :
  (forall object, o <> OpAddKeycodes object) ->
  _REVERSE_MAP (classState w) = Some r ->
  classState (step w o) = classState w.
Proof.
  intros Ho Hr. destruct o; cbn [step].
  - destruct (bind_effect_bind keys cb action w) as (_ & _ & _ & _ & _ & _ & _ & _ & _ & _ & H).
    by apply (H r).
  - destruct (bind_effect_bind keys EmptyFn action w)
      as (_ & _ & _ & _ & _ & _ & _ & _ & _ & _ & H).
    by apply (H r).
  - unfold trigger. destruct (_directMap (self w) !! _) as [cb|]; [|done].
    by destruct (invoke_effect cb EmptyObject keys w) as (H & _).
  - done.
  - done.
  - done.
  - by destruct (Ho object).
  - by destruct (handleKeyEvent_timers e w) as (H & _).
  - unfold expire. destruct (List.find _ _) as [t|]; [|done].
    by destruct (handler t).
Qed.

(** What the loop of [#getReverseMap] has stored. *)
Lemma reverse_loop_lookup (l : list (N * string)) (r0 : gmap string N) v :
  is_Some (foldl (fun r kv =>
                    if ((95 <? kv.1) && (kv.1 <? 112))%N then r
                    else <[kv.2 := kv.1]> r) r0 l !! v)
  <-> is_Some (r0 !! v)
      \/ exists k, (k, v) ∈ l /\ ((95 <? k) && (k <? 112))%N = false.
Proof.
  revert r0. induction l as [|[k' v'] l IH]; intros r0; cbn [foldl].
  - split; [by left|]. intros [H|(k & Hk & _)]; [done|].
    by apply elem_of_nil in Hk.
  - rewrite IH. cbn [fst snd].
    destruct ((95 <? k') && (k' <? 112))%N eqn:E.
    + split.
      * intros [H|(k & Hk & Hok)]; [by left|].
        right. exists k. split; [by right|done].
      * intros [H|(k & Hk & Hok)]; [by left|].
        apply elem_of_cons in Hk as [[= -> ->]|Hk]; [congruence|].
        right. by exists k.
    + split.
      * intros [H|(k & Hk & Hok)].
        -- destruct (decide (v = v')) as [->|Hne].
           ++ right. exists k'. split; [left|done].
           ++ left. by rewrite lookup_insert_ne in H.
        -- right. exists k. split; [by right|done].
      * intros [H|(k & Hk & Hok)].
        -- left. destruct (decide (v = v')) as [->|Hne].
           ++ rewrite lookup_insert_eq. by eexists.
           ++ by rewrite lookup_insert_ne.
        -- apply elem_of_cons in Hk as [[= -> ->]|Hk].
           ++ left. rewrite lookup_insert_eq. by eexists.
           ++ right. by exists k.
Qed.

Lemma keys_ascending_elem (m : gmap N string) k v :
  (k, v) ∈ keys_ascending m <-> m !! k = Some v.
Proof.
  unfold keys_ascending. rewrite merge_sort_Permutation.
  apply elem_of_map_to_list.
Qed.

(** Until [addKeycodes] is called the reverse map is the empty object the
    class starts with ([#getReverseMap] builds the map only when the field
    is falsy, and [{}] is not): a key bound without an action gets
    [keypress] when the combination has no modifier and [keydown] when it
    has one, whatever the key ([enter], [esc], ... included). *)
Theorem reverse_map_empty_until_addKeycodes mac ops :
  Forall (fun o => forall object, o <> OpAddKeycodes object) ops ->
  let w := foldl step (world0 mac) ops in
  _REVERSE_MAP (classState w) = Some ∅
  /\ (forall key modifiers action,
        key ∉ inherited_names -> JsString.truthy_opt action = false ->
        pickBestAction (classState w) key modifiers action =
          (if bool_decide (modifiers = []) then "keypress" else "keydown",
           classState w)).
Proof.
  intros Hops. cbn zeta.
  assert (Hcls : classState (foldl step (world0 mac) ops) = statics0 mac).
  { assert (H : forall w0, _REVERSE_MAP (classState w0) = Some ∅ ->
                           classState (foldl step w0 ops) = classState w0).
    { induction Hops as [|o ops Ho Hops IH]; intros w0 Hw0; [done|]. cbn.
      pose proof (step_reverse_map w0 o ∅ Ho Hw0) as Hs.
      rewrite IH; [done|]. by rewrite Hs. }
    by apply H. }
  rewrite Hcls. split; [done|].
  intros key modifiers action _ Hact. unfold pickBestAction.
  assert (Hg : getReverseMap (statics0 mac) = (∅, statics0 mac)) by done.
  rewrite Hg, lookup_empty.
  destruct action as [a|]; [cbn in Hact; rewrite Hact|];
    by case_bool_decide.
Qed.

(** After [bind('enter', f)] on a fresh class the entry listens to
    [keypress]. *)
Lemma reverse_map_empty_until_addKeycodes_witness :
  let w := foldl step (world0 false) [OpBind (Key "enter") (UserFn 1 false) None] in
  _REVERSE_MAP (classState w) = Some ∅
  /\ _callbacks (self w) !! "enter" = Some [Sample.plain (UserFn 1 false) "keypress" "enter"].
Proof.
  cbn zeta. split.
  - refine (proj1 (reverse_map_empty_until_addKeycodes false
                     [OpBind (Key "enter") (UserFn 1 false) None] _)).
    repeat constructor. intros object. discriminate.
  - vm_compute. reflexivity.
Defined.

(** After [addKeycodes] the reverse map is built anew by the next parse: a
    key bound without an action and without a modifier gets [keydown]
    exactly when its name is in [_MAP] under a code outside 96..111, and
    [keypress] otherwise; the map built is kept. *)
Theorem default_action_after_addKeycodes object s key :
  key ∉ inherited_names ->
  let s' := addKeycodes object s in
  let named := exists k, _MAP s' !! k = Some key
                         /\ ((95 <? k) && (k <? 112))%N = false in
  (named -> (pickBestAction s' key [] None).1 = "keydown")
  /\ (~ named -> (pickBestAction s' key [] None).1 = "keypress")
  /\ _MAP (pickBestAction s' key [] None).2 = _MAP s'
  /\ is_Some (_REVERSE_MAP (pickBestAction s' key [] None).2).
Proof.
  intros _. cbn zeta. unfold pickBestAction, getReverseMap.
  cbn [addKeycodes _REVERSE_MAP _MAP platformIsMac fst snd].
  set (m := foldl _ (_MAP s) object).
  pose proof (reverse_loop_lookup (keys_ascending m) ∅ key) as Hr.
  set (r := foldl _ ∅ (keys_ascending m)) in *.
  assert (Hnamed : is_Some (r !! key)
                   <-> exists k, m !! k = Some key
                                 /\ ((95 <? k) && (k <? 112))%N = false).
  { rewrite Hr. split.
    - intros [H|(k & Hk & Hok)]; [rewrite lookup_empty in H; by destruct H|].
      exists k. split; [by apply keys_ascending_elem|done].
    - intros (k & Hk & Hok). right. exists k.
      split; [by apply keys_ascending_elem|done]. }
  split; [|split; [|split]].
  - intros H%Hnamed. by destruct H as [x ->].
  - intros H. destruct (r !! key) eqn:E; [|done].
    exfalso. apply H, Hnamed. by eexists.
  - done.
  - by eexists.
Qed.

(** With [addKeycodes({})] on the class as loaded, [enter] gets [keydown]
    and [a] gets [keypress]. *)
Lemma default_action_after_addKeycodes_witness :
  ("enter" ∉ inherited_names)
  /\ (pickBestAction (addKeycodes [] (statics0 false)) "enter" [] None).1 = "keydown"
  /\ (pickBestAction (addKeycodes [] (statics0 false)) "a" [] None).1 = "keypress".
Proof.
  assert (He : "enter" ∉ inherited_names) by not_in_literals.
  refine (conj He (conj _ _)).
  - apply (default_action_after_addKeycodes [] (statics0 false) "enter" He).
    exists 13%N. split; vm_compute; reflexivity.
  - vm_compute. reflexivity.
Defined.

(** ** The key table: [staticConstructor], [addKeycodes] and the character
    of an event *)

Section TableLoop.
Context {A : Type} (f : A -> N) (g : A -> string).

(** [for (...) table[f a] = g a]. *)
Lemma table_loop_other l (m : gmap N string) k :
  (forall a, a ∈ l -> f a <> k) ->
  foldl (fun m a => <[f a := g a]> m) m l !! k = m !! k.
Proof.
  revert m. induction l as [|a l IH]; intros m Hk; [done|]. cbn.
  rewrite IH by (intros b Hb; apply Hk; by right).
  apply lookup_insert_ne. apply Hk. left.
Qed.

Lemma table_loop_set l (m : gmap N string) a :
  NoDup (f <$> l) -> a ∈ l ->
  foldl (fun m a => <[f a := g a]> m) m l !! f a = Some (g a).
Proof.
  revert m. induction l as [|b l IH]; intros m Hnd Ha;
    [by apply elem_of_nil in Ha|].
  cbn in Hnd. apply NoDup_cons in Hnd as [Hb Hnd]. cbn.
  apply elem_of_cons in Ha as [->|Ha]; [|by apply IH].
  rewrite table_loop_other; [apply lookup_insert_eq|].
  intros c Hc Heq. apply Hb. rewrite <- Heq. by apply list_elem_of_fmap_2.
Qed.
End TableLoop.

Lemma of_nat_nonempty i : JsString.of_nat i <> "".
Proof.
  unfold JsString.of_nat.
  generalize (Nat.to_uint i).
  intros [|d|d|d|d|d|d|d|d|d|d]; done.
Qed.

Lemma characterFromEvent_table s e k v :
  type e <> keypress -> which e = Some k -> _MAP s !! k = Some v -> v <> "" ->
  characterFromEvent s (Dom e) = v.
Proof.
  intros Ht Hw Hk Hv. unfold characterFromEvent.
  destruct (decide (type e = keypress)); [done|].
  unfold table_hit. rewrite Hw, Hk.
  destruct v; [done|]. done.
Qed.

(** [staticConstructor] puts [f1]..[f19] on the codes 112..130 and the
    digits [0]..[9] on the codes 96..105 of the numeric keypad, and leaves
    the other codes alone; so on the class as loaded a keydown or keyup of
    such a code has that name as its character. *)
Theorem staticConstructor_table s :
  let m := _MAP (staticConstructor s) in
  (forall i, 1 <= i <= 19 -> m !! N.of_nat (111 + i) = Some ("f" +:+ JsString.of_nat i))
  /\ (forall i, i <= 9 -> m !! N.of_nat (i + 96) = Some (JsString.of_nat i))
  /\ (forall k, (k < 96 \/ 105 < k < 112 \/ 130 < k)%N -> m !! k = _MAP s !! k)
  /\ (forall e i, type e <> keypress ->
        (1 <= i <= 19 -> which e = Some (N.of_nat (111 + i)) ->
         characterFromEvent (staticConstructor s) (Dom e) = "f" +:+ JsString.of_nat i)
        /\ (i <= 9 -> which e = Some (N.of_nat (i + 96)) ->
            characterFromEvent (staticConstructor s) (Dom e) = JsString.of_nat i)).
Proof.
  cbn zeta.
  assert (Hf : forall i, 1 <= i <= 19 ->
             _MAP (staticConstructor s) !! N.of_nat (111 + i)
             = Some ("f" +:+ JsString.of_nat i)).
  { intros i Hi. cbn [staticConstructor _MAP].
    rewrite (table_loop_other (fun i => N.of_nat (i + 96)) JsString.of_nat).
    - apply (table_loop_set (fun i => N.of_nat (111 + i))
                            (fun i => "f" +:+ JsString.of_nat i)).
      + apply NoDup_fmap_2; [|apply NoDup_seq]. intros x y H. lia.
      + apply elem_of_seq. lia.
    - intros a Ha%elem_of_seq. lia. }
  assert (Hd : forall i, i <= 9 ->
             _MAP (staticConstructor s) !! N.of_nat (i + 96)
             = Some (JsString.of_nat i)).
  { intros i Hi. cbn [staticConstructor _MAP].
    apply (table_loop_set (fun i => N.of_nat (i + 96)) JsString.of_nat).
    - apply NoDup_fmap_2; [|apply NoDup_seq]. intros x y H. lia.
    - apply elem_of_seq. lia. }
  refine (conj Hf (conj Hd (conj _ _))).
  - intros k Hk. cbn [staticConstructor _MAP].
    rewrite (table_loop_other (fun i => N.of_nat (i + 96)) JsString.of_nat)
      by (intros a Ha%elem_of_seq; lia).
    apply (table_loop_other (fun i => N.of_nat (111 + i))
                            (fun i => "f" +:+ JsString.of_nat i)).
    intros a Ha%elem_of_seq. lia.
  - intros e i Ht. split; intros Hi Hw.
    + eapply characterFromEvent_table; [done|exact Hw|by apply Hf|done].
    + eapply characterFromEvent_table; [done|exact Hw|by apply Hd|].
      apply of_nat_nonempty.
Qed.

(** [addKeycodes(object)] puts every own property of [object] in the key
    table, leaves the other codes alone and empties the cache of the reverse
    map: a keydown or keyup of a code of [object] then has the name given
    (when it is not empty) as its character, while the character of a
    keypress never depends on the table. *)
Theorem addKeycodes_then_key object s :
  NoDup object.*1 ->
  let s' := addKeycodes object s in
  (forall k v, (k, v) ∈ object -> _MAP s' !! k = Some v)
  /\ (forall k, k ∉ object.*1 -> _MAP s' !! k = _MAP s !! k)
  /\ (forall k v e, (k, v) ∈ object -> v <> "" ->
        type e <> keypress -> which e = Some k ->
        characterFromEvent s' (Dom e) = v)
  /\ (forall e, type e = keypress ->
        characterFromEvent s' (Dom e) = characterFromEvent s (Dom e))
  /\ _REVERSE_MAP s' = None.
Proof.
  intros Hnd. cbn zeta.
  assert (Hin : forall k v, (k, v) ∈ object ->
             _MAP (addKeycodes object s) !! k = Some v).
  { intros k v Hkv. cbn [addKeycodes _MAP].
    by apply (table_loop_set fst snd object (_MAP s) (k, v)). }
  refine (conj Hin (conj _ (conj _ (conj _ eq_refl)))).
  - intros k Hk. cbn [addKeycodes _MAP].
    apply (table_loop_other fst snd). intros [k' v'] Hkv Heq. cbn in Heq. subst k'.
    apply Hk. by apply (list_elem_of_fmap_2 fst) in Hkv.
  - intros k v e Hkv Hv Ht Hw.
    eapply characterFromEvent_table; [done|exact Hw|by apply Hin|done].
  - intros e Ht. unfold characterFromEvent.
    by destruct (decide (type e = keypress)).
Qed.

(** [addKeycodes({144: 'numlock'})]: a keydown of code 144 is [numlock]. *)
Lemma addKeycodes_then_key_witness :
  NoDup [(144%N, "numlock")].*1
  /\ characterFromEvent (addKeycodes [(144%N, "numlock")] (statics0 false))
       (Dom (Sample.key keydown 144)) = "numlock".
Proof.
  assert (Hnd : NoDup [(144%N, "numlock")].*1)
    by (repeat constructor; by intros ?%elem_of_nil).
  split; [exact Hnd|].
  destruct (addKeycodes_then_key [(144%N, "numlock")] (statics0 false) Hnd)
    as (_ & _ & H & _).
  apply (H 144%N); [left|done|done|done].
Defined.

(** ** [#keysFromString]: cutting a combination at the plus signs *)

Lemma join_split sep s :
  JsString.join (String sep "") (JsString.split sep s) = s.
Proof.
  induction s as [|c s IH]; [done|]. cbn [JsString.split].
  destruct (split_shape sep s) as (h & tl & Hsplit & _ & _).
  rewrite Hsplit in IH |- *.
  destruct (Ascii.eqb c sep) eqn:E.
  - apply Ascii.eqb_eq in E as ->.
    change (JsString.join (String sep "") ("" :: h :: tl))
      with ("" +:+ String sep "" +:+ JsString.join (String sep "") (h :: tl)).
    by rewrite IH.
  - destruct tl as [|y tl].
    + cbn in IH |- *. by rewrite IH.
    + change (JsString.join (String sep "") (String c h :: y :: tl))
        with (String c h +:+ String sep "" +:+ JsString.join (String sep "") (y :: tl)).
      change (JsString.join (String sep "") (h :: y :: tl))
        with (h +:+ String sep "" +:+ JsString.join (String sep "") (y :: tl)) in IH.
      by rewrite append_cons, IH.
Qed.

Lemma split_tokens_no_sep sep s :
  Forall (fun t => JsString.mem sep t = false) (JsString.split sep s).
Proof.
  induction s as [|c s IH]; [by repeat constructor|]. cbn [JsString.split].
  destruct (Ascii.eqb c sep) eqn:E; [by constructor|].
  destruct (JsString.split sep s) as [|h tl]; [by repeat constructor; cbn; rewrite E|].
  apply Forall_cons in IH as [Hh Htl]. constructor; [|done].
  cbn. by rewrite E, Hh.
Qed.

Lemma replace_plus_plus_end t :
  JsString.mem "+" t = false ->
  JsString.replace_plus_plus (t +:+ "++") = t +:+ "+plus".
Proof.
  induction t as [|c t IH]; [done|].
  intros [Hc Ht]%mem_cons_false. rewrite !append_cons. cbn [JsString.replace_plus_plus].
  rewrite Hc. by rewrite IH.
Qed.

Lemma split_at_plus t r :
  JsString.mem "+" t = false ->
  JsString.split "+" (t +:+ String "+" r) = t :: JsString.split "+" r.
Proof.
  induction t as [|c t IH]; [done|].
  intros [Hc Ht]%mem_cons_false. rewrite append_cons. cbn [JsString.split].
  rewrite Hc. by rewrite IH.
Qed.

(** [#keysFromString] always gives a token.  Except for the bare plus sign,
    the tokens hold no plus sign and, joined with plus signs, give back the
    combination in which every [++] is written [+plus]: a combination
    without a plus sign is its own single token, [t++] is [t] and [plus],
    and a plus sign at the end leaves an empty last token. *)
Theorem keysFromString_tokens combination :
  keysFromString combination <> []
  /\ (combination <> "+" ->
      JsString.join "+" (keysFromString combination)
        = JsString.replace_plus_plus combination
      /\ Forall (fun t => JsString.mem "+" t = false) (keysFromString combination))
  /\ (JsString.mem "+" combination = false ->
      keysFromString combination = [combination])
  /\ (JsString.mem "+" combination = false ->
      keysFromString (combination +:+ "++") = [combination; "plus"])
  /\ (JsString.mem "+" combination = false -> combination <> "" ->
      keysFromString (combination +:+ "+") = [combination; ""]).
Proof.
  split; [apply keysFromString_nonempty|]. split; [|split; [|split]].
  - intros Hne. unfold keysFromString.
    apply String.eqb_neq in Hne. rewrite Hne.
    split; [apply join_split|apply split_tokens_no_sep].
  - apply keysFromString_single.
  - intros Hc. unfold keysFromString.
    assert (Hne : String.eqb (combination +:+ "++") "+" = false).
    { apply String.eqb_neq. intros H. apply (f_equal String.length) in H.
      rewrite length_append in H. cbn in H. lia. }
    rewrite Hne, replace_plus_plus_end by done.
    by rewrite split_at_plus.
  - intros Hc Hne'. unfold keysFromString.
    assert (Hne : String.eqb (combination +:+ "+") "+" = false).
    { apply String.eqb_neq. intros H. apply (f_equal String.length) in H.
      rewrite length_append in H. cbn in H.
      destruct combination; [done|cbn in H; lia]. }
    rewrite Hne.
    assert (Hr : JsString.replace_plus_plus (combination +:+ "+") = combination +:+ "+").
    { clear Hne Hne'. induction combination as [|c t IH]; [done|].
      apply mem_cons_false in Hc as [Hc Ht]. rewrite !append_cons.
      cbn [JsString.replace_plus_plus]. rewrite Hc. by rewrite IH. }
    rewrite Hr. by rewrite split_at_plus.
Qed.

(** ** What every entry of the registry satisfies *)

Section EntryInvariant.
Variable P : Binding.t -> Prop.
Hypothesis P_sorted : forall b, P b -> P (Binding.sorted b).
Hypothesis P_new : forall s combination action cb sn lv c,
  P (Binding.Make cb (KeyInfo.modifiers (getKeyInfo s combination action).1)
                  (KeyInfo.action (getKeyInfo s combination action).1) sn lv c).

Lemma getMatches_all character modifiers action mk ck sn cn lv m :
  registry_all P m ->
  registry_all P (getMatches character modifiers action mk ck sn cn lv m).2.
Proof.
  intros Hm. unfold getMatches.
  destruct (_callbacks m !! character) as [entries|] eqn:E; [|done].
  pose proof (loop_arr_Forall
                (if bool_decide (action = "keyup") && isModifier character
                 then [character] else modifiers)
                action mk ck sn cn lv (_sequenceLevels m) P P_sorted
                (length entries) entries (Nat.le_refl _) (Hm _ _ E)) as Harr.
  destruct (getMatches_loop _ _ _ _ _ _ _ _ _) as [[arr ms] ran]. cbn in *.
  intros k l. cbn [_callbacks set_callbacks].
  destruct (decide (k = character)) as [->|Hne].
  - rewrite lookup_insert_eq. by intros [= <-].
  - rewrite lookup_insert_ne by done. apply Hm.
Qed.

Lemma getMatches_modifiers_cases character modifiers action mk ck sn cn lv m :
  (getMatches character modifiers action mk ck sn cn lv m).1.2 = modifiers
  \/ (getMatches character modifiers action mk ck sn cn lv m).1.2
     = JsString.sort modifiers.
Proof.
  unfold getMatches. destruct (_callbacks m !! character); [|by left].
  destruct (getMatches_loop _ _ _ _ _ _ _ _ _) as [[arr ms] ran]. cbn.
  destruct (ran && _); [by right|by left].
Qed.

Lemma bindSingle_with_all bindSeq k cb action sn lv w :
  (forall c ks cb' a w', registry_all P (self w') ->
                         registry_all P (self (bindSeq c ks cb' a w'))) ->
  registry_all P (self w) ->
  registry_all P (self (bindSingle_with bindSeq k cb action sn lv w)).
Proof.
  intros Hseq Hw. unfold bindSingle_with.
  set (w1 := with_self _ w).
  assert (Hw1 : registry_all P (self w1)) by done.
  destruct (Nat.ltb 1 _); [by apply Hseq|].
  pose proof (P_new (classState w1) (JsString.replace_spaces k) action cb sn lv
                (JsString.replace_spaces k)) as Hnew.
  destruct (getKeyInfo _ _ _) as [info s']. cbn in Hnew.
  set (m1 := set_callbacks _ (self w1)).
  assert (Hm1 : registry_all P m1).
  { intros key l. unfold m1. cbn.
    destruct (decide (key = KeyInfo.key info)) as [->|Hne].
    - rewrite lookup_insert_eq. intros [= <-].
      destruct (_callbacks (self w) !! KeyInfo.key info) as [l|] eqn:E; cbn;
        [by eapply Hw|constructor].
    - rewrite lookup_insert_ne by done. apply Hw1. }
  pose proof (getMatches_all (KeyInfo.key info) (KeyInfo.modifiers info)
                (KeyInfo.action info) false false sn
                (Some (JsString.replace_spaces k)) lv m1 Hm1) as Hm2.
  pose proof (getMatches_modifiers_cases (KeyInfo.key info) (KeyInfo.modifiers info)
                (KeyInfo.action info) false false sn
                (Some (JsString.replace_spaces k)) lv m1) as Hmods.
  destruct (getMatches _ _ _ _ _ _ _ _ _) as [[ms mods] m2]. cbn in Hm2, Hmods.
  assert (Hentry : P (Binding.Make cb mods (KeyInfo.action info) sn lv
                                   (JsString.replace_spaces k))).
  { destruct Hmods as [-> | ->]; [done|]. by apply P_sorted in Hnew. }
  intros key l. cbn [self _callbacks set_callbacks].
  destruct (decide (key = KeyInfo.key info)) as [->|Hne];
    [|rewrite lookup_insert_ne by done; apply Hm2].
  rewrite lookup_insert_eq. intros [= <-].
  assert (Harr : Forall P (default [] (_callbacks m2 !! KeyInfo.key info))).
  { destruct (_callbacks m2 !! KeyInfo.key info) as [l|] eqn:E; cbn;
      [by eapply Hm2|constructor]. }
  destruct (JsString.truthy_opt sn); [by constructor|].
  apply Forall_app. split; [done|by repeat constructor].
Qed.

Lemma bindSequence_loop_all bindSingle combo cb action keys :
  (forall k cb' a sn lv w', registry_all P (self w') ->
                            registry_all P (self (bindSingle k cb' a sn lv w'))) ->
  forall i w, registry_all P (self w) ->
    registry_all P (self (bindSequence_loop bindSingle combo cb action i keys w)).
Proof.
  intros Hsingle. induction keys as [|k rest IH]; intros i w Hw; [done|]. cbn.
  assert (H1 : registry_all P
            (self (match rest with
                   | [] => (CallbackAndReset cb combo action, w)
                   | next :: _ =>
                       if JsString.truthy_opt action
                       then (IncreaseSequence combo (JsString.of_opt action), w)
                       else let '(info, s') := getKeyInfo (classState w) next None in
                            (IncreaseSequence combo (KeyInfo.action info),
                             with_classState s' w)
                   end).2)).
  { destruct rest; [done|]. destruct (JsString.truthy_opt action); [done|].
    by destruct (getKeyInfo _ _ _). }
  destruct (match rest with [] => _ | _ :: _ => _ end) as [wrapped w1].
  apply IH. by apply Hsingle.
Qed.

Lemma bind_all keys cb action w :
  registry_all P (self w) -> registry_all P (self (bind keys cb action w)).
Proof.
  unfold bind, _bindMultiple.
  generalize (match keys with Key k => [k] | Keys l => l end) as l.
  intros l. revert w. induction l as [|k l IH]; intros w Hw; [done|]. cbn.
  apply IH. apply bindSingle_with_all; [|done]. intros c ks cb' a w' Hw'.
  unfold bindSequence, bindSequence_with.
  apply bindSequence_loop_all; [|done].
  intros. by apply bindSingle_with_all.
Qed.

Lemma same_registry_all m m' :
  same_registry m m' -> registry_all P m -> registry_all P m'.
Proof.
  intros Hsame Hm k l' Hl'. specialize (Hsame k). rewrite Hl' in Hsame.
  inversion Hsame as [l ? Hll Hl|]; subst. symmetry in Hl.
  specialize (Hm k l Hl). clear Hl Hl' Hsame.
  induction Hll as [|b b' l l' Hb Hll IH]; [constructor|].
  apply Forall_cons in Hm as [HPb Hm]. constructor; [|by apply IH].
  destruct Hb as [-> | ->]; auto.
Qed.

Lemma step_all w o : registry_all P (self w) -> registry_all P (self (step w o)).
Proof.
  intros Hw. destruct o; cbn [step].
  - by apply bind_all.
  - by apply bind_all.
  - unfold trigger. destruct (_directMap (self w) !! _) as [cb|]; [|done].
    intros k l. rewrite invoke_callbacks. apply Hw.
  - intros k l. cbn. by rewrite lookup_empty.
  - done.
  - done.
  - done.
  - unfold handleKeyEvent.
    destruct (negb _); [done|]. destruct (_ && _); [done|].
    eapply same_registry_all; [|exact Hw].
    by destruct (handleKey_effect
                   (characterFromEvent (classState w) (Dom (normalise e)))
                   (eventModifiers (normalise e)) (normalise e) w)
      as (_ & _ & H & _).
  - unfold expire. destruct (List.find _ _) as [t|]; [|done].
    destruct (handler t); cbn; by destruct w.
Qed.

Lemma reachable_all w : reachable w -> registry_all P (self w).
Proof.
  intros (mac & ops & ->).
  assert (H : forall w0, registry_all P (self w0) ->
                         registry_all P (self (foldl step w0 ops))).
  { induction ops as [|o ops IH]; intros w0 Hw0; [done|]. cbn.
    by apply IH, step_all. }
  apply H. intros k l. cbn. by rewrite lookup_empty.
Qed.
End EntryInvariant.

Lemma keypress_plain_sorted b : keypress_plain b -> keypress_plain (Binding.sorted b).
Proof. unfold keypress_plain. cbn. intros H Ha. by rewrite (H Ha). Qed.

Lemma keypress_plain_new s combination action cb sn lv c :
  keypress_plain
    (Binding.Make cb (KeyInfo.modifiers (getKeyInfo s combination action).1)
                  (KeyInfo.action (getKeyInfo s combination action).1) sn lv c).
Proof.
  unfold keypress_plain. cbn. unfold getKeyInfo.
  destruct (foldl _ _ _) as [k ms].
  destruct (pickBestAction_cases s k ms action) as (H1 & _).
  by destruct (pickBestAction s k ms action) as [a s'].
Qed.

(** In every state an engine reaches, an entry that listens to keypress has
    no modifiers (a combination with a modifier is never bound to
    keypress), so no entry matches a keypress that comes with ctrl or meta
    held. *)
Theorem keypress_never_matches_with_ctrl_or_meta w :
  reachable w ->
  (forall k l b, _callbacks (self w) !! k = Some l -> b ∈ l ->
     Binding.action b = "keypress" -> Binding.modifiers b = [])
  /\ (forall character e b,
        type e = keypress ->
        b ∈ matches_of character (eventModifiers e) e w ->
        ctrlKey e = false /\ metaKey e = false).
Proof.
  intros Hw.
  pose proof (reachable_all keypress_plain keypress_plain_sorted
                keypress_plain_new w Hw) as Hall.
  split.
  - intros k l b Hl Hb. eapply Forall_forall in Hb; [|by eapply Hall]. exact Hb.
  - intros character e b Ht Hb. unfold matches_of in Hb.
    destruct (_callbacks (self w) !! character) as [entries|] eqn:E;
      [|unfold getMatches in Hb; rewrite E in Hb; by apply elem_of_nil in Hb].
    rewrite (getMatches_dispatch_matches _ _ _ _ _ E) in Hb.
    apply loop_dispatch_matches in Hb as (b0 & Hin & Hex).
    apply examine_match in Hex as [Hact [(_ & Hm & Hc & _)|[_ Hmatch]]]; [done|].
    eapply Forall_forall in Hin; [|by eapply Hall].
    rewrite Ht in Hact. rewrite (Hin Hact) in Hmatch.
    rewrite Ht in Hmatch. cbn in Hmatch.
    apply modifiersMatch_perm in Hmatch;
      [|apply eventModifiers_are_modifiers|constructor].
    apply Permutation_nil_r in Hmatch. unfold eventModifiers in Hmatch.
    destruct (shiftKey e), (altKey e), (ctrlKey e), (metaKey e); done.
Qed.

(** [bind('a', f)]: a keypress of [a] with ctrl held matches nothing. *)
Lemma keypress_never_matches_with_ctrl_or_meta_witness :
  let w := foldl step (world0 false) [OpBind (Key "a") (UserFn 1 false) None] in
  let e := KeyEvent keypress (Some 97%N) (Some 97%N) false false true false
                    (Some Sample.body) in
  reachable w
  /\ _callbacks (self w) !! "a" = Some [Sample.plain (UserFn 1 false) "keypress" "a"]
  /\ forall b, b ∉ matches_of "a" (eventModifiers e) e w.
Proof.
  cbn zeta.
  set (w := foldl step (world0 false) _).
  assert (Hw : reachable w) by (exists false; eexists; reflexivity).
  refine (conj Hw (conj _ _)); [vm_compute; reflexivity|].
  intros b Hb.
  destruct (keypress_never_matches_with_ctrl_or_meta w Hw) as [_ H].
  destruct (fun Ht => H "a" _ b Ht Hb) as [Hc _]; [done|].
  cbn in Hc. discriminate Hc.
Defined.

(** ** The order of the registry *)

Lemma seq_first_index l :
  seq_first l ->
  forall i j b b', i < j -> l !! i = Some b -> l !! j = Some b' ->
    Binding.is_seq b = false -> Binding.is_seq b' = false.
Proof.
  induction l as [|x l IH]; intros Hord i j b b' Hij Hi Hj Hb; [done|].
  destruct Hord as [Hx Hord].
  destruct j as [|j]; [lia|]. cbn in Hj.
  destruct i as [|i].
  - cbn in Hi. injection Hi as ->.
    eapply Forall_forall in Hx; [exact Hx|done|].
    by eapply list_elem_of_lookup_2.
  - cbn in Hi. eapply (IH Hord i j); [lia|done..].
Qed.

(** In every state an engine reaches, each array of the registry has its
    sequence entries before its plain entries ([unshift] for the former,
    [push] for the latter, and [#getMatches] keeps the order), and the
    modifiers of every entry are names of modifier keys. *)
Theorem reachable_registry_order w key entries :
  reachable w ->
  _callbacks (self w) !! key = Some entries ->
  (forall i j b b', i < j -> entries !! i = Some b -> entries !! j = Some b' ->
     Binding.is_seq b = false -> Binding.is_seq b' = false)
  /\ (forall b x, b ∈ entries -> x ∈ Binding.modifiers b ->
        x ∈ ["shift"; "ctrl"; "alt"; "meta"]).
Proof.
  intros Hw%reachable_registry_ok Hl. destruct (Hw key entries Hl) as [Hord Hok].
  split; [by apply seq_first_index|].
  intros b x Hb Hx. apply isModifier_cases.
  eapply Forall_forall in Hb; [|exact Hok].
  by eapply Forall_forall in Hx; [|exact Hb].
Qed.

(** After [bind('g', f1); bind('g i', f9)] the entry of the sequence stands
    before the plain entry of [g]. *)
Lemma reachable_registry_order_witness :
  let w := foldl step (world0 false)
             [OpBind (Key "g") (UserFn 1 false) None;
              OpBind (Key "g i") (UserFn 9 false) None] in
  let first := Binding.Make (IncreaseSequence "g i" "keypress") [] "keypress"
                            (Some "g i") (Some 0) "g" in
  let second := Sample.plain (UserFn 1 false) "keypress" "g" in
  reachable w
  /\ _callbacks (self w) !! "g" = Some [first; second]
  /\ (Binding.is_seq first = false -> Binding.is_seq second = false).
Proof.
  cbn zeta.
  set (w := foldl step (world0 false) _).
  assert (Hw : reachable w) by (exists false; eexists; reflexivity).
  assert (Hl : _callbacks (self w) !! "g"
               = Some [Binding.Make (IncreaseSequence "g i" "keypress") []
                                    "keypress" (Some "g i") (Some 0) "g";
                       Sample.plain (UserFn 1 false) "keypress" "g"])
    by (vm_compute; reflexivity).
  refine (conj Hw (conj Hl _)).
  destruct (reachable_registry_order w "g" _ Hw Hl) as [H _].
  apply (H 0 1); [lia|done|done].
Defined.

(** ** Typing while the engine is paused *)



(** ** [#belongsTo] *)

(** [#belongsTo(element, ancestor)] holds exactly when [ancestor] is an
    element that is [element] itself or stands above it: nothing belongs to
    [null] or to the [document], and [null] and the [document] belong to
    nothing. *)
Theorem belongsTo_is_ancestry element ancestor :
  (belongsTo element ancestor = true <->
     exists i parentNode, ancestor = Elem i parentNode /\ i ∈ chain element)
  /\ belongsTo element Document = false
  /\ belongsTo element Null = false
  /\ belongsTo Null ancestor = false
  /\ belongsTo Document ancestor = false
  /\ (forall i parentNode, belongsTo (Elem i parentNode) (Elem i parentNode) = true)
  /\ (forall i, belongsTo element ancestor = true ->
                belongsTo (Elem i element) ancestor = true).
Proof.
  assert (Hiff : forall e a, belongsTo e a = true <->
                   exists i p, a = Elem i p /\ i ∈ chain e).
  { intros e a. induction e as [| |j p IH]; cbn [belongsTo chain].
    - split; [done|]. by intros (i & q & _ & ?%elem_of_nil).
    - split; [done|]. by intros (i & q & _ & ?%elem_of_nil).
    - destruct a as [| |i q]; cbn [same_node].
      + rewrite IH. split; by intros (i & q & ? & _).
      + rewrite IH. split; by intros (i & q & ? & _).
      + destruct (Nat.eqb j i) eqn:E.
        * apply Nat.eqb_eq in E as ->. split; [|done].
          intros _. exists i, q. split; [done|left].
        * apply Nat.eqb_neq in E. rewrite IH. split.
          -- intros (i' & q' & Ha & Hin). exists i', q'. split; [done|by right].
          -- intros (i' & q' & [= <- <-] & Hin).
             apply elem_of_cons in Hin as [->|Hin]; [done|].
             by exists i, q. }
  split; [apply Hiff|].
  assert (Hnone : forall e a, (forall i p, a <> Elem i p) -> belongsTo e a = false).
  { intros e a Ha. destruct (belongsTo e a) eqn:E; [|done].
    apply Hiff in E as (i & p & -> & _). by destruct (Ha i p). }
  repeat split; try done; try by apply Hnone.
  - intros i p. cbn. by rewrite Nat.eqb_refl.
  - intros i H. cbn [belongsTo]. rewrite H. by destruct (same_node _ _).
Qed.

(** ** Binding a combination and typing it *)

(** What [bind] of a combination without white space leaves under its key:
    the array the loop of [#getMatches] left, and the new entry at its end. *)
Lemma bind_plain k cb action w :
  any_space k = false ->
  let info := (getKeyInfo (classState w) k action).1 in
  let old := default [] (_callbacks (self w) !! KeyInfo.key info) in
  let own := bool_decide (KeyInfo.action info = "keyup")
             && isModifier (KeyInfo.key info) in
  let r := getMatches_loop
             (if own then [KeyInfo.key info] else KeyInfo.modifiers info)
             (KeyInfo.action info) false false None (Some k) None
             (_sequenceLevels (self w)) old in
  _callbacks (self (bind (Key k) cb action w)) !! KeyInfo.key info =
    Some (r.1.1 ++
          [Binding.Make cb
             (if r.2 && negb own then JsString.sort (KeyInfo.modifiers info)
              else KeyInfo.modifiers info)
             (KeyInfo.action info) None None k])
  /\ classState (bind (Key k) cb action w) = (getKeyInfo (classState w) k action).2.
Proof.
  intros Hk. cbn zeta. unfold bind, _bindMultiple. cbn [foldl].
  rewrite bindSingle_of_key by done.
  unfold bindSingle_key, bindSingle_with.
  unfold JsString.replace_spaces. rewrite collapse_no_space by done.
  rewrite split_none by by apply any_space_mem.
  cbn [length Nat.ltb Nat.leb with_self classState self timers nextTimerId].
  destruct (getKeyInfo (classState w) k action) as [info s']. cbn [fst snd].
  unfold getMatches. cbn [_callbacks set_callbacks set_directMap _sequenceLevels].
  rewrite lookup_insert_eq.
  destruct (getMatches_loop _ _ _ _ _ _ _ _ _) as [[arr ms] ran].
  cbn [JsString.truthy_opt fst snd self classState _callbacks set_callbacks].
  by rewrite !lookup_insert_eq.
Qed.

Lemma getKeyInfo_again s combination action :
  (getKeyInfo (getKeyInfo s combination action).2 combination action).1 =
  (getKeyInfo s combination action).1.
Proof.
  unfold getKeyInfo.
  destruct (foldl (getKeyInfo_step (platformIsMac s) action) _ _) as [k ms] eqn:E.
  pose proof (pickBestAction_again s k ms action) as Hagain.
  pose proof (pickBestAction_platform s k ms action) as Hp.
  destruct (pickBestAction s k ms action) as [a s'] eqn:E2. cbn in *.
  rewrite Hp, E. by rewrite Hagain.
Qed.

Lemma modifiersMatch_refl l : modifiersMatch l l = true.
Proof. unfold modifiersMatch. apply String.eqb_refl. Qed.

(** The loop of [#getMatches] on an array that holds one plain entry, of the
    combination that is being bound: the entry is spliced out. *)
Lemma loop_splices_lone_entry modifiers action k levels b :
  Binding.seq b = None -> Binding.action b = action -> Binding.combo b = k ->
  modifiersMatch modifiers (Binding.modifiers b) = true ->
  exists b' ran,
    getMatches_loop modifiers action false false None (Some k) None levels [b]
    = ([], [b'], ran).
Proof.
  intros Hseq Hact Hcombo Hmatch. cbn [getMatches_loop]. unfold examine.
  unfold Binding.is_seq. rewrite Hseq, Hact, String.eqb_refl. cbn [JsString.truthy_opt negb andb].
  destruct (String.eqb action "keypress"); cbn [andb negb];
    unfold deletes; cbn [JsString.truthy_opt negb andb orb Binding.sorted Binding.combo];
    rewrite ?Hmatch, Hcombo, (bool_decide_eq_true_2 (Some k = Some k)) by done;
    cbn; by eauto.
Qed.

(** Binding a combination again over the lone entry it left. *)
Lemma rebind_over_lone k cb1 cb2 action s w1 :
  any_space k = false ->
  let info := (getKeyInfo s k action).1 in
  KeyInfo.action info <> "keyup" \/ isModifier (KeyInfo.key info) = false ->
  classState w1 = (getKeyInfo s k action).2 ->
  _callbacks (self w1) !! KeyInfo.key info =
    Some [Binding.Make cb1 (KeyInfo.modifiers info) (KeyInfo.action info)
                       None None k] ->
  exists modifiers,
    modifiers ≡ₚ KeyInfo.modifiers info
    /\ _callbacks (self (bind (Key k) cb2 action w1)) !! KeyInfo.key info =
         Some [Binding.Make cb2 modifiers (KeyInfo.action info) None None k].
Proof.
  intros Hk. cbn zeta. intros Hown Hs1 H1.
  destruct (bind_plain k cb2 action w1 Hk) as [H2 _].
  rewrite Hs1, getKeyInfo_again in H2. rewrite H1 in H2. unfold id in H2.
  cbn [default] in H2.
  assert (Hnot : (bool_decide (KeyInfo.action (getKeyInfo s k action).1 = "keyup")
                  && isModifier (KeyInfo.key (getKeyInfo s k action).1))
                 = false).
  { destruct Hown as [H|H]; [by rewrite bool_decide_eq_false_2|].
    rewrite H. apply andb_false_r. }
  rewrite Hnot in H2.
  destruct (loop_splices_lone_entry
              (KeyInfo.modifiers (getKeyInfo s k action).1)
              (KeyInfo.action (getKeyInfo s k action).1) k
              (_sequenceLevels (self w1))
              (Binding.Make cb1
                 (KeyInfo.modifiers (getKeyInfo s k action).1)
                 (KeyInfo.action (getKeyInfo s k action).1)
                 None None k)
              eq_refl eq_refl eq_refl (modifiersMatch_refl _))
    as (b' & ran & Hloop).
  rewrite Hloop in H2. cbn [fst snd app] in H2.
  eexists. split; [|exact H2].
  destruct (ran && _); [apply sort_perm|done].
Qed.

(** Binding a combination (no sequence) whose key holds no entry yet leaves
    exactly one entry under that key; binding the same combination again,
    with the same action, replaces that entry: the key still holds one
    entry, with the new callback.  (The keyup of a modifier key is set
    apart: there [#getMatches] compares the entry with the key alone.) *)
Theorem rebinding_a_lone_combination_replaces_it k cb1 cb2 action w :
  any_space k = false ->
  let info := (getKeyInfo (classState w) k action).1 in
  _callbacks (self w) !! KeyInfo.key info = None ->
  KeyInfo.action info <> "keyup" \/ isModifier (KeyInfo.key info) = false ->
  let w1 := bind (Key k) cb1 action w in
  let w2 := bind (Key k) cb2 action w1 in
  _callbacks (self w1) !! KeyInfo.key info =
    Some [Binding.Make cb1 (KeyInfo.modifiers info) (KeyInfo.action info)
                       None None k]
  /\ exists modifiers,
       modifiers ≡ₚ KeyInfo.modifiers info
       /\ _callbacks (self w2) !! KeyInfo.key info =
            Some [Binding.Make cb2 modifiers (KeyInfo.action info) None None k].
Proof.
  intros Hk. cbn zeta. intros Hfresh Hown.
  destruct (bind_plain k cb1 action w Hk) as [H1 Hs1].
  rewrite Hfresh in H1. cbn [default getMatches_loop fst snd app andb] in H1.
  split; [exact H1|].
  by apply (rebind_over_lone k cb1 cb2 action (classState w)).
Qed.

(** [bind('ctrl+s', f1, 'keydown'); bind('ctrl+s', f2, 'keydown')]. *)
Lemma rebinding_a_lone_combination_replaces_it_witness :
  any_space "ctrl+s" = false
  /\ _callbacks (self (world0 false)) !! "s" = None
  /\ exists modifiers,
       _callbacks (self (bind (Key "ctrl+s") (UserFn 2 false) (Some "keydown")
                           Sample.ctrl_s)) !! "s"
       = Some [Binding.Make (UserFn 2 false) modifiers "keydown" None None "ctrl+s"].
Proof.
  assert (Hk : any_space "ctrl+s" = false) by reflexivity.
  assert (Hf : _callbacks (self (world0 false)) !! "s" = None) by reflexivity.
  refine (conj Hk (conj Hf _)).
  destruct (rebinding_a_lone_combination_replaces_it "ctrl+s" (UserFn 1 false)
              (UserFn 2 false) (Some "keydown") (world0 false) Hk Hf
              (or_intror eq_refl))
    as (_ & modifiers & _ & H).
  by exists modifiers.
Defined.










(** ** The case of the character of an event *)

Lemma lower_char_idem c :
  JsString.lower_char (JsString.lower_char c) = JsString.lower_char c.
Proof. destruct c as [[] [] [] [] [] [] [] []]; vm_compute; reflexivity. Qed.

Lemma toLowerCase_idem s :
  JsString.toLowerCase (JsString.toLowerCase s) = JsString.toLowerCase s.
Proof.
  induction s as [|c s IH]; [done|]. cbn. by rewrite lower_char_idem, IH.
Qed.

(** For an event whose code is in the range of the model: the character
    of a keypress is one code unit, in lower case when shift is not held;
    and a character that lower-casing would change comes from a keypress
    with shift held, or is a name that one of the two tables gives to the
    code of a keydown or keyup. *)
Theorem characterFromEvent_case s e :
  in_range e ->
  let c := characterFromEvent s (Dom (normalise e)) in
  (type e = keypress ->
     String.length c = 1
     /\ (shiftKey e = false -> JsString.toLowerCase c = c))
  /\ (JsString.toLowerCase c <> c ->
      (type e = keypress /\ shiftKey e = true)
      \/ (type e <> keypress
          /\ (table_hit (_MAP s) (which (normalise e)) = Some c
              \/ table_hit _KEYCODE_MAP (which (normalise e)) = Some c))).
Proof.
  intros _. cbn zeta. unfold characterFromEvent.
  cbn [type shiftKey normalise].
  destruct (decide (type e = keypress)) as [Hk|Hk].
  - split.
    + intros _. destruct (shiftKey e); [by split|].
      split; [done|]. intros _. apply toLowerCase_idem.
    + intros Hc. left. split; [done|].
      destruct (shiftKey e); [done|]. by rewrite toLowerCase_idem in Hc.
  - split; [done|].
    intros Hc. right. split; [done|].
    destruct (table_hit (_MAP s) _); [by left|].
    destruct (table_hit _KEYCODE_MAP _); [by right|].
    by rewrite toLowerCase_idem in Hc.
Qed.

(** A keypress of [A] with shift held, and a keydown of the same code. *)
Lemma characterFromEvent_case_witness :
  let e := KeyEvent keypress (Some 65%N) (Some 65%N) true false false false
                    (Some Sample.body) in
  let e' := KeyEvent keydown (Some 65%N) (Some 65%N) true false false false
                     (Some Sample.body) in
  in_range e /\ in_range e'
  /\ characterFromEvent (statics0 false) (Dom (normalise e)) = "A"
  /\ characterFromEvent (statics0 false) (Dom (normalise e')) = "a"
  /\ (type e = keypress /\ shiftKey e = true
      \/ type e <> keypress
         /\ (table_hit (_MAP (statics0 false)) (which (normalise e)) = Some "A"
             \/ table_hit _KEYCODE_MAP (which (normalise e)) = Some "A")).
Proof.
  cbn zeta.
  set (e := KeyEvent keypress _ _ _ _ _ _ _).
  assert (Hr : in_range e) by reflexivity.
  assert (Hc : characterFromEvent (statics0 false) (Dom (normalise e)) = "A")
    by (vm_compute; reflexivity).
  refine (conj Hr (conj eq_refl (conj Hc (conj _ _)))); [vm_compute; reflexivity|].
  pose proof (proj2 (characterFromEvent_case (statics0 false) e Hr)) as H.
  cbn zeta in H. rewrite Hc in H. apply H. discriminate.
Defined.

(** ** A sequence of two keys, from [bind] to its callback *)

Lemma same_parse_refl s : same_parse s s.
Proof. done. Qed.




















(** ** Suppression and pause: the default [stopCallback] *)










(** ** Dropped events and the keypad digit 0 *)




